(** * Smart Melody Tokenizer: a shallow embedding and its properties

    The development follows the Python sources

    - [smt/utils/midi_utils.py]   (notes, quantization, name tables),
    - [smt/core/vocabulary.py]    (the token <-> id vocabulary),
    - [smt/core/tokenizer.py]     (encode / decode),
    - [smt/patterns/detector.py]  (pattern detection, overlap resolution).

    Conventions of the embedding.

    - Python [int] is [Z]; Python [str] is [string] (ASCII text).
    - Python [float] beat positions, durations and confidences are
      exact rationals [Q], compared up to [Qeq]; every constant of the
      sources (0.1, 0.25, 0.375, 0.15, ...) is the decimal it is
      written as.  This is the embedding of the modules [MidiUtils],
      [Tokenizer] and [Detector].
    - Where a property depends on how floats round, the functions are
      embedded a second time in IEEE 754 binary64 arithmetic (modules
      [Binary64], [MidiFloat], [TokenizerFloat]): a finite float is the
      rational it denotes, every operation rounds its exact result to
      the nearest float, ties to even, and overflow, [ZeroDivisionError]
      and [OverflowError] are results of their own.
    - A Python function that can raise returns an [option]; [None] is
      the raised exception.  [Optional[...]] results are [option] too.
    - Dictionaries that are literal tables are association lists in the
      order they are written; the dictionaries built at run time
      ([token_to_id], [id_to_token]) are [gmap]s, and the set of used
      note indices of overlap resolution is a [gset Z]. *)

From Stdlib Require Import QArith Qround Qabs Qpower Qreduction Lqa ZArith Lia
  String Ascii List Sorted.
From stdpp Require Import gmap strings list fin_maps pretty.

Local Open Scope Z_scope.

(** ** Python primitives used by the sources *)

Module Py.

(** [s.split(sep)] for a one-character separator. *)
Fixpoint split (sep : ascii) (s : string) : list string :=
  match s with
  | EmptyString => [EmptyString]
  | String c r =>
      if Ascii.eqb c sep then EmptyString :: split sep r
      else match split sep r with
           | [] => [String c EmptyString]
           | h :: t => String c h :: t
           end
  end.

(** [sep.join(parts)]. *)
Fixpoint join (sep : string) (parts : list string) : string :=
  match parts with
  | [] => EmptyString
  | [p] => p
  | p :: rest => p +:+ sep +:+ join sep rest
  end.

(** [c in s] for a one-character [c]. *)
Fixpoint contains (c : ascii) (s : string) : bool :=
  match s with
  | EmptyString => false
  | String d r => Ascii.eqb d c || contains c r
  end.

(** [s[:-1]]: everything but the last character (empty stays empty). *)
Fixpoint drop_last (s : string) : string :=
  match s with
  | EmptyString => EmptyString
  | String c EmptyString => EmptyString
  | String c r => String c (drop_last r)
  end.

(** [s[-1]]: the last character; [None] is Python's [IndexError]. *)
Fixpoint last_char (s : string) : option ascii :=
  match s with
  | EmptyString => None
  | String c EmptyString => Some c
  | String _ r => last_char r
  end.

(** [int(c)] on a one-character string; [None] is [ValueError]. *)
Definition int_of_char (c : ascii) : option Z :=
  let n := Z.of_nat (nat_of_ascii c) in
  if (48 <=? n) && (n <=? 57) then Some (n - 48) else None.

(** [s.startswith(p)]. *)
Definition startswith (p s : string) : bool := String.prefix p s.

(** [c.upper()] and [s.upper()] on ASCII text. *)
Definition upper_char (c : ascii) : ascii :=
  let n := nat_of_ascii c in
  if (Nat.leb 97 n && Nat.leb n 122)%bool then ascii_of_nat (n - 32) else c.

Fixpoint upper (s : string) : string :=
  match s with
  | EmptyString => EmptyString
  | String c r => String (upper_char c) (upper r)
  end.

(** [s.replace(a, b)] for one-character [a] and [b]. *)
Fixpoint replace (a b : ascii) (s : string) : string :=
  match s with
  | EmptyString => EmptyString
  | String c r => String (if Ascii.eqb c a then b else c) (replace a b r)
  end.

(** [d.get(k)] on a literal table. *)
Fixpoint assoc {V} (k : string) (d : list (string * V)) : option V :=
  match d with
  | [] => None
  | (k', v) :: rest => if String.eqb k k' then Some v else assoc k rest
  end.

(** [range(lo, hi)]. *)
Definition range (lo hi : Z) : list Z := seqZ lo (hi - lo).

(** [len(l)] as a Python integer. *)
Definition len {A} (l : list A) : Z := Z.of_nat (length l).

(** [l[i:j]] with Python's treatment of negative and out-of-range
    bounds. *)
Definition clamp_index (n i : Z) : Z :=
  if i <? 0 then Z.max 0 (i + n) else Z.min i n.

Definition slice {A} (l : list A) (i j : Z) : list A :=
  let n := len l in
  let lo := clamp_index n i in
  let hi := clamp_index n j in
  take (Z.to_nat (hi - lo)) (drop (Z.to_nat lo) l).

(** Comparisons of floats. *)
Definition Qltb (x y : Q) : bool := negb (Qle_bool y x).
Definition Qleb (x y : Q) : bool := Qle_bool x y.

(** [round(x)]: nearest integer, ties to the even one. *)
Definition round (x : Q) : Z :=
  let f := Qfloor x in
  let r := (x - inject_Z f)%Q in
  if Qltb r (1 # 2) then f
  else if Qltb (1 # 2) r then f + 1
  else if Z.even f then f else f + 1.

(** [max(a, b)] and [min(a, b)] of two floats: the first argument wins
    a tie. *)
Definition max2 (a b : Q) : Q := if Qltb a b then b else a.
Definition min2 (a b : Q) : Q := if Qltb b a then b else a.

(** [min(xs, key=f)] over a non-empty sequence [x :: xs]: the first
    element with the least key. *)
Fixpoint min_by {A} (key : A -> Q) (best : A) (xs : list A) : A :=
  match xs with
  | [] => best
  | x :: rest => min_by key (if Qltb (key x) (key best) then x else best) rest
  end.

End Py.

(** ** [smt/utils/midi_utils.py] *)

Module MidiUtils.

(** [@dataclass SMTNote]. *)
Record SMTNote := mkNote {
  pitch : Z;
  start_time : Q;
  end_time : Q;
  velocity : Z;
  pitch_name : string;
  duration_name : string;
  dynamic_name : string
}.

Definition note_names : list string :=
  ["C"; "C#"; "D"; "D#"; "E"; "F"; "F#"; "G"; "G#"; "A"; "A#"; "B"]%string.

(** [MIDIProcessor._midi_to_pitch_name]. *)
Definition _midi_to_pitch_name (midi_pitch : Z) : string :=
  let octave := midi_pitch / 12 - 1 in
  let note := nth (Z.to_nat (midi_pitch mod 12)) note_names EmptyString in
  note +:+ pretty octave.

Definition note_map : list (string * Z) :=
  [("C", 0); ("C#", 1); ("D", 2); ("D#", 3); ("E", 4); ("F", 5);
   ("F#", 6); ("G", 7); ("G#", 8); ("A", 9); ("A#", 10); ("B", 11)]%string.

(** [MIDIProcessor._pitch_name_to_midi]; [None] stands for the
    [IndexError], [ValueError] or [KeyError] the Python raises. *)
Definition _pitch_name_to_midi (pitch_name : string) : option Z :=
  let note :=
    if Py.contains "#" pitch_name then Py.drop_last pitch_name
    else if Py.contains "s" pitch_name
         then Py.drop_last (Py.drop_last pitch_name) +:+ "#"
         else Py.drop_last pitch_name in
  c ← Py.last_char pitch_name;
  octave ← Py.int_of_char c;
  n ← Py.assoc note note_map;
  Some ((octave + 1) * 12 + n).

(** The table of [_beats_to_duration_name], in source order. *)
Definition duration_map : list (Q * string) :=
  [(0.25, "sixteenth"); (0.375, "dotted_sixteenth"); (0.5, "eighth");
   (0.75, "dotted_eighth"); (1.0, "quarter"); (1.5, "dotted_quarter");
   (2.0, "half"); (3.0, "dotted_half"); (4.0, "whole")]%Q%string.

(** [min(duration_map.keys(), key=lambda x: abs(x - duration_beats))],
    kept together with the name stored under that key. *)
Definition closest_duration (duration_beats : Q) : Q * string :=
  Py.min_by (fun e => Qabs (fst e - duration_beats))
            (0.25%Q, "sixteenth"%string) (tail duration_map).

(** [MIDIProcessor._beats_to_duration_name]. *)
Definition _beats_to_duration_name (duration_beats : Q) : string :=
  let closest := closest_duration duration_beats in
  if Py.Qltb (Qabs (duration_beats - fst closest)) 0.1
  then snd closest
  else "quarter"%string.

(** [MIDIProcessor._velocity_to_dynamic]. *)
Definition _velocity_to_dynamic (v : Z) : string :=
  if v <? 20 then "pp"
  else if v <? 40 then "p"
  else if v <? 60 then "mp"
  else if v <? 80 then "mf"
  else if v <? 100 then "f"
  else "ff".

Definition dynamic_map : list (string * Z) :=
  [("pp", 25); ("p", 35); ("mp", 50); ("mf", 65); ("f", 85); ("ff", 100)]%string.

(** [MIDIProcessor._dynamic_to_velocity]: [dynamic_map.get(dynamic, 65)]. *)
Definition _dynamic_to_velocity (dynamic : string) : Z :=
  default 65 (Py.assoc dynamic dynamic_map).

(** The body of the loop of [quantize_notes]. *)
Definition quantize_note (beat_subdivision : Q) (note : SMTNote) : SMTNote :=
  let quantized_start :=
    (inject_Z (Py.round (start_time note / beat_subdivision)) * beat_subdivision)%Q in
  let original_duration := (end_time note - start_time note)%Q in
  let quantized_duration :=
    Py.max2 (inject_Z (Py.round (original_duration / beat_subdivision)) * beat_subdivision)%Q
            beat_subdivision in
  {| pitch := pitch note;
     start_time := quantized_start;
     end_time := (quantized_start + quantized_duration)%Q;
     velocity := velocity note;
     pitch_name := pitch_name note;
     duration_name := _beats_to_duration_name quantized_duration;
     dynamic_name := dynamic_name note |}.

(** [MIDIProcessor.quantize_notes]; [grid = None] is the default
    argument, replaced by [self.quantization_grid = 16].  The result
    is [None] when [1.0 / (grid / 4)] raises [ZeroDivisionError]. *)
Definition quantization_grid : Z := 16.

Definition quantize_notes (notes : list SMTNote) (grid : option Z)
  : option (list SMTNote) :=
  let grid := default quantization_grid grid in
  let per_beat := (inject_Z grid / 4)%Q in
  if Qeq_bool per_beat 0 then None
  else
    let beat_subdivision := (1 / per_beat)%Q in
    Some (map (quantize_note beat_subdivision) notes).

End MidiUtils.

(** ** [smt/core/vocabulary.py] *)

Module Vocabulary.

(** The configuration dictionary.  Keys read with [config.get(k, d)]
    are optional; keys read with [config[k]] are fields. *)
Record PitchRange := mkPitchRange {
  min_octave : Z;
  max_octave : Z;
  include_accidentals : option bool
}.

Record Config := mkConfig {
  pitch_range : PitchRange;
  durations : list string;
  dynamics : list string;
  patterns : option (list (string * list string));
  structural : list string;
  max_vocab_size : option Z
}.

(** [SMTVocabulary._default_config]. *)
Definition _default_config : Config :=
  {| pitch_range :=
       {| min_octave := 3; max_octave := 6; include_accidentals := Some true |};
     durations := ["sixteenth"; "eighth"; "quarter"; "half"; "whole";
                   "dotted_quarter"; "dotted_half"];
     dynamics := ["pp"; "p"; "mp"; "mf"; "f"; "ff"];
     patterns := Some
       [("scales", ["scale_up"; "scale_down"; "chromatic_up"; "chromatic_down"]);
        ("intervals", ["step"; "skip"; "leap"; "octave"]);
        ("arpeggios", ["arpeggio_major"; "arpeggio_minor"; "arpeggio_dim"; "arpeggio_aug"]);
        ("rhythmic", ["syncopated"; "steady"; "accelerando"; "ritardando"])];
     structural := ["phrase_start"; "phrase_end"; "motif_repeat"; "sequence"];
     max_vocab_size := Some 2000 |}%string.

Definition special_tokens : list string :=
  ["[PAD]"; "[BOS]"; "[EOS]"; "[MASK]"; "[UNK]"; "[SEP]"]%string.

(** [_add_special_tokens]: [self.vocab.extend(special_tokens)]. *)
Definition _add_special_tokens (vocab : list string) : list string :=
  vocab ++ special_tokens.

Definition structural_tokens : list string :=
  ["BAR"; "PHRASE_START"; "PHRASE_END"; "SECTION_A"; "SECTION_B";
   "VERSE"; "CHORUS"; "BRIDGE"]%string.

(** [_add_structural_tokens]. *)
Definition _add_structural_tokens (vocab : list string) : list string :=
  vocab ++ structural_tokens.

(** [_get_pitch_names]. *)
Definition _get_pitch_names (cfg : Config) : list string :=
  let note_names :=
    if default true (include_accidentals (pitch_range cfg))
    then ["C"; "C#"; "D"; "D#"; "E"; "F"; "F#"; "G"; "G#"; "A"; "A#"; "B"]%string
    else ["C"; "D"; "E"; "F"; "G"; "A"; "B"]%string in
  foldl (fun pitches octave =>
           foldl (fun pitches note => pitches ++ [note +:+ pretty octave])
                 pitches note_names)
        []
        (Py.range (min_octave (pitch_range cfg))
                  (max_octave (pitch_range cfg) + 1)).

(** [_add_note_tokens]: the three nested loops thread the vocabulary
    and [note_count]. *)
Definition _add_note_tokens (cfg : Config) (vocab : list string) : list string :=
  let limit := default 2000 (max_vocab_size cfg) - 200 in
  fst
    (foldl (fun st pitch =>
       foldl (fun st duration =>
         foldl (fun (st : list string * Z) dynamic =>
                  let '(vocab, note_count) := st in
                  if note_count <? limit
                  then (vocab ++ ["NOTE_" +:+ pitch +:+ "_" +:+ duration
                                    +:+ "_" +:+ dynamic],
                        note_count + 1)
                  else st)
               st (dynamics cfg))
         st (durations cfg))
       (vocab, 0) (_get_pitch_names cfg)).

(** [_add_rest_tokens]. *)
Definition _add_rest_tokens (cfg : Config) (vocab : list string) : list string :=
  foldl (fun vocab duration =>
           let safe_duration := Py.replace "." "_" duration in
           vocab ++ ["REST_" +:+ safe_duration])
        vocab (durations cfg).

(** [_add_pattern_tokens]. *)
Definition _add_pattern_tokens (cfg : Config) (vocab : list string) : list string :=
  foldl (fun vocab (item : string * list string) =>
           foldl (fun vocab pattern => vocab ++ ["PATTERN_" +:+ Py.upper pattern])
                 vocab (snd item))
        vocab (default [] (patterns cfg)).

Definition control_tokens : list string :=
  ["TEMPO_SLOW"; "TEMPO_MEDIUM"; "TEMPO_FAST"; "TEMPO_VERY_FAST";
   "KEY_C_MAJOR"; "KEY_G_MAJOR"; "KEY_D_MAJOR"; "KEY_A_MAJOR";
   "KEY_F_MAJOR"; "KEY_BB_MAJOR"; "KEY_A_MINOR"; "KEY_E_MINOR";
   "TIME_4_4"; "TIME_3_4"; "TIME_2_4"; "TIME_6_8";
   "STYLE_LEGATO"; "STYLE_STACCATO"; "STYLE_MARCATO";
   "ACCENT"; "TENUTO"; "SLUR_START"; "SLUR_END"]%string.

(** [_add_control_tokens]. *)
Definition _add_control_tokens (vocab : list string) : list string :=
  vocab ++ control_tokens.

(** [enumerate(l)]. *)
Definition enumerate {A} (l : list A) : list (Z * A) :=
  imap (fun i x => (Z.of_nat i, x)) l.

(** [{token: idx for idx, token in enumerate(vocab)}]: insertions in
    order, a later index replacing an earlier one of the same token. *)
Definition build_token_to_id (vocab : list string) : gmap string Z :=
  foldl (fun (m : gmap string Z) (e : Z * string) => <[snd e := fst e]> m)
        ∅ (enumerate vocab).

(** [{idx: token for token, idx in token_to_id.items()}]. *)
Definition build_id_to_token (token_to_id : gmap string Z) : gmap Z string :=
  list_to_map ((fun e : string * Z => (snd e, fst e)) <$> map_to_list token_to_id).

(** The object after [__init__]. *)
Record SMTVocabulary := mkVocabulary {
  config : Config;
  vocab : list string;
  token_to_id : gmap string Z;
  id_to_token : gmap Z string
}.

(** The token list [_build_vocabulary] assembles, family by family. *)
Definition build_vocab_list (cfg : Config) : list string :=
  _add_control_tokens
    (_add_pattern_tokens cfg
      (_add_rest_tokens cfg
        (_add_note_tokens cfg
          (_add_structural_tokens
            (_add_special_tokens []))))).

(** [_build_vocabulary] followed by [_build_mappings]. *)
Definition _build_vocabulary (cfg : Config) : SMTVocabulary :=
  let v := build_vocab_list cfg in
  let t2i := build_token_to_id v in
  {| config := cfg; vocab := v;
     token_to_id := t2i; id_to_token := build_id_to_token t2i |}.

(** [SMTVocabulary(config)]: [config or self._default_config()]. *)
Definition new (cfg : option Config) : SMTVocabulary :=
  _build_vocabulary (default _default_config cfg).

(** [size]. *)
Definition size (v : SMTVocabulary) : Z := Py.len (vocab v).

(** [encode_token]: [token_to_id.get(token, token_to_id["[UNK]"])].
    The default is evaluated first; [None] is its [KeyError]. *)
Definition encode_token (v : SMTVocabulary) (token : string) : option Z :=
  unk ← token_to_id v !! "[UNK]"%string;
  Some (default unk (token_to_id v !! token)).

(** [decode_token]: [id_to_token.get(token_id, "[UNK]")]. *)
Definition decode_token (v : SMTVocabulary) (token_id : Z) : string :=
  default "[UNK]"%string (id_to_token v !! token_id).

(** [encode_tokens] and [decode_tokens]. *)
Definition encode_tokens (v : SMTVocabulary) (tokens : list string)
  : option (list Z) :=
  mapM (encode_token v) tokens.

Definition decode_tokens (v : SMTVocabulary) (token_ids : list Z) : list string :=
  map (decode_token v) token_ids.

(** [get_special_tokens]: the special tokens present in [token_to_id],
    with their ids. *)
Definition get_special_tokens (v : SMTVocabulary) : gmap string Z :=
  foldl (fun (m : gmap string Z) (token : string) =>
           match token_to_id v !! token with
           | Some i => <[token := i]> m
           | None => m
           end)
        ∅ ["[PAD]"; "[BOS]"; "[EOS]"; "[MASK]"; "[UNK]"; "[SEP]"]%string.

End Vocabulary.

(** ** [smt/core/tokenizer.py] *)

Module Tokenizer.
Import MidiUtils.

(** [midi_config]. *)
Record MidiConfig := mkMidiConfig {
  cfg_quantization_grid : Z;
  min_rest_duration : Q;
  max_bars : Z;
  beats_per_bar : Q
}.

Definition default_midi_config : MidiConfig :=
  {| cfg_quantization_grid := 16; min_rest_duration := 0.25;
     max_bars := 32; beats_per_bar := 4.0 |}.

(** [SmartMelodyTokenizer]: the vocabulary and the MIDI configuration. *)
Record SmartMelodyTokenizer := mkTokenizer {
  vocabulary : Vocabulary.SMTVocabulary;
  midi_config : MidiConfig
}.

(** [SmartMelodyTokenizer(vocab_config, midi_config)]. *)
Definition new (vocab_config : option Vocabulary.Config)
               (midi_cfg : option MidiConfig) : SmartMelodyTokenizer :=
  {| vocabulary := Vocabulary.new vocab_config;
     midi_config := default default_midi_config midi_cfg |}.

(** [_create_note_token]. *)
Definition _create_note_token (note : SMTNote) : string :=
  "NOTE_" +:+ pitch_name note +:+ "_" +:+ duration_name note
          +:+ "_" +:+ dynamic_name note.

(** [_create_rest_token]. *)
Definition _create_rest_token (duration_beats : Q) : string :=
  "REST_" +:+ _beats_to_duration_name duration_beats.

Definition duration_beats_map : list (string * Q) :=
  [("sixteenth", 0.25); ("dotted_sixteenth", 0.375); ("eighth", 0.5);
   ("dotted_eighth", 0.75); ("quarter", 1.0); ("dotted_quarter", 1.5);
   ("half", 2.0); ("dotted_half", 3.0); ("whole", 4.0)]%string%Q.

(** [_duration_name_to_beats]: [duration_map.get(duration_name, 1.0)]. *)
Definition _duration_name_to_beats (duration_name : string) : Q :=
  default 1.0%Q (Py.assoc duration_name duration_beats_map).

(** [_parse_duration_from_token]. *)
Definition _parse_duration_from_token (token : string) : Q :=
  let parts := Py.split "_" token in
  if 2 <=? Py.len parts
  then _duration_name_to_beats (Py.join "_" (tail parts))
  else 0.25%Q.

(** [_parse_note_token]; an exception inside the [try] is caught and
    gives [None] as well. *)
Definition _parse_note_token (token : string) (start : Q) : option SMTNote :=
  match Py.split "_" token with
  | [p0; p1; p2; p3] =>
      if negb (String.eqb p0 "NOTE") then None
      else
        let pitch_name := p1 in
        let duration_name := p2 in
        let dynamic_name := p3 in
        match _pitch_name_to_midi pitch_name with
        | None => None
        | Some pitch =>
            let velocity := _dynamic_to_velocity dynamic_name in
            let duration_beats := _duration_name_to_beats duration_name in
            Some {| pitch := pitch;
                    start_time := start;
                    end_time := (start + duration_beats)%Q;
                    velocity := velocity;
                    pitch_name := pitch_name;
                    duration_name := duration_name;
                    dynamic_name := dynamic_name |}
        end
  | _ => None
  end.

(** *** Encoding *)

(** The [while] loop that emits [BAR] markers.  The state is the token
    list and [current_bar_start]; [None] means the fuel ran out. *)
Fixpoint bar_loop (fuel : nat) (bpb start : Q) (st : list string * Q)
  : option (list string * Q) :=
  if Py.Qleb (snd st + bpb) start then
    match fuel with
    | O => None
    | S fuel' => bar_loop fuel' bpb start (fst st ++ ["BAR"%string], (snd st + bpb)%Q)
    end
  else Some st.

(** Iterations the loop needs when [beats_per_bar] is positive; with a
    non-positive [beats_per_bar] the Python loop never ends once
    entered, and no fuel is given. *)
Definition bar_fuel (bpb start current_bar_start : Q) : nat :=
  if Py.Qltb 0 bpb
  then Z.to_nat (Qfloor ((start - current_bar_start) / bpb))
  else O.

(** The state of the loop of [_notes_to_tokens]. *)
Record EncState := mkEncState {
  enc_tokens : list string;
  enc_current_time : Q;
  enc_current_bar_start : Q
}.

(** One iteration of the [for] loop of [_notes_to_tokens]. *)
Definition encode_step (cfg : MidiConfig) (st : EncState) (note : SMTNote)
  : option EncState :=
  let bpb := beats_per_bar cfg in
  '(tokens, bar_start) ←
    bar_loop (bar_fuel bpb (start_time note) (enc_current_bar_start st))
             bpb (start_time note)
             (enc_tokens st, enc_current_bar_start st);
  let tokens :=
    if Py.Qltb (enc_current_time st + 0.1) (start_time note)
    then
      let rest_duration := (start_time note - enc_current_time st)%Q in
      tokens ++ [_create_rest_token rest_duration]
    else tokens in
  let tokens := tokens ++ [_create_note_token note] in
  Some {| enc_tokens := tokens;
          enc_current_time := end_time note;
          enc_current_bar_start := bar_start |}.

Fixpoint encode_loop (cfg : MidiConfig) (st : EncState) (notes : list SMTNote)
  : option EncState :=
  match notes with
  | [] => Some st
  | note :: rest => st' ← encode_step cfg st note; encode_loop cfg st' rest
  end.

(** [_notes_to_tokens]; [None] when a [BAR] loop does not terminate. *)
Definition _notes_to_tokens (cfg : MidiConfig) (notes : list SMTNote)
  : option (list string) :=
  st ← encode_loop cfg
        {| enc_tokens := ["[BOS]"%string];
           enc_current_time := 0.0;
           enc_current_bar_start := 0.0 |} notes;
  Some (enc_tokens st ++ ["[EOS]"%string]).

(** *** Decoding *)

Record DecState := mkDecState {
  dec_notes : list SMTNote;
  dec_current_time : Q;
  dec_current_bar : Z
}.

(** One iteration of the [for] loop of [_tokens_to_notes]. *)
Definition decode_step (cfg : MidiConfig) (st : DecState) (token : string)
  : DecState :=
  if bool_decide (token ∈ ["[BOS]"; "[EOS]"; "[PAD]"]%string) then st
  else if String.eqb token "BAR" then
    let current_bar := dec_current_bar st + 1 in
    {| dec_notes := dec_notes st;
       dec_current_time := (inject_Z current_bar * beats_per_bar cfg)%Q;
       dec_current_bar := current_bar |}
  else if Py.startswith "REST_" token then
    let duration := _parse_duration_from_token token in
    {| dec_notes := dec_notes st;
       dec_current_time := (dec_current_time st + duration)%Q;
       dec_current_bar := dec_current_bar st |}
  else if Py.startswith "NOTE_" token then
    match _parse_note_token token (dec_current_time st) with
    | Some note =>
        {| dec_notes := dec_notes st ++ [note];
           dec_current_time := end_time note;
           dec_current_bar := dec_current_bar st |}
    | None => st
    end
  else if Py.startswith "PATTERN_" token then st
  else st.

Definition dec_init : DecState :=
  {| dec_notes := []; dec_current_time := 0.0; dec_current_bar := 0 |}.

(** [_tokens_to_notes]. *)
Definition _tokens_to_notes (cfg : MidiConfig) (tokens : list string)
  : list SMTNote :=
  dec_notes (foldl (decode_step cfg) dec_init tokens).

(** [decode_tokens]: token strings, or ids mapped through the
    vocabulary first.  Writing the MIDI file is outside the model. *)
Inductive TokenInput :=
| Strings (tokens : list string)
| Ids (token_ids : list Z).

Definition decode_tokens (t : SmartMelodyTokenizer) (tokens : TokenInput)
  : list SMTNote :=
  let token_strings :=
    match tokens with
    | Strings l => l
    | Ids l => Vocabulary.decode_tokens (vocabulary t) l
    end in
  _tokens_to_notes (midi_config t) token_strings.

(** *** [encode_notes] *)

(** Values stored in the [metadata] dictionary. *)
Inductive MetaValue :=
| MInt (z : Z)
| MFloat (q : Q)
| MStr (s : string)
| MRange (lo hi : Z)
| MNone.

Record EncodeResult := mkEncodeResult {
  tokens : list string;
  token_ids : list Z;
  metadata : list (string * MetaValue);
  notes : list SMTNote
}.

(** [min(...)] and [max(...)] over the pitches of a non-empty list. *)
Definition min_pitch (n : SMTNote) (ns : list SMTNote) : Z :=
  foldl (fun m x => if pitch x <? m then pitch x else m) (pitch n) ns.
Definition max_pitch (n : SMTNote) (ns : list SMTNote) : Z :=
  foldl (fun m x => if m <? pitch x then pitch x else m) (pitch n) ns.

(** [encode_notes]; [None] when a step raises or does not return. *)
Definition encode_notes (t : SmartMelodyTokenizer) (ns : list SMTNote)
                        (source_info : string) : option EncodeResult :=
  match ns with
  | [] =>
      bos ← Vocabulary.encode_token (vocabulary t) "[BOS]";
      eos ← Vocabulary.encode_token (vocabulary t) "[EOS]";
      Some {| tokens := ["[BOS]"; "[EOS]"]%string;
              token_ids := [bos; eos];
              metadata := [("num_notes"%string, MInt 0);
                           ("duration"%string, MFloat 0.0)];
              notes := [] |}
  | n :: rest =>
      quantized_notes ←
        quantize_notes ns (Some (cfg_quantization_grid (midi_config t)));
      toks ← _notes_to_tokens (midi_config t) quantized_notes;
      ids ← Vocabulary.encode_tokens (vocabulary t) toks;
      let meta :=
        [("num_notes", MInt (Py.len ns));
         ("duration", MFloat (end_time (List.last ns n)));
         ("num_tokens", MInt (Py.len toks));
         ("compression_ratio",
           if bool_decide (toks = []) then MInt 0
           else MFloat (inject_Z (Py.len ns) / inject_Z (Py.len toks)));
         ("source", MStr source_info);
         ("pitch_range", MRange (min_pitch n rest) (max_pitch n rest))]%string in
      Some {| tokens := toks; token_ids := ids;
              metadata := meta; notes := quantized_notes |}
  end.

End Tokenizer.

(** ** [smt/patterns/detector.py] *)

Module Detector.
Import MidiUtils.

(** [@dataclass MusicalPattern]. *)
Record MusicalPattern := mkPattern {
  pattern_type : string;
  start_index : Z;
  end_index : Z;
  confidence : Q;
  description : string;
  notes : list SMTNote
}.

(** The configuration dictionary; every key is read with
    [config.get(key, default)]. *)
Record Config := mkConfig {
  min_pattern_length : option Z;
  max_pattern_length : option Z;
  scale_tolerance : option Z;
  arpeggio_tolerance : option Z;
  sequence_min_repetitions : option Z;
  confidence_threshold : option Q
}.

(** [PatternDetector._default_config]. *)
Definition _default_config : Config :=
  {| min_pattern_length := Some 3;
     max_pattern_length := Some 8;
     scale_tolerance := Some 1;
     arpeggio_tolerance := Some 2;
     sequence_min_repetitions := Some 2;
     confidence_threshold := Some 0.7%Q |}.

(** [l[i]] for [0 <= i]; [None] is [IndexError]. *)
Definition item {A} (l : list A) (i : Z) : option A :=
  if i <? 0 then l !! Z.to_nat (i + Py.len l) else l !! Z.to_nat i.

(** [[p[i+1] - p[i] for i in range(len(p) - 1)]]. *)
Fixpoint intervals_of (pitches : list Z) : list Z :=
  match pitches with
  | a :: (b :: _) as rest => (b - a) :: intervals_of rest
  | _ => []
  end.

(** [sum(1 for interval in intervals if P(interval))]. *)
Definition count_if (P : Z -> bool) (l : list Z) : Z :=
  Py.len (filter (fun x => P x = true) l).

(** [np.mean(intervals)]. *)
Definition mean (l : list Z) : Q :=
  (inject_Z (foldr Z.add 0%Z l) / inject_Z (Py.len l))%Q.

(** [_analyze_scale_pattern]. *)
Definition _analyze_scale_pattern (segment : list SMTNote) (start_idx : Z)
  : option MusicalPattern :=
  if Py.len segment <? 3 then None
  else
    let pitches := map pitch segment in
    let intervals := intervals_of pitches in
    let stepwise_count := count_if (fun iv => Z.abs iv <=? 2) intervals in
    let stepwise_ratio := (inject_Z stepwise_count / inject_Z (Py.len intervals))%Q in
    if Py.Qleb 0.8 stepwise_ratio then
      let direction := if Py.Qltb 0 (mean intervals) then "up" else "down" in
      let confidence :=
        (stepwise_ratio * 0.8 + (if 5 <=? Py.len segment then 0.2 else 0))%Q in
      Some {| pattern_type := "scale_" +:+ direction;
              start_index := start_idx;
              end_index := start_idx + Py.len segment - 1;
              confidence := confidence;
              description := "Scale passage (" +:+ direction +:+ ") with "
                               +:+ pretty (Py.len segment) +:+ " notes";
              notes := segment |}
    else None.

(** [_classify_chord_type]. *)
Definition _classify_chord_type (pitches : list Z) : string :=
  match pitches with
  | p0 :: _ =>
      if Py.len pitches <? 3 then "unknown"
      else
        let normalized : gset Z :=
          list_to_set (map (fun p => (p - p0) mod 12) pitches) in
        if bool_decide (({[0; 4; 7]} : gset Z) ⊆ normalized) then "major"
        else if bool_decide (({[0; 3; 7]} : gset Z) ⊆ normalized) then "minor"
        else if bool_decide (({[0; 3; 6]} : gset Z) ⊆ normalized) then "diminished"
        else if bool_decide (({[0; 4; 8]} : gset Z) ⊆ normalized) then "augmented"
        else "unknown"
  | [] => "unknown"
  end.

(** [_analyze_arpeggio_pattern]. *)
Definition _analyze_arpeggio_pattern (segment : list SMTNote) (start_idx : Z)
  : option MusicalPattern :=
  if Py.len segment <? 3 then None
  else
    let pitches := map pitch segment in
    let intervals := intervals_of pitches in
    let chord_intervals :=
      count_if (fun iv => (3 <=? Z.abs iv) && (Z.abs iv <=? 5)) intervals in
    let chord_ratio := (inject_Z chord_intervals / inject_Z (Py.len intervals))%Q in
    if Py.Qleb 0.6 chord_ratio then
      let chord_type := _classify_chord_type pitches in
      let direction := if Py.Qltb 0 (mean intervals) then "up" else "down" in
      let confidence :=
        (chord_ratio * 0.7 + (if 4 <=? Py.len segment then 0.3 else 0))%Q in
      Some {| pattern_type := "arpeggio_" +:+ chord_type;
              start_index := start_idx;
              end_index := start_idx + Py.len segment - 1;
              confidence := confidence;
              description := "Arpeggio (" +:+ chord_type +:+ ", " +:+ direction
                               +:+ ") with " +:+ pretty (Py.len segment) +:+ " notes";
              notes := segment |}
    else None.

(** The inner [for length in range(...)] loop shared by
    [_detect_scales] and [_detect_arpeggios], with its [break]. *)
Fixpoint window_loop (analyze : list SMTNote -> Z -> option MusicalPattern)
         (ns : list SMTNote) (start : Z) (lengths : list Z)
  : list MusicalPattern :=
  match lengths with
  | [] => []
  | length :: rest =>
      if Py.len ns <? start + length then []
      else
        let segment := Py.slice ns start (start + length) in
        let found :=
          match analyze segment start with
          | Some pattern =>
              if Py.Qleb 0.6 (confidence pattern) then [pattern] else []
          | None => []
          end in
        found ++ window_loop analyze ns start rest
  end.

(** [_detect_scales]. *)
Definition _detect_scales (cfg : Config) (ns : list SMTNote)
  : list MusicalPattern :=
  let min_length := default 3 (min_pattern_length cfg) in
  let max_length := Z.min (default 8 (max_pattern_length cfg)) (Py.len ns) in
  concat (map (fun start =>
                 window_loop _analyze_scale_pattern ns start
                             (Py.range min_length (max_length + 1)))
              (Py.range 0 (Py.len ns - min_length + 1))).

(** [_detect_arpeggios]. *)
Definition _detect_arpeggios (cfg : Config) (ns : list SMTNote)
  : list MusicalPattern :=
  let min_length := Z.max 3 (default 3 (min_pattern_length cfg)) in
  let max_length := Z.min (default 8 (max_pattern_length cfg)) (Py.len ns) in
  concat (map (fun start =>
                 window_loop _analyze_arpeggio_pattern ns start
                             (Py.range min_length (max_length + 1)))
              (Py.range 0 (Py.len ns - min_length + 1))).

(** The [while] loop of [_find_sequence_pattern] on the state
    [(repetitions, current_pos)]; [None] means the fuel ran out. *)
Fixpoint repetition_loop (fuel : nat) (ns : list SMTNote) (pattern_size : Z)
         (intervals1 : list Z) (repetitions current_pos : Z) : option (Z * Z) :=
  if current_pos + pattern_size <=? Py.len ns then
    let pattern_candidate := Py.slice ns current_pos (current_pos + pattern_size) in
    let intervals_candidate := intervals_of (map pitch pattern_candidate) in
    if bool_decide (intervals1 = intervals_candidate) then
      match fuel with
      | O => None
      | S fuel' =>
          repetition_loop fuel' ns pattern_size intervals1
                          (repetitions + 1) (current_pos + pattern_size)
      end
    else Some (repetitions, current_pos)
  else Some (repetitions, current_pos).

(** [_find_sequence_pattern].  The outer [option] is [None] when the
    [while] loop does not terminate (possible only for a
    [pattern_size] below 1); the inner one is the Python result. *)
Definition _find_sequence_pattern (cfg : Config) (ns : list SMTNote)
           (start pattern_size : Z) : option (option MusicalPattern) :=
  if Py.len ns <? start + pattern_size * 2 then Some None
  else
    let pattern1 := Py.slice ns start (start + pattern_size) in
    let intervals1 := intervals_of (map pitch pattern1) in
    '(repetitions, _) ←
      repetition_loop (length ns) ns pattern_size intervals1 1 (start + pattern_size);
    if default 2 (sequence_min_repetitions cfg) <=? repetitions then
      let end_idx := start + repetitions * pattern_size - 1 in
      let confidence :=
        Py.min2 0.9 (0.5 + inject_Z (repetitions - 2) * 0.15)%Q in
      Some (Some {| pattern_type := "sequence";
                    start_index := start;
                    end_index := end_idx;
                    confidence := confidence;
                    description := "Melodic sequence repeated "
                                     +:+ pretty repetitions +:+ " times";
                    notes := Py.slice ns start (end_idx + 1) |})
    else Some None.

(** [_detect_sequences]. *)
Definition _detect_sequences (cfg : Config) (ns : list SMTNote)
  : option (list MusicalPattern) :=
  let min_pattern_size := 2 in
  let max_pattern_size := 4 in
  found ← mapM (fun pattern_size =>
                  mapM (fun start => _find_sequence_pattern cfg ns start pattern_size)
                       (Py.range 0 (Py.len ns - pattern_size * 2)))
               (Py.range min_pattern_size (max_pattern_size + 1));
  Some (omap id (concat found)).

(** The body of the loop of [_detect_intervals]; [None] is an
    [IndexError]. *)
Definition leap_at (ns : list SMTNote) (i : Z) : option (list MusicalPattern) :=
  n0 ← item ns i;
  n1 ← item ns (i + 1);
  n2 ← item ns (i + 2);
  let interval1 := Z.abs (pitch n1 - pitch n0) in
  let interval2 := Z.abs (pitch n2 - pitch n1) in
  if (4 <? interval1) && (interval2 <=? 2) then
    let direction := if pitch n0 <? pitch n1 then "up" else "down" in
    Some [ {| pattern_type := "leap_" +:+ direction;
              start_index := i;
              end_index := i + 2;
              confidence := 0.7;
              description := "Leap " +:+ direction +:+ " followed by step";
              notes := Py.slice ns i (i + 3) |} ]
  else Some [].

(** [_detect_intervals]. *)
Definition _detect_intervals (ns : list SMTNote) : option (list MusicalPattern) :=
  if Py.len ns <? 3 then Some []
  else
    found ← mapM (leap_at ns) (Py.range 0 (Py.len ns - 2));
    Some (concat found).

(** [patterns.sort(key=lambda x: x.confidence, reverse=True)]: a
    stable sort, highest confidence first. *)
Fixpoint insert_desc (p : MusicalPattern) (l : list MusicalPattern)
  : list MusicalPattern :=
  match l with
  | [] => [p]
  | q :: rest =>
      if Py.Qltb (confidence p) (confidence q) then q :: insert_desc p rest
      else p :: q :: rest
  end.

Definition sort_desc (l : list MusicalPattern) : list MusicalPattern :=
  foldr insert_desc [] l.

(** [set(range(pattern.start_index, pattern.end_index + 1))]. *)
Definition pattern_indices (p : MusicalPattern) : gset Z :=
  list_to_set (Py.range (start_index p) (end_index p + 1)).

(** The [for] loop of [_resolve_overlaps] on the state
    [(resolved, used_indices)]. *)
Definition resolve_step (st : list MusicalPattern * gset Z) (p : MusicalPattern)
  : list MusicalPattern * gset Z :=
  let '(resolved, used_indices) := st in
  if bool_decide (pattern_indices p ∩ used_indices = ∅)
  then (resolved ++ [p], used_indices ∪ pattern_indices p)
  else st.

(** [_resolve_overlaps]. *)
Definition _resolve_overlaps (patterns : list MusicalPattern)
  : list MusicalPattern :=
  match patterns with
  | [] => patterns
  | _ => fst (foldl resolve_step ([], ∅) (sort_desc patterns))
  end.

(** [detect_patterns]. *)
Definition detect_patterns (cfg : Config) (ns : list SMTNote)
  : option (list MusicalPattern) :=
  if Py.len ns <? default 3 (min_pattern_length cfg) then Some []
  else
    sequences ← _detect_sequences cfg ns;
    leaps ← _detect_intervals ns;
    let patterns :=
      _detect_scales cfg ns ++ _detect_arpeggios cfg ns ++ sequences ++ leaps in
    let patterns :=
      filter (fun p =>
                Py.Qleb (default 0.7%Q (confidence_threshold cfg)) (confidence p) = true)
             patterns in
    Some (_resolve_overlaps patterns).

(** [get_pattern_tokens]. *)
Definition get_pattern_tokens (patterns : list MusicalPattern) : list string :=
  foldl (fun tokens pattern =>
           tokens ++ [("PATTERN_" +:+ Py.upper (pattern_type pattern))%string])
        [] patterns.

End Detector.

(** ** Binary64 arithmetic

    A Python [float] is an IEEE 754 binary64 number.  The finite ones
    are the rationals [m * 2^e] with [|m| < 2^53], [e >= -1074] and a
    magnitude below [2^1024]; an arithmetic operation returns the
    exact result rounded to the nearest such number, ties to the even
    mantissa, and an infinity when the rounded result reaches
    [2^1024]. *)

Module Binary64.

Definition pow2 (e : Z) : Q := (2 ^ e)%Q.

(** [floor(log2 |x|)] for [x <> 0]. *)
Definition ilog2 (x : Q) : Z :=
  let l := Z.log2 (Z.abs (Qnum x)) - Z.log2 (Z.pos (Qden x)) in
  if Qle_bool (pow2 l) (Qabs x) then l else l - 1.

Definition emin : Z := -1074.

(** The exponent of the unit in the last place of [x]. *)
Definition expo (x : Q) : Z := Z.max (ilog2 x - 52) emin.

(** Rounding to the nearest number of the format, ties to even, with
    no bound on the magnitude. *)
Definition rnd (x : Q) : Q :=
  if Qeq_bool x 0 then 0%Q
  else Qred (inject_Z (Py.round (x / pow2 (expo x))) * pow2 (expo x)).

(** The float an exact result becomes: [None] is an infinity. *)
Definition fl (x : Q) : option Q :=
  let r := rnd x in
  if Py.Qltb (Qabs r) (pow2 1024) then Some r else None.

(** The numbers of the format, whatever their magnitude: [m * 2^e]
    with [|m| < 2^53] and [e >= -1074]. *)
Definition representable (x : Q) : Prop :=
  exists m e : Z, (Z.abs m < 2 ^ 53)%Z /\ (emin <= e)%Z /\
                  (x == inject_Z m * pow2 e)%Q.


(** Half the relative spacing of the format, [2^-53], and half the
    least positive number, [2^-1075]. *)
Definition half_ulp : Q := 1 # 9007199254740992.
Definition tiny : Q := pow2 (-1075).

(** A magnitude far below the largest float. *)
Definition small (x : Q) : Prop := (Qabs x <= pow2 60)%Q.

(** The exceptions arithmetic raises. *)
Inductive exn := ZeroDivisionError | OverflowError.

(** What a call does: it returns a value, raises, or goes on with an
    infinity or a NaN among its floats, which the embedding does not
    follow. *)
Inductive outcome (A : Type) :=
| Returns (a : A)
| Raises (e : exn)
| NonFinite.
Arguments Returns {A} a.
Arguments Raises {A} e.
Arguments NonFinite {A}.

(** The outcomes of the iterations of a loop that builds a list: the
    first exception wins, also over an earlier infinity. *)
Fixpoint collect {A} (l : list (outcome A)) : outcome (list A) :=
  match l with
  | [] => Returns []
  | o :: rest =>
      match o, collect rest with
      | Raises e, _ => Raises e
      | _, Raises e => Raises e
      | Returns a, Returns r => Returns (a :: r)
      | _, _ => NonFinite
      end
  end.

End Binary64.

(** ** [smt/utils/midi_utils.py] in binary64 *)

Module MidiFloat.
Import MidiUtils Binary64.

(** [min(duration_map.keys(), key=lambda x: abs(x - duration_beats))].
    The differences are at most 4 away from a float, so they never
    round to an infinity. *)
Definition closest_duration (duration_beats : Q) : Q * string :=
  Py.min_by (fun e => Qabs (rnd (fst e - duration_beats)))
            (0.25%Q, "sixteenth"%string) (tail duration_map).

(** [MIDIProcessor._beats_to_duration_name]; [0.1] is the float
    nearest to one tenth. *)
Definition _beats_to_duration_name (duration_beats : Q) : string :=
  let closest := closest_duration duration_beats in
  if Py.Qltb (Qabs (rnd (duration_beats - fst closest))) (rnd 0.1)
  then snd closest
  else "quarter"%string.

(** The body of the loop of [quantize_notes].  [round] of an infinite
    quotient raises [OverflowError]; an infinite product or sum is
    stored in the note. *)
Definition quantize_note (beat_subdivision : Q) (note : SMTNote)
  : outcome SMTNote :=
  if Qeq_bool beat_subdivision 0 then Raises ZeroDivisionError else
  match fl (start_time note / beat_subdivision) with
  | None => Raises OverflowError
  | Some start_units =>
  match fl (inject_Z (Py.round start_units)) with
  | None => Raises OverflowError
  | Some start_count =>
  let quantized_start := fl (start_count * beat_subdivision) in
  match fl (end_time note - start_time note) with
  | None => Raises OverflowError
  | Some original_duration =>
  match fl (original_duration / beat_subdivision) with
  | None => Raises OverflowError
  | Some duration_units =>
  match fl (inject_Z (Py.round duration_units)) with
  | None => Raises OverflowError
  | Some duration_count =>
  match quantized_start, fl (duration_count * beat_subdivision) with
  | Some quantized_start, Some rounded_duration =>
      let quantized_duration := Py.max2 rounded_duration beat_subdivision in
      match fl (quantized_start + quantized_duration) with
      | Some quantized_end =>
          Returns {| pitch := pitch note;
                     start_time := quantized_start;
                     end_time := quantized_end;
                     velocity := velocity note;
                     pitch_name := pitch_name note;
                     duration_name := _beats_to_duration_name quantized_duration;
                     dynamic_name := dynamic_name note |}
      | None => NonFinite
      end
  | _, _ => NonFinite
  end end end end end end.

(** [beat_subdivision = 1.0 / (grid / 4)] for a Python [int] grid:
    [grid / 4] is the correctly rounded quotient of two integers and
    raises [OverflowError] when it is too large for a float. *)
Definition beat_subdivision (grid : Z) : outcome Q :=
  match fl (inject_Z grid / 4) with
  | None => Raises OverflowError
  | Some per_beat =>
      if Qeq_bool per_beat 0 then Raises ZeroDivisionError
      else match fl (1 / per_beat) with
           | Some b => Returns b
           | None => NonFinite
           end
  end.

(** [MIDIProcessor.quantize_notes]. *)
Definition quantize_notes (notes : list SMTNote) (grid : option Z)
  : outcome (list SMTNote) :=
  let grid := default quantization_grid grid in
  match beat_subdivision grid with
  | Returns b => collect (map (quantize_note b) notes)
  | Raises e => Raises e
  | NonFinite => NonFinite
  end.

(** The parts of a quantized note, as [quantize_note] computes them
    when no intermediate result is infinite. *)
Definition start_count (b s : Q) : Q := rnd (inject_Z (Py.round (rnd (s / b)))).
Definition grid_start (b s : Q) : Q := rnd (start_count b s * b).
Definition duration_count (b s e : Q) : Q :=
  rnd (inject_Z (Py.round (rnd (rnd (e - s) / b)))).
Definition grid_duration (b s e : Q) : Q :=
  Py.max2 (rnd (duration_count b s e * b)) b.
Definition quantized (b : Q) (note : SMTNote) : SMTNote :=
  let s := start_time note in
  let e := end_time note in
  {| pitch := pitch note;
     start_time := grid_start b s;
     end_time := rnd (grid_start b s + grid_duration b s e);
     velocity := velocity note;
     pitch_name := pitch_name note;
     duration_name := _beats_to_duration_name (grid_duration b s e);
     dynamic_name := dynamic_name note |}.

End MidiFloat.

(** ** [smt/core/tokenizer.py] in binary64 *)

Module TokenizerFloat.
Import MidiUtils Binary64 Tokenizer.

(** [_parse_note_token] with the float sum
    [start_time + duration_beats]; a [start_time] of [None] is an
    infinity, and [Returns None] is the Python [None].  The names and
    tables involve no arithmetic and are those of the exact
    embedding. *)
Definition _parse_note_token (token : string) (start : option Q)
  : outcome (option SMTNote) :=
  match Py.split "_" token with
  | [p0; p1; p2; p3] =>
      if negb (String.eqb p0 "NOTE") then Returns None
      else
        let pitch_name := p1 in
        let duration_name := p2 in
        let dynamic_name := p3 in
        match _pitch_name_to_midi pitch_name with
        | None => Returns None
        | Some pitch =>
            let velocity := _dynamic_to_velocity dynamic_name in
            let duration_beats := _duration_name_to_beats duration_name in
            match start with
            | Some start_time =>
                match fl (start_time + duration_beats) with
                | Some end_time =>
                    Returns (Some {| pitch := pitch;
                                     start_time := start_time;
                                     end_time := end_time;
                                     velocity := velocity;
                                     pitch_name := pitch_name;
                                     duration_name := duration_name;
                                     dynamic_name := dynamic_name |})
                | None => NonFinite
                end
            | None => NonFinite
            end
        end
  | _ => Returns None
  end.

(** The state of the loop of [_tokens_to_notes]; a [current_time] of
    [None] is an infinity, and [dec_finite] tells that no note with an
    infinite time was appended. *)
Record DecState := mkDecState {
  dec_notes : list SMTNote;
  dec_current_time : option Q;
  dec_current_bar : Z;
  dec_finite : bool
}.

(** One iteration of the [for] loop of [_tokens_to_notes]; the only
    exception is the [OverflowError] of [current_bar * beats_per_bar]
    for a bar count too large for a float. *)
Definition decode_step (cfg : MidiConfig) (st : DecState) (token : string)
  : exn + DecState :=
  if bool_decide (token ∈ ["[BOS]"; "[EOS]"; "[PAD]"]%string) then inr st
  else if String.eqb token "BAR" then
    let current_bar := dec_current_bar st + 1 in
    match fl (inject_Z current_bar) with
    | None => inl OverflowError
    | Some bar =>
        inr {| dec_notes := dec_notes st;
               dec_current_time := fl (bar * beats_per_bar cfg);
               dec_current_bar := current_bar;
               dec_finite := dec_finite st |}
    end
  else if Py.startswith "REST_" token then
    let duration := _parse_duration_from_token token in
    inr {| dec_notes := dec_notes st;
           dec_current_time :=
             match dec_current_time st with
             | Some t => fl (t + duration)
             | None => None
             end;
           dec_current_bar := dec_current_bar st;
           dec_finite := dec_finite st |}
  else if Py.startswith "NOTE_" token then
    match _parse_note_token token (dec_current_time st) with
    | Returns (Some note) =>
        inr {| dec_notes := dec_notes st ++ [note];
               dec_current_time := Some (end_time note);
               dec_current_bar := dec_current_bar st;
               dec_finite := dec_finite st |}
    | Returns None => inr st
    | _ =>
        inr {| dec_notes := dec_notes st;
               dec_current_time := None;
               dec_current_bar := dec_current_bar st;
               dec_finite := false |}
    end
  else if Py.startswith "PATTERN_" token then inr st
  else inr st.

Fixpoint decode_loop (cfg : MidiConfig) (st : DecState) (tokens : list string)
  : exn + DecState :=
  match tokens with
  | [] => inr st
  | token :: rest =>
      match decode_step cfg st token with
      | inl e => inl e
      | inr st' => decode_loop cfg st' rest
      end
  end.

Definition dec_init : DecState :=
  {| dec_notes := []; dec_current_time := Some 0%Q; dec_current_bar := 0;
     dec_finite := true |}.

(** [_tokens_to_notes]. *)
Definition _tokens_to_notes (cfg : MidiConfig) (tokens : list string)
  : outcome (list SMTNote) :=
  match decode_loop cfg dec_init tokens with
  | inl e => Raises e
  | inr st => if dec_finite st then Returns (dec_notes st) else NonFinite
  end.


End TokenizerFloat.

(** ** Specification-level vocabulary *)

Module Spec.
Import MidiUtils.

(** Two notes with the same fields, the real-valued ones compared as
    numbers. *)
Definition note_equiv (a b : SMTNote) : Prop :=
  pitch a = pitch b /\
  (start_time a == start_time b)%Q /\
  (end_time a == end_time b)%Q /\
  velocity a = velocity b /\
  pitch_name a = pitch_name b /\
  duration_name a = duration_name b /\
  dynamic_name a = dynamic_name b.


(** [name] is the duration name the rest token of a gap carries: the
    name of a nearest entry of the duration table when that entry is
    within the 0.1-beat tolerance, and [fallback] when no entry is. *)
Definition rest_name_for (fallback : string) (gap : Q) (name : string) : Prop :=
  (exists d, (d, name) ∈ duration_map /\
             (Qabs (gap - d) < 0.1)%Q /\
             forall d' n', (d', n') ∈ duration_map ->
                           (Qabs (gap - d) <= Qabs (gap - d'))%Q)
  \/ ((forall d' n', (d', n') ∈ duration_map -> ~ (Qabs (gap - d') < 0.1)%Q)
      /\ name = fallback).

(** What the round-trip property compares: the pitch and its name. *)
Definition pitch_key (n : SMTNote) : Z * string := (pitch n, pitch_name n).

(** Notes whose token has exactly four underscore-separated fields and
    a pitch name the decoder reads back: the pitch is in the octaves 0
    to 9, its name is the one computed from the number, and neither the
    duration name nor the dynamic name contains an underscore. *)
Definition plain_names (n : SMTNote) : Prop :=
  12 <= pitch n <= 127 /\
  pitch_name n = _midi_to_pitch_name (pitch n) /\
  Py.contains "_" (duration_name n) = false /\
  Py.contains "_" (dynamic_name n) = false.

(** An executable test that the name of pitch [p] has no underscore and
    is read back as [p]. *)
Definition pitch_name_round_trips (p : Z) : bool :=
  negb (Py.contains "_" (_midi_to_pitch_name p)) &&
  match _pitch_name_to_midi (_midi_to_pitch_name p) with
  | Some q => q =? p
  | None => false
  end.

(** An executable test that a token list has no repeated token. *)
Fixpoint memb (x : string) (l : list string) : bool :=
  match l with
  | [] => false
  | y :: rest => String.eqb x y || memb x rest
  end.

Fixpoint nodupb (l : list string) : bool :=
  match l with
  | [] => true
  | x :: rest => negb (memb x rest) && nodupb rest
  end.

(** The interval profile of the [k]-th block of [ps] notes counted from
    index [start]. *)
Definition block_profile (ns : list SMTNote) (start ps k : Z) : list Z :=
  Detector.intervals_of
    (map pitch (Py.slice ns (start + k * ps) (start + k * ps + ps))).

(** From [start], exactly [r] consecutive blocks of [ps] notes lie in
    the list and share the profile of the first one. *)
Definition repeats (ns : list SMTNote) (start ps r : Z) : Prop :=
  start + r * ps <= Py.len ns /\
  (forall k, 0 <= k < r -> block_profile ns start ps k = block_profile ns start ps 0) /\
  (start + r * ps + ps <= Py.len ns ->
   block_profile ns start ps r <> block_profile ns start ps 0).

(** The pattern sequence detection is to emit for [r] repetitions. *)
Definition sequence_pattern (ns : list SMTNote) (start ps r : Z)
  : Detector.MusicalPattern :=
  {| Detector.pattern_type := "sequence";
     Detector.start_index := start;
     Detector.end_index := start + r * ps - 1;
     Detector.confidence := Py.min2 0.9 (0.5 + inject_Z (r - 2) * 0.15)%Q;
     Detector.description :=
       "Melodic sequence repeated " +:+ pretty r +:+ " times";
     Detector.notes := Py.slice ns start (start + r * ps - 1 + 1) |}.

(** Note index [k] lies in the inclusive range of pattern [p]. *)
Definition covers (p : Detector.MusicalPattern) (k : Z) : Prop :=
  Detector.start_index p <= k <= Detector.end_index p.

(** No note index is shared by two patterns at different positions of
    the list. *)
Definition pairwise_disjoint (l : list Detector.MusicalPattern) : Prop :=
  forall i j p q k,
    i <> j -> l !! i = Some p -> l !! j = Some q ->
    ~ (covers p k /\ covers q k).

(** The invariant of the loop of [_resolve_overlaps]: every index of an
    accepted pattern is recorded as used, and accepted patterns are
    pairwise disjoint. *)
Definition resolve_inv (st : list Detector.MusicalPattern * gset Z) : Prop :=
  (forall p k, p ∈ fst st -> covers p k -> k ∈ snd st) /\
  pairwise_disjoint (fst st).

(** [v'] is [v] followed by tokens that all satisfy [P]. *)
Definition extends (P : string -> Prop) (v v' : list string) : Prop :=
  exists ext, v' = v ++ ext /\ Forall P ext.

(** Tokens of the generated families never start with a bracket. *)
Definition unbracketed (t : string) : Prop := Py.startswith "[" t = false.

(** *** The token families of a vocabulary configuration *)

(** The pitch names of the configured octaves, octave by octave. *)
Definition pitch_names_of (cfg : Vocabulary.Config) : list string :=
  let names :=
    if default true (Vocabulary.include_accidentals (Vocabulary.pitch_range cfg))
    then ["C"; "C#"; "D"; "D#"; "E"; "F"; "F#"; "G"; "G#"; "A"; "A#"; "B"]%string
    else ["C"; "D"; "E"; "F"; "G"; "A"; "B"]%string in
  flat_map (fun octave => map (fun note => (note +:+ pretty octave)%string) names)
           (Py.range (Vocabulary.min_octave (Vocabulary.pitch_range cfg))
                     (Vocabulary.max_octave (Vocabulary.pitch_range cfg) + 1)).

(** Every compound note token, pitch outermost, dynamic innermost. *)
Definition all_note_tokens (cfg : Vocabulary.Config) : list string :=
  flat_map (fun pitch =>
    flat_map (fun duration =>
      map (fun dynamic =>
             ("NOTE_" +:+ pitch +:+ "_" +:+ duration +:+ "_" +:+ dynamic)%string)
          (Vocabulary.dynamics cfg))
      (Vocabulary.durations cfg))
    (pitch_names_of cfg).

(** The number of note tokens the vocabulary keeps. *)
Definition note_token_budget (cfg : Vocabulary.Config) : nat :=
  Z.to_nat (default 2000 (Vocabulary.max_vocab_size cfg) - 200).

Definition rest_tokens (cfg : Vocabulary.Config) : list string :=
  map (fun duration => ("REST_" +:+ Py.replace "." "_" duration)%string)
      (Vocabulary.durations cfg).

Definition pattern_tokens (cfg : Vocabulary.Config) : list string :=
  flat_map (fun item : string * list string =>
              map (fun pattern => ("PATTERN_" +:+ Py.upper pattern)%string) (snd item))
           (default [] (Vocabulary.patterns cfg)).

(** The state [st'] of the note-token loop is [st] after the tokens
    [ts] were offered: they are appended until [note_count] reaches
    [limit]. *)
Definition offered (limit : Z) (st : list string * Z) (ts : list string)
           (st' : list string * Z) : Prop :=
  st' = (fst st ++ take (Z.to_nat (limit - snd st)) ts,
         snd st + Z.of_nat (length (take (Z.to_nat (limit - snd st)) ts))).

(** *** Transposition *)

(** A note moved by [k] semitones. *)
Definition transpose (k : Z) (n : SMTNote) : SMTNote :=
  {| pitch := pitch n + k;
     start_time := start_time n;
     end_time := end_time n;
     velocity := velocity n;
     pitch_name := pitch_name n;
     duration_name := duration_name n;
     dynamic_name := dynamic_name n |}.

(** The pattern [p] with [f] applied to the notes it carries. *)
Definition on_notes (f : SMTNote -> SMTNote) (p : Detector.MusicalPattern)
  : Detector.MusicalPattern :=
  {| Detector.pattern_type := Detector.pattern_type p;
     Detector.start_index := Detector.start_index p;
     Detector.end_index := Detector.end_index p;
     Detector.confidence := Detector.confidence p;
     Detector.description := Detector.description p;
     Detector.notes := map f (Detector.notes p) |}.

(** The ids the default vocabulary has for the tokens of detected
    pattern types. *)
Definition default_pattern_ids : list (string * Z) :=
  [("scale_up", 1821); ("scale_down", 1822);
   ("arpeggio_major", 1829); ("arpeggio_minor", 1830)]%string.

(** Two patterns with a note index in common. *)
Definition overlap (p q : Detector.MusicalPattern) : Prop :=
  exists k, covers p k /\ covers q k.

(** A pattern that lies inside a list of [n] notes and carries the
    notes of its range. *)
Definition well_placed (ns : list SMTNote) (p : Detector.MusicalPattern) : Prop :=
  0 <= Detector.start_index p /\
  Detector.start_index p <= Detector.end_index p /\
  Detector.end_index p < Py.len ns /\
  Detector.notes p
  = Py.slice ns (Detector.start_index p) (Detector.end_index p + 1).

(** The pattern types the detectors can produce. *)
Definition pattern_types : list string :=
  ["scale_up"; "scale_down";
   "arpeggio_major"; "arpeggio_minor"; "arpeggio_diminished";
   "arpeggio_augmented"; "arpeggio_unknown";
   "sequence"; "leap_up"; "leap_down"]%string.

(** A token that looks like a generated one: it carries the prefix of
    the note, rest or pattern family, or is a control token. *)
Definition generated_like (t : string) : bool :=
  Py.startswith "NOTE_" t || Py.startswith "REST_" t
  || Py.startswith "PATTERN_" t || memb t Vocabulary.control_tokens.

(** *** Token lists *)

(** The number of [BAR] tokens in a token list. *)
Definition bars (toks : list string) : nat :=
  length (filter (fun t => t = "BAR"%string) toks).

(** The tokens with the [NOTE_] prefix, in order. *)
Definition note_tokens_of (toks : list string) : list string :=
  filter (fun t => Py.startswith "NOTE_" t = true) toks.

(** The tokens the encoder can put between [[BOS]] and [[EOS]], which
    are also the only ones the decoder acts on. *)
Definition body_token (t : string) : Prop :=
  t = "BAR"%string \/ Py.startswith "REST_" t = true \/ Py.startswith "NOTE_" t = true.

(** The highest bar index the start times of the notes reach, from
    [k] on. *)
Definition last_bar (bpb : Q) (k : Z) (ns : list SMTNote) : Z :=
  foldl (fun m n => Z.max m (Qfloor (start_time n / bpb))) k ns.

(** *** Detected patterns *)

(** Highest confidence first. *)
Definition by_confidence (a b : Detector.MusicalPattern) : Prop :=
  (Detector.confidence b <= Detector.confidence a)%Q.

(** What every pattern of a detector satisfies on the note list [ns]. *)
Definition sound_pattern (ns : list SMTNote) (p : Detector.MusicalPattern) : Prop :=
  well_placed ns p /\
  (0 <= Detector.confidence p <= 1)%Q /\
  Detector.pattern_type p ∈ pattern_types.

(** What the two window analysers return. *)
Definition window_result (seg : list SMTNote) (start : Z) (p : Detector.MusicalPattern) : Prop :=
  Detector.start_index p = start /\
  Detector.end_index p = start + Py.len seg - 1 /\
  Detector.notes p = seg /\
  3 <= Py.len seg /\
  (0 <= Detector.confidence p <= 1)%Q /\
  Detector.pattern_type p ∈ pattern_types.

(** The invariant of the greedy loop of [_resolve_overlaps] after the
    patterns [seen] were processed: the used indices are those of the
    accepted patterns, accepted patterns were seen and are in descending
    confidence order, and every seen pattern is accepted or overlaps an
    accepted pattern of at least its confidence. *)
Definition greedy_inv (st : list Detector.MusicalPattern * gset Z)
           (seen : list Detector.MusicalPattern) : Prop :=
  (forall k, k ∈ snd st <-> exists q, q ∈ fst st /\ covers q k) /\
  (forall q, q ∈ fst st -> q ∈ seen) /\
  (forall x, x ∈ seen ->
             x ∈ fst st \/
             exists q, q ∈ fst st /\ overlap x q /\ by_confidence q x) /\
  StronglySorted by_confidence (fst st).

(** *** Notes in binary64 *)

(** Both times of a note lie within [B] beats of 0. *)
Definition times_within (B : Q) (n : SMTNote) : Prop :=
  (Qabs (start_time n) <= B /\ Qabs (end_time n) <= B)%Q.


(** Both times of a note are floats. *)
Definition float_times (n : SMTNote) : Prop :=
  Binary64.representable (start_time n) /\ Binary64.representable (end_time n).

(** What quantization keeps of a note. *)
Definition same_identity (n q : SMTNote) : Prop :=
  pitch q = pitch n /\ velocity q = velocity n /\
  pitch_name q = pitch_name n /\ dynamic_name q = dynamic_name n.

(** The note [q] lies on the grid of unit [b], within half a unit of
    where [n] starts, and lasts a whole number of units. *)
Definition on_grid (b : Q) (n q : SMTNote) : Prop :=
  exists k m : Z,
    1 <= m /\
    (start_time q == inject_Z k * b)%Q /\
    (end_time q - start_time q == inject_Z m * b)%Q /\
    (Qabs (start_time q - start_time n) <= b / 2)%Q.

End Spec.

(** * Properties *)

(** ** Floats as rationals: comparison and rounding *)

Module PyFacts.

Lemma Qltb_lt (x y : Q) : Py.Qltb x y = true <-> (x < y)%Q.
Proof.
  unfold Py.Qltb. rewrite negb_true_iff, <- not_true_iff_false, Qle_bool_iff.
  split; [apply Qnot_le_lt | apply Qlt_not_le].
Qed.

Lemma Qltb_ge (x y : Q) : Py.Qltb x y = false <-> (y <= x)%Q.
Proof.
  unfold Py.Qltb. rewrite negb_false_iff. apply Qle_bool_iff.
Qed.

Lemma Qleb_le (x y : Q) : Py.Qleb x y = true <-> (x <= y)%Q.
Proof. apply Qle_bool_iff. Qed.

Lemma Qleb_gt (x y : Q) : Py.Qleb x y = false <-> (y < x)%Q.
Proof.
  unfold Py.Qleb. rewrite <- not_true_iff_false, Qle_bool_iff.
  split; [apply Qnot_le_lt | apply Qlt_not_le].
Qed.

#[export] Instance Qltb_proper : Proper (Qeq ==> Qeq ==> eq) Py.Qltb.
Proof.
  intros x x' Hx y y' Hy.
  destruct (Py.Qltb x y) eqn:E, (Py.Qltb x' y') eqn:E'; try reflexivity.
  - apply Qltb_lt in E. apply Qltb_ge in E'. rewrite Hx, Hy in E. lra.
  - apply Qltb_lt in E'. apply Qltb_ge in E. rewrite Hx, Hy in E. lra.
Qed.

#[export] Instance round_proper : Proper (Qeq ==> eq) Py.round.
Proof.
  intros x y H. unfold Py.round.
  assert (Hf : Qfloor x = Qfloor y) by (now rewrite H).
  rewrite Hf.
  assert (Hr : (x - inject_Z (Qfloor y) == y - inject_Z (Qfloor y))%Q)
    by (now rewrite H).
  cbv zeta.
  rewrite (Qltb_proper _ _ Hr _ _ (Qeq_refl (1 # 2))).
  rewrite (Qltb_proper _ _ (Qeq_refl (1 # 2)) _ _ Hr).
  reflexivity.
Qed.

(** Rounding an integer gives it back. *)
Lemma round_inject_Z (k : Z) : Py.round (inject_Z k) = k.
Proof.
  unfold Py.round. rewrite Qfloor_Z.
  assert (Hr : (inject_Z k - inject_Z k == 0)%Q) by ring.
  rewrite Hr. reflexivity.
Qed.

(** [round(k * b / b) = k] for a non-zero [b]. *)
Lemma round_mult_div (k : Z) (b : Q) :
  ~ (b == 0)%Q -> Py.round (inject_Z k * b / b) = k.
Proof.
  intros Hb.
  assert (H : (inject_Z k * b / b == inject_Z k)%Q) by (field; exact Hb).
  rewrite H. apply round_inject_Z.
Qed.

#[export] Instance max2_proper : Proper (Qeq ==> Qeq ==> Qeq) Py.max2.
Proof.
  intros x x' Hx y y' Hy. unfold Py.max2.
  rewrite (Qltb_proper _ _ Hx _ _ Hy).
  now destruct (Py.Qltb x' y').
Qed.


(** [min(xs, key=f)] returns an element with the least key. *)
Lemma min_by_spec {A} (key : A -> Q) (xs : list A) (best : A) :
  let r := Py.min_by key best xs in
  (r = best \/ r ∈ xs) /\
  (key r <= key best)%Q /\
  (forall x, x ∈ xs -> (key r <= key x)%Q).
Proof.
  revert best. induction xs as [|x xs IH]; intros best; simpl.
  - split; [now left|]. split; [lra|]. intros x Hx. inversion Hx.
  - specialize (IH (if Py.Qltb (key x) (key best) then x else best)).
    simpl in IH. destruct IH as (Hin & Hle & Hall).
    destruct (Py.Qltb (key x) (key best)) eqn:E.
    + apply Qltb_lt in E. split; [|split].
      * destruct Hin as [->|Hin]; right; [left | now right].
      * lra.
      * intros y Hy. apply elem_of_cons in Hy as [->|Hy]; [exact Hle | now apply Hall].
    + apply Qltb_ge in E. split; [|split].
      * destruct Hin as [->|Hin]; [now left | right; now right].
      * exact Hle.
      * intros y Hy. apply elem_of_cons in Hy as [->|Hy]; [lra | now apply Hall].
Qed.

End PyFacts.

(** ** Binary64 arithmetic: rounding *)

Module Binary64Facts.
Import Binary64.
Local Open Scope Q_scope.

(** *** Powers of two *)

Lemma pow2_pos (e : Z) : 0 < pow2 e.
Proof. apply Qpower_0_lt. reflexivity. Qed.

Lemma pow2_add (a b : Z) : pow2 (a + b) == pow2 a * pow2 b.
Proof. apply Qpower_plus. discriminate. Qed.

Lemma pow2_sub (a b : Z) : pow2 (a - b) == pow2 a / pow2 b.
Proof. apply Qpower_minus. discriminate. Qed.

Lemma pow2_le (a b : Z) : (a <= b)%Z -> pow2 a <= pow2 b.
Proof. intros H. apply Qpower_le_compat_l; [exact H|]. discriminate. Qed.

Lemma pow2_lt (a b : Z) : (a < b)%Z -> pow2 a < pow2 b.
Proof. intros H. apply Qpower_lt_compat_l; [exact H|]. reflexivity. Qed.

Lemma pow2_lt_inv (a b : Z) : pow2 a < pow2 b -> (a < b)%Z.
Proof.
  intros H. destruct (Z_lt_le_dec a b) as [Hl | Hl]; [exact Hl|].
  apply pow2_le in Hl. lra.
Qed.

Lemma pow2_inject (e : Z) : (0 <= e)%Z -> pow2 e == inject_Z (2 ^ e).
Proof. intros H. unfold pow2. now rewrite Zpower_Qpower. Qed.

Lemma pow2_succ (e : Z) : pow2 (e + 1) == 2 * pow2 e.
Proof. rewrite pow2_add. change (pow2 1) with 2. ring. Qed.

(** *** The binary logarithm *)

Lemma Zdiv_Qlt (A B C D : Z) :
  (0 < B)%Z -> (0 < D)%Z -> (A * D < C * B)%Z ->
  inject_Z A / inject_Z B < inject_Z C / inject_Z D.
Proof.
  intros HB HD H.
  assert (HB' : 0 < inject_Z B) by (change 0 with (inject_Z 0); now rewrite <- Zlt_Qlt).
  assert (HD' : 0 < inject_Z D) by (change 0 with (inject_Z 0); now rewrite <- Zlt_Qlt).
  apply Qlt_shift_div_r; [exact HB'|].
  assert (E : inject_Z C / inject_Z D * inject_Z B
              == inject_Z C * inject_Z B / inject_Z D) by (field; lra).
  rewrite E. apply Qlt_shift_div_l; [exact HD'|].
  rewrite <- !inject_Z_mult. now rewrite <- Zlt_Qlt.
Qed.

Lemma Zdiv_Qle (A B C D : Z) :
  (0 < B)%Z -> (0 < D)%Z -> (A * D <= C * B)%Z ->
  inject_Z A / inject_Z B <= inject_Z C / inject_Z D.
Proof.
  intros HB HD H.
  assert (HB' : 0 < inject_Z B) by (change 0 with (inject_Z 0); now rewrite <- Zlt_Qlt).
  assert (HD' : 0 < inject_Z D) by (change 0 with (inject_Z 0); now rewrite <- Zlt_Qlt).
  apply Qle_shift_div_r; [exact HB'|].
  assert (E : inject_Z C / inject_Z D * inject_Z B
              == inject_Z C * inject_Z B / inject_Z D) by (field; lra).
  rewrite E. apply Qle_shift_div_l; [exact HD'|].
  rewrite <- !inject_Z_mult. now rewrite <- Zle_Qle.
Qed.

Lemma Qabs_frac (x : Q) :
  Qabs x == inject_Z (Z.abs (Qnum x)) / inject_Z (Z.pos (Qden x)).
Proof. destruct x as [n d]. cbn [Qabs Qnum Qden]. apply Qmake_Qdiv. Qed.

Lemma ilog2_spec (x : Q) :
  ~ x == 0 -> pow2 (ilog2 x) <= Qabs x /\ Qabs x < pow2 (ilog2 x + 1).
Proof.
  intros Hx.
  set (n := Z.abs (Qnum x)). set (d := Z.pos (Qden x)).
  assert (Hn : (0 < n)%Z).
  { unfold n. destruct x as [[|p|p] q]; cbn; try lia.
    exfalso. apply Hx. reflexivity. }
  assert (Hd : (0 < d)%Z) by (unfold d; lia).
  pose proof (Z.log2_spec n Hn) as [Hn1 Hn2].
  pose proof (Z.log2_spec d Hd) as [Hd1 Hd2].
  pose proof (Z.log2_nonneg n) as Ha. pose proof (Z.log2_nonneg d) as Hc.
  rewrite Z.pow_succ_r in Hn2, Hd2 by assumption.
  assert (Hpa : (0 < 2 ^ Z.log2 n)%Z) by (apply Z.pow_pos_nonneg; lia).
  assert (Hpc : (0 < 2 ^ Z.log2 d)%Z) by (apply Z.pow_pos_nonneg; lia).
  assert (E : forall j : Z,
             pow2 (Z.log2 n - Z.log2 d + j)
             == inject_Z (2 ^ Z.log2 n) / inject_Z (2 ^ Z.log2 d) * pow2 j).
  { intros j. rewrite pow2_add, pow2_sub, !pow2_inject by assumption. reflexivity. }
  unfold ilog2. fold n d.
  destruct (Qle_bool (pow2 (Z.log2 n - Z.log2 d)) (Qabs x)) eqn:B.
  - apply Qle_bool_iff in B. split; [exact B|].
    rewrite (E 1%Z), (Qabs_frac x). fold n d.
    change (pow2 1) with 2.
    assert (E2 : inject_Z (2 ^ Z.log2 n) / inject_Z (2 ^ Z.log2 d) * 2
                 == inject_Z (2 * 2 ^ Z.log2 n) / inject_Z (2 ^ Z.log2 d)).
    { rewrite inject_Z_mult. field.
      change 0 with (inject_Z 0). rewrite inject_Z_injective. lia. }
    rewrite E2. apply Zdiv_Qlt; [assumption..|]. nia.
  - assert (B' : Qabs x < pow2 (Z.log2 n - Z.log2 d)).
    { apply Qnot_le_lt. intros H. apply Qle_bool_iff in H. congruence. }
    split.
    + replace (Z.log2 n - Z.log2 d - 1)%Z with (Z.log2 n - Z.log2 d + -1)%Z by lia.
      rewrite (E (-1)%Z), (Qabs_frac x). fold n d.
      change (pow2 (-1)) with (1 # 2).
      assert (E2 : inject_Z (2 ^ Z.log2 n) / inject_Z (2 ^ Z.log2 d) * (1 # 2)
                   == inject_Z (2 ^ Z.log2 n) / inject_Z (2 * 2 ^ Z.log2 d)).
      { rewrite inject_Z_mult. field.
        repeat split; try discriminate;
          change 0 with (inject_Z 0); rewrite inject_Z_injective; lia. }
      rewrite E2. apply Zdiv_Qle; [lia | assumption |]. nia.
    + replace (Z.log2 n - Z.log2 d - 1 + 1)%Z with (Z.log2 n - Z.log2 d)%Z by lia.
      exact B'.
Qed.

Lemma ilog2_unique (x : Q) (l : Z) :
  pow2 l <= Qabs x -> Qabs x < pow2 (l + 1) -> ilog2 x = l.
Proof.
  intros H1 H2.
  assert (Hx : ~ x == 0).
  { intros E. assert (E0 : Qabs x == 0) by (rewrite E; reflexivity).
    pose proof (pow2_pos l). lra. }
  destruct (ilog2_spec x Hx) as [S1 S2].
  assert (A : (ilog2 x < l + 1)%Z) by (apply pow2_lt_inv; lra).
  assert (B : (l < ilog2 x + 1)%Z) by (apply pow2_lt_inv; lra).
  lia.
Qed.

(** *** Rounding to an integer *)

(** [round] is within one half of its argument. *)
Lemma round_half (x : Q) :
  inject_Z (Py.round x) - (1 # 2) <= x /\ x <= inject_Z (Py.round x) + (1 # 2).
Proof.
  pose proof (Qfloor_le x) as Hlo. pose proof (Qlt_floor x) as Hhi.
  rewrite inject_Z_plus in Hhi. change (inject_Z 1) with 1 in Hhi.
  unfold Py.round.
  destruct (Py.Qltb (x - inject_Z (Qfloor x)) (1 # 2)) eqn:E1.
  - apply PyFacts.Qltb_lt in E1. split; lra.
  - apply PyFacts.Qltb_ge in E1.
    destruct (Py.Qltb (1 # 2) (x - inject_Z (Qfloor x))) eqn:E2.
    + rewrite inject_Z_plus. change (inject_Z 1) with 1. split; lra.
    + apply PyFacts.Qltb_ge in E2. destruct (Z.even (Qfloor x)).
      * split; lra.
      * rewrite inject_Z_plus. change (inject_Z 1) with 1. split; lra.
Qed.

Lemma Zlt_Qlt_1 (a b : Z) : inject_Z a < inject_Z b + 1 -> (a <= b)%Z.
Proof.
  intros H. change 1 with (inject_Z 1) in H. rewrite <- inject_Z_plus in H.
  rewrite <- Zlt_Qlt in H. lia.
Qed.

(** An integer below the argument is below its rounding, and
    symmetrically. *)
Lemma round_ge (x : Q) (k : Z) : inject_Z k <= x -> (k <= Py.round x)%Z.
Proof.
  intros H. pose proof (Qlt_floor x) as Hhi. pose proof (Qfloor_le x) as Hlo.
  assert (Hk : (k <= Qfloor x)%Z).
  { apply Zlt_Qlt_1. rewrite inject_Z_plus in Hhi.
    change (inject_Z 1) with 1 in Hhi. lra. }
  unfold Py.round.
  destruct (Py.Qltb _ (1 # 2)); [exact Hk|].
  destruct (Py.Qltb (1 # 2) _); [lia|].
  destruct (Z.even (Qfloor x)); lia.
Qed.

Lemma round_le (x : Q) (k : Z) : x <= inject_Z k -> (Py.round x <= k)%Z.
Proof.
  intros H. pose proof (Qlt_floor x) as Hhi. pose proof (Qfloor_le x) as Hlo.
  rewrite inject_Z_plus in Hhi. change (inject_Z 1) with 1 in Hhi.
  assert (Hk : (Qfloor x <= k)%Z) by (rewrite Zle_Qle; lra).
  destruct (Z.eq_dec (Qfloor x) k) as [E | E].
  - assert (Ex : x == inject_Z k) by (rewrite E in Hlo; lra).
    rewrite (PyFacts.round_proper _ _ Ex), PyFacts.round_inject_Z. lia.
  - assert (Qfloor x + 1 <= k)%Z by lia.
    unfold Py.round.
    destruct (Py.Qltb _ (1 # 2)); [lia|].
    destruct (Py.Qltb (1 # 2) _); [lia|].
    destruct (Z.even (Qfloor x)); lia.
Qed.

(** The integer nearest to [x], when [x] is within less than one half
    of it. *)
Lemma round_near (x : Q) (k : Z) :
  inject_Z k - (1 # 2) < x -> x < inject_Z k + (1 # 2) -> Py.round x = k.
Proof.
  intros H1 H2. destruct (round_half x) as [R1 R2].
  assert (A : (Py.round x <= k)%Z).
  { apply Zlt_Qlt_1. lra. }
  assert (B : (k <= Py.round x)%Z).
  { apply Zlt_Qlt_1. lra. }
  lia.
Qed.

Lemma inject_Z_sub (a b : Z) : inject_Z (a - b) == inject_Z a - inject_Z b.
Proof.
  unfold Z.sub. rewrite inject_Z_plus, inject_Z_opp. reflexivity.
Qed.

Lemma Qfloor_eq (x : Q) (k : Z) :
  inject_Z k <= x -> x < inject_Z k + 1 -> Qfloor x = k.
Proof.
  intros H1 H2. pose proof (Qfloor_le x) as Hlo. pose proof (Qlt_floor x) as Hhi.
  rewrite inject_Z_plus in Hhi. change (inject_Z 1) with 1 in Hhi.
  assert (A : (k <= Qfloor x)%Z) by (apply Zlt_Qlt_1; lra).
  assert (B : (Qfloor x <= k)%Z) by (apply Zlt_Qlt_1; lra).
  lia.
Qed.

(** Ties go to the even neighbour. *)
Lemma round_tie (x : Q) (k : Z) :
  x == inject_Z k + (1 # 2) ->
  Py.round x = if Z.even k then k else (k + 1)%Z.
Proof.
  intros E. unfold Py.round.
  assert (Ef : Qfloor x = k) by (apply Qfloor_eq; lra).
  rewrite Ef.
  assert (B1 : Py.Qltb (x - inject_Z k) (1 # 2) = false)
    by (apply PyFacts.Qltb_ge; lra).
  assert (B2 : Py.Qltb (1 # 2) (x - inject_Z k) = false)
    by (apply PyFacts.Qltb_ge; lra).
  now rewrite B1, B2.
Qed.

Lemma round_opp (x : Q) : Py.round (- x) = (- Py.round x)%Z.
Proof.
  destruct (round_half x) as [R1 R2].
  destruct (Qlt_le_dec (inject_Z (Py.round x) - (1 # 2)) x) as [A | A];
    [destruct (Qlt_le_dec x (inject_Z (Py.round x) + (1 # 2))) as [B | B]|].
  - apply round_near; rewrite inject_Z_opp; lra.
  - assert (Ex : x == inject_Z (Py.round x) + (1 # 2)) by lra.
    pose proof (round_tie x _ Ex) as T.
    destruct (Z.even (Py.round x)) eqn:Ev; [|lia].
    rewrite (round_tie (- x) (- Py.round x - 1)).
    + rewrite Z.even_sub, Z.even_opp, Ev. cbn. lia.
    + rewrite inject_Z_sub, inject_Z_opp. change (inject_Z 1) with 1. lra.
  - assert (Ex : x == inject_Z (Py.round x - 1) + (1 # 2)).
    { rewrite inject_Z_sub. change (inject_Z 1) with 1. lra. }
    pose proof (round_tie x _ Ex) as T.
    destruct (Z.even (Py.round x - 1)) eqn:Ev; [lia|].
    rewrite Z.even_sub in Ev. cbn in Ev.
    destruct (Z.even (Py.round x)) eqn:Ev'; [|discriminate].
    rewrite (round_tie (- x) (- Py.round x)).
    + rewrite Z.even_opp, Ev'. reflexivity.
    + rewrite inject_Z_opp. rewrite inject_Z_sub in Ex.
      change (inject_Z 1) with 1 in Ex. lra.
Qed.

(** *** Rounding to a binary64 number *)

Lemma pow2_split (e e' : Z) :
  (e' <= e)%Z -> pow2 e == inject_Z (2 ^ (e - e')) * pow2 e'.
Proof.
  intros H. replace e with (e - e' + e')%Z at 1 by lia.
  rewrite pow2_add, (pow2_inject (e - e')) by lia. reflexivity.
Qed.

Lemma rnd_0 (x : Q) : x == 0 -> rnd x = 0.
Proof.
  intros E. unfold rnd. apply Qeq_bool_iff in E. now rewrite E.
Qed.

Lemma rnd_eq (x : Q) :
  ~ x == 0 ->
  rnd x == inject_Z (Py.round (x / pow2 (expo x))) * pow2 (expo x).
Proof.
  intros H. unfold rnd.
  destruct (Qeq_bool x 0) eqn:E; [apply Qeq_bool_iff in E; contradiction|].
  apply Qred_correct.
Qed.

Lemma ilog2_proper (x y : Q) : ~ x == 0 -> x == y -> ilog2 x = ilog2 y.
Proof.
  intros Hx E. destruct (ilog2_spec x Hx) as [S1 S2].
  symmetry. apply ilog2_unique; rewrite <- E; assumption.
Qed.

Lemma rnd_proper (x y : Q) : x == y -> rnd x = rnd y.
Proof.
  intros E. destruct (Qeq_dec x 0) as [H0 | H0].
  - rewrite (rnd_0 x H0). symmetry. apply rnd_0. now rewrite <- E.
  - assert (H0' : ~ y == 0) by (now rewrite <- E).
    unfold rnd.
    destruct (Qeq_bool x 0) eqn:Bx; [apply Qeq_bool_iff in Bx; contradiction|].
    destruct (Qeq_bool y 0) eqn:By; [apply Qeq_bool_iff in By; contradiction|].
    unfold expo. rewrite (ilog2_proper x y H0 E).
    apply Qred_complete.
    assert (Eq : x / pow2 (Z.max (ilog2 y - 52) emin)
                 == y / pow2 (Z.max (ilog2 y - 52) emin)) by (rewrite E; reflexivity).
    rewrite (PyFacts.round_proper _ _ Eq). reflexivity.
Qed.

Lemma expo_ge (x : Q) : (emin <= expo x)%Z /\ (ilog2 x - 52 <= expo x)%Z.
Proof. unfold expo. lia. Qed.

(** The unit of [x] against its magnitude: [|x| < 2^53 * 2^e], and
    [2^52 * 2^e <= |x|] in the normal range. *)
Lemma unit_gt (x : Q) :
  ~ x == 0 -> Qabs x < inject_Z (2 ^ 53) * pow2 (expo x).
Proof.
  intros Hx. destruct (ilog2_spec x Hx) as [_ S2].
  rewrite <- (pow2_inject 53), <- pow2_add by lia.
  eapply Qlt_le_trans; [exact S2|]. apply pow2_le.
  pose proof (expo_ge x). lia.
Qed.

Lemma unit_le (x : Q) :
  ~ x == 0 -> (emin < expo x)%Z -> inject_Z (2 ^ 52) * pow2 (expo x) <= Qabs x.
Proof.
  intros Hx He. destruct (ilog2_spec x Hx) as [S1 _].
  rewrite <- (pow2_inject 52), <- pow2_add by lia.
  eapply Qle_trans; [|exact S1]. apply pow2_le.
  unfold expo in *. lia.
Qed.

Lemma Qabs_div_pow2 (x : Q) (e : Z) : Qabs (x / pow2 e) == Qabs x / pow2 e.
Proof.
  pose proof (pow2_pos e) as Hp.
  unfold Qdiv. rewrite Qabs_Qmult, (Qabs_pos (/ pow2 e)); [reflexivity|].
  apply Qlt_le_weak, Qinv_lt_0_compat, Hp.
Qed.

Lemma scaled_lt (x : Q) :
  ~ x == 0 -> Qabs (x / pow2 (expo x)) < inject_Z (2 ^ 53).
Proof.
  intros Hx. rewrite Qabs_div_pow2.
  apply Qlt_shift_div_r; [apply pow2_pos|]. now apply unit_gt.
Qed.

Lemma scaled_ge (x : Q) :
  ~ x == 0 -> (emin < expo x)%Z ->
  inject_Z (2 ^ 52) <= Qabs (x / pow2 (expo x)).
Proof.
  intros Hx He. rewrite Qabs_div_pow2.
  apply Qle_shift_div_l; [apply pow2_pos|]. now apply unit_le.
Qed.

Lemma Qabs_inject_Z (k : Z) : Qabs (inject_Z k) == inject_Z (Z.abs k).
Proof. unfold inject_Z, Qabs. reflexivity. Qed.

Lemma round_abs_le (x : Q) (k : Z) :
  Qabs x <= inject_Z k -> (Z.abs (Py.round x) <= k)%Z.
Proof.
  intros H. apply Qabs_Qle_condition in H as [H1 H2].
  assert (A : (Py.round x <= k)%Z) by now apply round_le.
  assert (B : (- k <= Py.round x)%Z) by (apply round_ge; now rewrite inject_Z_opp).
  lia.
Qed.

(** Numbers of the format are left alone. *)
Lemma rnd_exact (x : Q) : representable x -> rnd x == x.
Proof.
  intros (m & e & Hm & He & Ex).
  destruct (Qeq_dec x 0) as [H0 | H0]; [rewrite (rnd_0 x H0); now symmetry|].
  rewrite (rnd_eq x H0).
  assert (Hle : (expo x <= e)%Z).
  { destruct (ilog2_spec x H0) as [S1 _].
    assert (Hlt : Qabs x < pow2 (53 + e)).
    { rewrite Ex, Qabs_Qmult, Qabs_inject_Z, (Qabs_pos (pow2 e))
        by apply Qlt_le_weak, pow2_pos.
      rewrite pow2_add, (pow2_inject 53) by lia.
      apply Qmult_lt_compat_r; [apply pow2_pos|].
      now rewrite <- Zlt_Qlt. }
    assert (ilog2 x < 53 + e)%Z by (apply pow2_lt_inv; lra).
    unfold expo. lia. }
  set (e' := expo x) in *.
  assert (Es : x / pow2 e' == inject_Z (m * 2 ^ (e - e'))).
  { rewrite Ex, (pow2_split e e' Hle), inject_Z_mult.
    field. pose proof (pow2_pos e'). lra. }
  rewrite (PyFacts.round_proper _ _ Es), PyFacts.round_inject_Z.
  rewrite Ex, (pow2_split e e' Hle), inject_Z_mult. ring.
Qed.

(** The result of [rnd] is a number of the format. *)
Lemma rnd_representable (x : Q) : representable (rnd x).
Proof.
  destruct (Qeq_dec x 0) as [H0 | H0].
  { rewrite (rnd_0 x H0). exists 0%Z, emin.
    split; [reflexivity|]. split; [lia|]. ring. }
  pose proof (scaled_lt x H0) as Hs.
  assert (Hr : (Z.abs (Py.round (x / pow2 (expo x))) <= 2 ^ 53)%Z).
  { apply round_abs_le. lra. }
  set (r := Py.round (x / pow2 (expo x))) in *.
  destruct (Z.eq_dec (Z.abs r) (2 ^ 53)%Z) as [E | E].
  - exists (r / 2)%Z, (expo x + 1)%Z. split; [|split].
    + assert (r = 2 ^ 53 \/ r = - 2 ^ 53)%Z as [-> | ->] by lia; reflexivity.
    + pose proof (expo_ge x). lia.
    + rewrite (rnd_eq x H0). fold r. rewrite pow2_succ.
      assert (r = 2 ^ 53 \/ r = - 2 ^ 53)%Z as [-> | ->] by lia.
      * assert (E2 : inject_Z (2 ^ 53) == inject_Z (2 ^ 53 / 2) * 2) by reflexivity.
        rewrite E2. ring.
      * assert (E2 : inject_Z (- 2 ^ 53) == inject_Z (- 2 ^ 53 / 2) * 2) by reflexivity.
        rewrite E2. ring.
  - exists r, (expo x). split; [lia|]. split; [apply expo_ge|].
    apply (rnd_eq x H0).
Qed.

Lemma rnd_idem (x : Q) : rnd (rnd x) == rnd x.
Proof. apply rnd_exact, rnd_representable. Qed.

Lemma representable_opp (x : Q) : representable x -> representable (- x).
Proof.
  intros (m & e & Hm & He & Ex). exists (- m)%Z, e. split; [lia|].
  split; [exact He|]. rewrite Ex, inject_Z_opp. ring.
Qed.

Lemma representable_proper (x y : Q) : x == y -> representable x -> representable y.
Proof.
  intros E (m & e & Hm & He & Ex). exists m, e. split; [exact Hm|].
  split; [exact He|]. now rewrite <- E.
Qed.

Lemma rnd_opp (x : Q) : rnd (- x) == - rnd x.
Proof.
  destruct (Qeq_dec x 0) as [H0 | H0].
  { rewrite (rnd_0 x H0), (rnd_0 (- x)) by (rewrite H0; reflexivity). reflexivity. }
  assert (H0' : ~ - x == 0) by (intros E; apply H0; lra).
  rewrite (rnd_eq x H0), (rnd_eq (- x) H0').
  assert (Ee : expo (- x) = expo x).
  { unfold expo. f_equal. f_equal.
    destruct (ilog2_spec x H0) as [S1 S2].
    apply ilog2_unique; rewrite Qabs_opp; assumption. }
  rewrite Ee.
  assert (Es : - x / pow2 (expo x) == - (x / pow2 (expo x))).
  { field. pose proof (pow2_pos (expo x)). lra. }
  rewrite (PyFacts.round_proper _ _ Es), round_opp, inject_Z_opp. ring.
Qed.

(** Rounding does not cross a number of the format. *)
Lemma rnd_ge_representable (a x : Q) :
  representable a -> a <= x -> a <= rnd x.
Proof.
  intros (m & ea & Hm & Hea & Ea) Hax.
  destruct (Qeq_dec x 0) as [H0 | H0]; [rewrite (rnd_0 x H0); lra|].
  rewrite (rnd_eq x H0).
  pose proof (pow2_pos (expo x)) as Hp.
  destruct (Z_le_gt_dec (expo x) ea) as [Hle | Hgt].
  - (* [a] is a multiple of the unit of [x] *)
    assert (Es : a == inject_Z (m * 2 ^ (ea - expo x)) * pow2 (expo x)).
    { rewrite Ea, (pow2_split ea (expo x) Hle), inject_Z_mult. ring. }
    rewrite Es. apply Qmult_le_compat_r; [|lra].
    rewrite <- Zle_Qle. apply round_ge.
    apply Qle_shift_div_l; [exact Hp|]. now rewrite <- Es.
  - (* [x] lies in a higher binade than [a] *)
    assert (He : (emin < expo x)%Z) by lia.
    pose proof (scaled_ge x H0 He) as Hs.
    assert (Ha : Qabs a < inject_Z (2 ^ 52) * pow2 (expo x)).
    { rewrite Ea, Qabs_Qmult, Qabs_inject_Z, (Qabs_pos (pow2 ea))
        by apply Qlt_le_weak, pow2_pos.
      rewrite (pow2_split (expo x) (ea + 1)) by lia.
      rewrite pow2_succ.
      pose proof (pow2_pos ea) as Hpa.
      assert (H1 : inject_Z (Z.abs m) < inject_Z (2 ^ 53)) by now rewrite <- Zlt_Qlt.
      assert (H2 : 1 <= inject_Z (2 ^ (expo x - (ea + 1)))).
      { change 1 with (inject_Z 1). rewrite <- Zle_Qle.
        assert (0 < 2 ^ (expo x - (ea + 1)))%Z by (apply Z.pow_pos_nonneg; lia). lia. }
      change (inject_Z (2 ^ 53)) with (2 * inject_Z (2 ^ 52)) in H1.
      assert (H3 : inject_Z (Z.abs m) * pow2 ea < 2 * inject_Z (2 ^ 52) * pow2 ea)
        by (apply Qmult_lt_compat_r; assumption).
      assert (H4 : inject_Z (2 ^ 52) * (1 * (2 * pow2 ea))
                   <= inject_Z (2 ^ 52) * (inject_Z (2 ^ (expo x - (ea + 1))) * (2 * pow2 ea))).
      { apply Qmult_le_l; [reflexivity|].
        apply Qmult_le_compat_r; [exact H2 | lra]. }
      lra. }
    destruct (Qlt_le_dec 0 x) as [Hpos | Hneg].
    + assert (Hr : (2 ^ 52 <= Py.round (x / pow2 (expo x)))%Z).
      { apply round_ge. rewrite Qabs_pos in Hs; [exact Hs|].
        apply Qle_shift_div_l; [exact Hp|]. lra. }
      rewrite Zle_Qle in Hr.
      assert (H5 : inject_Z (2 ^ 52) * pow2 (expo x)
                   <= inject_Z (Py.round (x / pow2 (expo x))) * pow2 (expo x))
        by (apply Qmult_le_compat_r; [exact Hr | lra]).
      pose proof (Qle_Qabs a). lra.
    + exfalso. pose proof (unit_le x H0 He) as Hx.
      rewrite (Qabs_neg x) in Hx by exact Hneg.
      rewrite (Qabs_neg a) in Ha by lra. lra.
Qed.

Lemma rnd_le_representable (a x : Q) :
  representable a -> x <= a -> rnd x <= a.
Proof.
  intros Ha Hxa.
  assert (H : - a <= rnd (- x)).
  { apply rnd_ge_representable; [now apply representable_opp | lra]. }
  rewrite rnd_opp in H. lra.
Qed.

(** The rounding error: half a unit, which is at most [2^-53] of the
    magnitude, or [2^-1075] for the smallest numbers. *)
Lemma rnd_error (x : Q) :
  Qabs (rnd x - x) <= Qabs x * pow2 (-53) + pow2 (-1075).
Proof.
  pose proof (pow2_pos (-1075)) as Ht. pose proof (pow2_pos (-53)) as Hu.
  destruct (Qeq_dec x 0) as [H0 | H0].
  { rewrite (rnd_0 x H0).
    assert (E : Qabs (0 - x) == 0) by (rewrite H0; reflexivity).
    rewrite E. pose proof (Qabs_nonneg x).
    assert (0 <= Qabs x * pow2 (-53)) by (apply Qmult_le_0_compat; lra). lra. }
  rewrite (rnd_eq x H0).
  set (e := expo x). pose proof (pow2_pos e) as Hp.
  destruct (round_half (x / pow2 e)) as [R1 R2].
  set (r := inject_Z (Py.round (x / pow2 e))) in *.
  assert (Ex : x == x / pow2 e * pow2 e) by (field; lra).
  assert (A : (r - (1 # 2)) * pow2 e <= x / pow2 e * pow2 e)
    by (apply Qmult_le_compat_r; lra).
  assert (B : x / pow2 e * pow2 e <= (r + (1 # 2)) * pow2 e)
    by (apply Qmult_le_compat_r; lra).
  assert (Herr : Qabs (r * pow2 e - x) <= (1 # 2) * pow2 e).
  { apply Qabs_Qle_condition. split; lra. }
  eapply Qle_trans; [exact Herr|].
  destruct (Z.eq_dec e emin) as [Ee | Ee].
  - rewrite Ee. change ((1 # 2) * pow2 emin) with (pow2 (-1075)).
    pose proof (Qabs_nonneg x).
    assert (0 <= Qabs x * pow2 (-53)) by (apply Qmult_le_0_compat; lra). lra.
  - assert (He : (emin < expo x)%Z) by (pose proof (expo_ge x); fold e; lia).
    pose proof (unit_le x H0 He) as Hx. fold e in Hx.
    assert (E53 : Qabs x * pow2 (-53) == (1 # 2) * (Qabs x * pow2 (-52))).
    { change (pow2 (-53)) with ((1 # 2) * pow2 (-52)). ring. }
    assert (H2 : pow2 e <= Qabs x * pow2 (-52)).
    { assert (E1 : pow2 e == inject_Z (2 ^ 52) * pow2 e * pow2 (-52)).
      { change (inject_Z (2 ^ 52)) with (pow2 52).
        assert (E2 : pow2 52 * pow2 (-52) == 1) by reflexivity.
        rewrite <- Qmult_assoc, (Qmult_comm (pow2 e)), Qmult_assoc, E2. ring. }
      rewrite E1. apply Qmult_le_compat_r; [exact Hx|]. apply Qlt_le_weak, pow2_pos. }
    lra.
Qed.

(** The result of [rnd] is a reduced fraction, so that equal results
    are identical. *)
Lemma rnd_reduced (x : Q) : Qred (rnd x) = rnd x.
Proof.
  unfold rnd. destruct (Qeq_bool x 0); [reflexivity|]. apply Qred_complete, Qred_correct.
Qed.

Lemma reduced_eq (x y : Q) : Qred x = x -> Qred y = y -> x == y -> x = y.
Proof. intros Hx Hy E. rewrite <- Hx, <- Hy. now apply Qred_complete. Qed.

Lemma rnd_exact_eq (x : Q) : representable x -> Qred x = x -> rnd x = x.
Proof.
  intros Hr Hx. apply reduced_eq; [apply rnd_reduced | exact Hx |].
  now apply rnd_exact.
Qed.

Lemma rnd_abs_le (x B : Q) : representable B -> Qabs x <= B -> Qabs (rnd x) <= B.
Proof.
  intros HB H. apply Qabs_Qle_condition in H as [H1 H2].
  apply Qabs_Qle_condition. split.
  - apply rnd_ge_representable; [now apply representable_opp | exact H1].
  - apply rnd_le_representable; assumption.
Qed.

Lemma representable_pow2 (e : Z) : (emin <= e)%Z -> representable (pow2 e).
Proof.
  intros H. exists 1%Z, e. split; [reflexivity|]. split; [exact H|]. ring.
Qed.

Lemma representable_Z (k : Z) : (Z.abs k < 2 ^ 53)%Z -> representable (inject_Z k).
Proof.
  intros H. exists k, 0%Z. split; [exact H|]. split; [unfold emin; lia|].
  change (pow2 0) with 1. ring.
Qed.

(** Below [2^1024] in magnitude the float is the rounded value. *)
Lemma fl_Some (x B : Q) :
  representable B -> B < pow2 1024 -> Qabs x <= B -> fl x = Some (rnd x).
Proof.
  intros HB HB' H. unfold fl. cbv zeta.
  assert (Hlt : Py.Qltb (Qabs (rnd x)) (pow2 1024) = true).
  { apply PyFacts.Qltb_lt. pose proof (rnd_abs_le x B HB H). lra. }
  now rewrite Hlt.
Qed.

Lemma fl_inv (x r : Q) : fl x = Some r -> r = rnd x.
Proof.
  unfold fl. cbv zeta. destruct (Py.Qltb _ _); [|discriminate]. now intros [= <-].
Qed.

(** The rounding error against a bound [B] on the magnitude. *)
Lemma rnd_within (x B : Q) :
  Qabs x <= B ->
  x - (B * half_ulp + tiny) <= rnd x /\ rnd x <= x + (B * half_ulp + tiny).
Proof.
  intros H. pose proof (rnd_error x) as E.
  change (pow2 (-53)) with half_ulp in E. fold tiny in E.
  assert (Hu : Qabs x * half_ulp <= B * half_ulp).
  { apply Qmult_le_compat_r; [exact H | discriminate]. }
  apply Qabs_Qle_condition in E as [E1 E2]. split; lra.
Qed.

Lemma tiny_pos : 0 < tiny.
Proof. apply pow2_pos. Qed.

Lemma tiny_small : tiny <= pow2 (-1000).
Proof. apply pow2_le. lia. Qed.









(** A decimal that is a float, by evaluation. *)
Lemma float_check (x : Q) : Qeq_bool (rnd x) x = true -> representable x.
Proof.
  intros H. apply Qeq_bool_iff in H.
  apply (representable_proper (rnd x)); [exact H | apply rnd_representable].
Qed.

End Binary64Facts.

(** ** Quantization and the name tables *)

Module MidiFacts.
Import MidiUtils PyFacts.

Lemma min_by_ext {A} (key key' : A -> Q) (xs : list A) (best : A) :
  (forall x, (key x == key' x)%Q) ->
  Py.min_by key best xs = Py.min_by key' best xs.
Proof.
  intros Hk. revert best. induction xs as [|x xs IH]; intros best; simpl.
  - reflexivity.
  - rewrite (Qltb_proper _ _ (Hk x) _ _ (Hk best)). apply IH.
Qed.

#[export] Instance closest_duration_proper : Proper (Qeq ==> eq) closest_duration.
Proof.
  intros d d' H. unfold closest_duration.
  apply min_by_ext. intros e. now rewrite H.
Qed.

#[export] Instance beats_to_duration_name_proper :
  Proper (Qeq ==> eq) _beats_to_duration_name.
Proof.
  intros d d' H. unfold _beats_to_duration_name.
  rewrite (closest_duration_proper _ _ H).
  assert (Ha : (Qabs (d - fst (closest_duration d'))
                == Qabs (d' - fst (closest_duration d')))%Q) by (now rewrite H).
  now rewrite (Qltb_proper _ _ Ha _ _ (Qeq_refl 0.1)).
Qed.

(** The entry [closest_duration] picks is an entry of the table and no
    entry is nearer. *)
Lemma closest_duration_spec (d : Q) :
  closest_duration d ∈ duration_map /\
  forall e, e ∈ duration_map ->
            (Qabs (fst (closest_duration d) - d) <= Qabs (fst e - d))%Q.
Proof.
  unfold closest_duration.
  pose proof (min_by_spec (fun e => Qabs (fst e - d)) (tail duration_map)
                          (0.25%Q, "sixteenth"%string)) as H.
  cbv zeta in H. destruct H as (Hin & Hbest & Hall).
  split.
  - destruct Hin as [-> | Hin].
    + unfold duration_map. left.
    + unfold duration_map. right. exact Hin.
  - intros e He. unfold duration_map in He.
    apply elem_of_cons in He as [-> | He]; [exact Hbest | now apply Hall].
Qed.

Lemma Qabs_minus_sym (x y : Q) : (Qabs (x - y) == Qabs (y - x))%Q.
Proof.
  assert (H : (x - y == - (y - x))%Q) by ring.
  rewrite H. apply Qabs_opp.
Qed.

(** [_beats_to_duration_name] meets the description of the rest name
    with the fallback ["quarter"]. *)
Lemma beats_to_duration_name_spec (d : Q) :
  Spec.rest_name_for "quarter" d (_beats_to_duration_name d).
Proof.
  unfold _beats_to_duration_name.
  destruct (closest_duration_spec d) as (Hin & Hmin).
  destruct (closest_duration d) as [c name] eqn:Ec. cbn [fst snd] in *.
  destruct (Py.Qltb (Qabs (d - c)) 0.1) eqn:E.
  - left. exists c. apply Qltb_lt in E. split; [exact Hin|]. split; [exact E|].
    intros d' n' H'. specialize (Hmin _ H'). cbn [fst snd] in Hmin.
    rewrite (Qabs_minus_sym d c), (Qabs_minus_sym d d'). exact Hmin.
  - right. apply Qltb_ge in E. split; [|reflexivity].
    intros d' n' H' Hlt. specialize (Hmin _ H'). cbn [fst snd] in Hmin.
    rewrite (Qabs_minus_sym d d') in Hlt.
    rewrite (Qabs_minus_sym d c) in E. lra.
Qed.

End MidiFacts.

(** ** Quantization in binary64 *)

Module MidiFloatFacts.
Import MidiUtils Binary64 Binary64Facts MidiFloat.
Local Open Scope Q_scope.

(** *** Bounds *)

Lemma Qabs_le_mult (x y A B : Q) :
  Qabs x <= A -> Qabs y <= B -> Qabs (x * y) <= A * B.
Proof.
  intros Hx Hy. rewrite Qabs_Qmult.
  pose proof (Qabs_nonneg x). pose proof (Qabs_nonneg y).
  apply Qmult_le_compat_nonneg; split; assumption.
Qed.

Lemma div_close (y c d b : Q) :
  0 < b -> c * b - d * b <= y -> y <= c * b + d * b ->
  c - d <= y / b /\ y / b <= c + d.
Proof.
  intros Hb H1 H2. split.
  - apply Qle_shift_div_l; [exact Hb | lra].
  - apply Qle_shift_div_r; [exact Hb | lra].
Qed.

Lemma Qabs_bounds (x B : Q) : - B <= x -> x <= B -> Qabs x <= B.
Proof. intros H1 H2. apply Qabs_Qle_condition. now split. Qed.

Lemma Z_bounds (k K : Z) :
  (Z.abs k <= K)%Z -> - inject_Z K <= inject_Z k /\ inject_Z k <= inject_Z K.
Proof.
  intros H. rewrite <- inject_Z_opp, <- !Zle_Qle. lia.
Qed.

Lemma fl_small (x : Q) : small x -> fl x = Some (rnd x).
Proof.
  intros H. apply (fl_Some x (pow2 60)); [|reflexivity|exact H].
  apply representable_pow2. unfold emin. lia.
Qed.

Lemma rnd_small (x : Q) : small x -> small (rnd x).
Proof.
  intros H. apply rnd_abs_le; [|exact H].
  apply representable_pow2. unfold emin. lia.
Qed.

Lemma small_le (x B : Q) : Qabs x <= B -> B <= pow2 60 -> small x.
Proof. intros H1 H2. unfold small. lra. Qed.

Lemma round_small (x : Q) : small x -> small (inject_Z (Py.round x)).
Proof.
  unfold small. intros H. rewrite Qabs_inject_Z.
  change (pow2 60) with (inject_Z (2 ^ 60)) in *.
  rewrite <- Zle_Qle. now apply round_abs_le.
Qed.

(** [quantize_note] away from overflow. *)
Lemma quantize_note_eval (b : Q) (n : SMTNote) :
  ~ b == 0 ->
  small (start_time n / b) ->
  small (start_count b (start_time n) * b) ->
  small (end_time n - start_time n) ->
  small (rnd (end_time n - start_time n) / b) ->
  small (duration_count b (start_time n) (end_time n) * b) ->
  small (grid_start b (start_time n)
         + grid_duration b (start_time n) (end_time n)) ->
  quantize_note b n = Returns (quantized b n).
Proof.
  intros Hb H1 H2 H3 H4 H5 H6. unfold quantize_note.
  destruct (Qeq_bool b 0) eqn:B; [apply Qeq_bool_iff in B; contradiction|].
  rewrite (fl_small _ H1).
  rewrite (fl_small _ (round_small _ (rnd_small _ H1))).
  fold (start_count b (start_time n)).
  rewrite (fl_small _ H2). fold (grid_start b (start_time n)).
  rewrite (fl_small _ H3), (fl_small _ H4).
  rewrite (fl_small _ (round_small _ (rnd_small _ H4))).
  fold (duration_count b (start_time n) (end_time n)).
  rewrite (fl_small _ H5).
  fold (grid_duration b (start_time n) (end_time n)).
  rewrite (fl_small _ H6). reflexivity.
Qed.

(** *** A grid unit between [2^-14] and 4 beats *)

Section Grid.
Variable b : Q.
Hypothesis b_rep : representable b.
Hypothesis b_red : Qred b = b.
Hypothesis b_lo : 1 # 16384 <= b.
Hypothesis b_hi : b <= 4.

Lemma b_pos : 0 < b.
Proof. lra. Qed.

Lemma tiny_b : tiny <= (1 # 1048576) * b.
Proof.
  pose proof tiny_small as H.
  assert (H2 : pow2 (-1000) <= (1 # 1048576) * (1 # 16384)).
  { apply Qle_bool_iff. vm_compute. reflexivity. }
  lra.
Qed.

Lemma tiny_1 : tiny <= 1 # 1024.
Proof. pose proof tiny_b. lra. Qed.

Lemma div_bound (x A : Q) : Qabs x <= A -> Qabs (x / b) <= A * 16384.
Proof.
  intros H. pose proof b_pos as Hb. pose proof (Qabs_nonneg x) as Hx.
  unfold Qdiv. rewrite Qabs_Qmult, (Qabs_pos (/ b))
    by (apply Qlt_le_weak, Qinv_lt_0_compat, Hb).
  apply Qle_shift_div_r; [exact Hb|].
  assert (H1 : A * 1 <= A * (16384 * b)).
  { apply Qmult_le_compat_nonneg; split; lra. }
  lra.
Qed.

(** A whole number of units, up to [2^47] of them, is a float to
    within [2^-6] of a unit. *)
Lemma grid_point (k : Z) :
  (Z.abs k <= 2 ^ 47)%Z ->
  rnd (rnd (inject_Z k) * b) = rnd (inject_Z k * b) /\
  inject_Z k * b - (1 # 60) * b <= rnd (inject_Z k * b) /\
  rnd (inject_Z k * b) <= inject_Z k * b + (1 # 60) * b.
Proof.
  intros Hk. pose proof b_pos as Hb. pose proof tiny_b as Ht.
  split.
  - apply rnd_proper.
    rewrite (rnd_exact (inject_Z k)); [reflexivity|].
    apply representable_Z. lia.
  - destruct (Z_bounds k _ Hk) as [K1 K2].
    change (inject_Z (2 ^ 47)) with 140737488355328 in K1, K2.
    assert (Hkb : Qabs (inject_Z k * b) <= 140737488355328 * b).
    { apply Qabs_le_mult; [now apply Qabs_bounds|]. rewrite Qabs_pos; lra. }
    destruct (rnd_within _ _ Hkb) as [R1 R2]. unfold half_ulp in R1, R2.
    set (kb := inject_Z k * b) in *. split; lra.
Qed.

(** Its quotient by the unit rounds back to the count. *)
Lemma grid_start_count (k : Z) :
  (Z.abs k <= 2 ^ 47)%Z ->
  Py.round (rnd (rnd (inject_Z k * b) / b)) = k /\
  small (rnd (inject_Z k * b) / b) /\
  Qabs (rnd (inject_Z k * b)) <= pow2 50.
Proof.
  intros Hk. pose proof b_pos as Hb. pose proof tiny_1 as Ht.
  pose proof tiny_pos as Ht0.
  destruct (grid_point k Hk) as (_ & G1 & G2).
  destruct (Z_bounds k _ Hk) as [K1 K2].
  change (inject_Z (2 ^ 47)) with 140737488355328 in K1, K2.
  assert (Kb1 : - (140737488355328 * b) <= inject_Z k * b).
  { assert (H : (- 140737488355328) * b <= inject_Z k * b)
      by (apply Qmult_le_compat_r; lra). lra. }
  assert (Kb2 : inject_Z k * b <= 140737488355328 * b)
    by (apply Qmult_le_compat_r; lra).
  set (y := rnd (inject_Z k * b)) in *.
  destruct (div_close y (inject_Z k) (1 # 60) b Hb) as [D1 D2]; [lra | lra |].
  assert (Hy : Qabs (y / b) <= 140737488355329) by (apply Qabs_bounds; lra).
  destruct (rnd_within _ _ Hy) as [R1 R2]. unfold half_ulp in R1, R2.
  split; [apply round_near; lra|]. split.
  - apply (small_le _ _ Hy). apply Qle_bool_iff. reflexivity.
  - change (pow2 50) with 1125899906842624.
    set (kb := inject_Z k * b) in *. apply Qabs_bounds; lra.
Qed.

(** The length of a quantized note is read back exactly: for a start
    of [k] units and a length of [M >= 1] units, the difference
    between the stored end and start is [M] units again after
    rounding. *)
Lemma grid_duration_count (k M : Z) :
  (Z.abs k <= 2 ^ 47)%Z -> (1 <= M <= 2 ^ 47)%Z ->
  let qs := rnd (inject_Z k * b) in
  let qd := rnd (inject_Z M * b) in
  Py.round (rnd (rnd (rnd (qs + qd) - qs) / b)) = M /\
  small (qs + qd) /\ small (rnd (qs + qd) - qs) /\
  small (rnd (rnd (qs + qd) - qs) / b).
Proof.
  intros Hk HM qs qd. pose proof b_pos as Hb. pose proof tiny_1 as Ht.
  pose proof tiny_b as Htb. pose proof tiny_pos as Ht0.
  destruct (grid_point k Hk) as (_ & G1 & G2). fold qs in G1, G2.
  destruct (grid_point M) as (_ & G3 & G4); [lia|]. fold qd in G3, G4.
  destruct (Z_bounds k _ Hk) as [K1 K2].
  destruct (Z_bounds M (2 ^ 47)%Z) as [M1 M2]; [lia|].
  assert (M0 : 1 <= inject_Z M) by (change 1 with (inject_Z 1); rewrite <- Zle_Qle; lia).
  change (inject_Z (2 ^ 47)) with 140737488355328 in K1, K2, M1, M2.
  assert (Kb1 : - (140737488355328 * b) <= inject_Z k * b).
  { assert (H : (- 140737488355328) * b <= inject_Z k * b)
      by (apply Qmult_le_compat_r; lra). lra. }
  assert (Kb2 : inject_Z k * b <= 140737488355328 * b)
    by (apply Qmult_le_compat_r; lra).
  assert (Mb1 : 1 * b <= inject_Z M * b) by (apply Qmult_le_compat_r; lra).
  assert (Mb2 : inject_Z M * b <= 140737488355328 * b)
    by (apply Qmult_le_compat_r; lra).
  set (kb := inject_Z k * b) in *. set (Mb := inject_Z M * b) in *.
  assert (Hsum : Qabs (qs + qd) <= 281474976710657 * b) by (apply Qabs_bounds; lra).
  destruct (rnd_within _ _ Hsum) as [S1 S2]. unfold half_ulp in S1, S2.
  set (en := rnd (qs + qd)) in *.
  assert (Hdiff : Qabs (en - qs) <= 140737488355330 * b) by (apply Qabs_bounds; lra).
  destruct (rnd_within _ _ Hdiff) as [O1 O2]. unfold half_ulp in O1, O2.
  set (od := rnd (en - qs)) in *.
  destruct (div_close od (inject_Z M) (1 # 8) b Hb) as [D1 D2];
    [unfold Mb in *; lra | unfold Mb in *; lra |].
  assert (Hq : Qabs (od / b) <= 140737488355329) by (apply Qabs_bounds; lra).
  destruct (rnd_within _ _ Hq) as [R1 R2]. unfold half_ulp in R1, R2.
  split; [apply round_near; lra|].
  assert (P60 : pow2 60 == 1152921504606846976) by reflexivity.
  unfold small. rewrite P60. repeat split; [lra | lra | lra].
Qed.

Lemma count_bound (x : Q) (K : Z) :
  (0 <= K)%Z -> (K * 16384 < 2 ^ 53)%Z -> Qabs x <= inject_Z K ->
  (Z.abs (Py.round (rnd (x / b))) <= K * 16384)%Z /\
  Qabs (x / b) <= inject_Z (K * 16384).
Proof.
  intros HK HK' Hx. pose proof (div_bound x _ Hx) as Hd.
  assert (E : inject_Z K * 16384 == inject_Z (K * 16384)).
  { rewrite inject_Z_mult. reflexivity. }
  rewrite E in Hd. split; [|exact Hd].
  apply round_abs_le, rnd_abs_le; [|exact Hd].
  apply representable_Z. lia.
Qed.

(** The length of a quantized note is a whole number [M >= 1] of
    units, rounded once. *)
Lemma grid_duration_units (s e : Q) (m : Z) :
  m = Py.round (rnd (rnd (e - s) / b)) -> (Z.abs m <= 2 ^ 47)%Z ->
  grid_duration b s e = rnd (inject_Z (Z.max m 1) * b) /\
  b <= rnd (inject_Z (Z.max m 1) * b).
Proof.
  intros Em Hm. pose proof b_pos as Hb.
  unfold grid_duration, duration_count. rewrite <- Em.
  destruct (grid_point m Hm) as (E1 & _). rewrite E1.
  destruct (Z_le_gt_dec 1 m) as [H1 | H0].
  - rewrite Z.max_l by lia.
    assert (Hge : b <= rnd (inject_Z m * b)).
    { apply rnd_ge_representable; [exact b_rep|].
      assert (1 <= inject_Z m) by (change 1 with (inject_Z 1); rewrite <- Zle_Qle; lia).
      assert (1 * b <= inject_Z m * b) by (apply Qmult_le_compat_r; lra). lra. }
    split; [|exact Hge]. unfold Py.max2.
    assert (B : Py.Qltb (rnd (inject_Z m * b)) b = false) by now apply PyFacts.Qltb_ge.
    now rewrite B.
  - rewrite Z.max_r by lia.
    assert (Hle : rnd (inject_Z m * b) <= 0).
    { apply rnd_le_representable.
      - exists 0%Z, emin. split; [reflexivity|]. split; [lia|]. ring.
      - assert (inject_Z m <= 0) by (change 0 with (inject_Z 0); rewrite <- Zle_Qle; lia).
        assert (inject_Z m * b <= 0 * b) by (apply Qmult_le_compat_r; lra). lra. }
    assert (E : rnd (inject_Z 1 * b) = b).
    { rewrite (rnd_proper (inject_Z 1 * b) b) by (change (inject_Z 1) with 1; ring).
      now apply rnd_exact_eq. }
    rewrite E. split; [|lra]. unfold Py.max2.
    assert (B : Py.Qltb (rnd (inject_Z m * b)) b = true) by (apply PyFacts.Qltb_lt; lra).
    now rewrite B.
Qed.

(** Quantization returns, and its result is left as it is by a second
    pass, for times up to [2^32] beats in magnitude. *)
Lemma quantize_note_stable (n : SMTNote) :
  Qabs (start_time n) <= pow2 32 -> Qabs (end_time n) <= pow2 32 ->
  quantize_note b n = Returns (quantized b n) /\
  quantize_note b (quantized b n) = Returns (quantized b n).
Proof.
  intros Hs He. pose proof b_pos as Hb.
  assert (Hbn : ~ b == 0) by lra.
  set (s := start_time n) in *. set (e := end_time n) in *.
  (* the two counts of the first pass *)
  destruct (count_bound s (2 ^ 32)) as [Hk Hsb]; [lia | lia | exact Hs |].
  assert (Hd : Qabs (e - s) <= inject_Z (2 ^ 33)).
  { apply Qabs_Qle_condition in Hs as [? ?]. apply Qabs_Qle_condition in He as [? ?].
    change (pow2 32) with 4294967296 in *. change (inject_Z (2 ^ 33)) with 8589934592.
    apply Qabs_bounds; lra. }
  assert (Hod : Qabs (rnd (e - s)) <= inject_Z (2 ^ 33)).
  { apply rnd_abs_le; [apply representable_Z; lia | exact Hd]. }
  destruct (count_bound (rnd (e - s)) (2 ^ 33)) as [Hm Hob]; [lia | lia | exact Hod |].
  set (k := Py.round (rnd (s / b))) in *.
  set (m := Py.round (rnd (rnd (e - s) / b))) in *.
  change (2 ^ 32 * 16384)%Z with (2 ^ 46)%Z in *.
  change (2 ^ 33 * 16384)%Z with (2 ^ 47)%Z in *.
  assert (Hk' : (Z.abs k <= 2 ^ 47)%Z) by lia.
  destruct (grid_point k Hk') as (Gs & _).
  destruct (grid_start_count k Hk') as (Ck & Sk & Bk).
  destruct (grid_duration_units s e m eq_refl Hm) as (Gd & Gb).
  set (M := Z.max m 1) in *.
  assert (HM : (1 <= M <= 2 ^ 47)%Z) by lia.
  destruct (grid_point M) as (GM & _); [lia|].
  destruct (grid_duration_count k M Hk' HM) as (CM & S1 & S2 & S3).
  cbv zeta in CM, S1, S2, S3.
  assert (Es : grid_start b s = rnd (inject_Z k * b)) by exact Gs.
  assert (Hcount : forall z : Z, (Z.abs z <= 2 ^ 47)%Z -> small (rnd (inject_Z z) * b)).
  { intros z Hz. apply (small_le _ (pow2 47 * 4)); [|apply Qle_bool_iff; reflexivity].
    apply Qabs_le_mult; [|rewrite Qabs_pos; lra].
    apply rnd_abs_le; [apply representable_pow2; unfold emin; lia|].
    rewrite Qabs_inject_Z. change (pow2 47) with (inject_Z (2 ^ 47)).
    now rewrite <- Zle_Qle. }
  assert (P60 : forall x K, Qabs x <= inject_Z K -> (K <= 2 ^ 60)%Z -> small x).
  { intros x K Hx HK. apply (small_le _ _ Hx).
    change (pow2 60) with (inject_Z (2 ^ 60)). now rewrite <- Zle_Qle. }
  split.
  - apply quantize_note_eval; fold s e; try exact Hbn.
    + apply (P60 _ _ Hsb). lia.
    + unfold start_count. fold k. now apply Hcount.
    + apply (P60 _ _ Hd). lia.
    + apply (P60 _ _ Hob). lia.
    + unfold duration_count. fold m. now apply Hcount.
    + rewrite Es, Gd. exact S1.
  - assert (E1 : start_count b (rnd (inject_Z k * b)) = start_count b s).
    { unfold start_count. fold k. now rewrite Ck. }
    assert (E2 : duration_count b (rnd (inject_Z k * b))
                   (rnd (rnd (inject_Z k * b) + rnd (inject_Z M * b)))
                 = rnd (inject_Z M)).
    { unfold duration_count. now rewrite CM. }
    assert (E3 : grid_duration b (rnd (inject_Z k * b))
                   (rnd (rnd (inject_Z k * b) + rnd (inject_Z M * b)))
                 = rnd (inject_Z M * b)).
    { unfold grid_duration. rewrite E2, GM. unfold Py.max2.
      assert (B : Py.Qltb (rnd (inject_Z M * b)) b = false) by now apply PyFacts.Qltb_ge.
      now rewrite B. }
    assert (E0 : grid_start b (rnd (inject_Z k * b)) = rnd (inject_Z k * b)).
    { unfold grid_start. rewrite E1. exact Es. }
    assert (Eq : quantized b (quantized b n) = quantized b n).
    { unfold quantized. cbn [start_time end_time pitch velocity pitch_name
                               duration_name dynamic_name]. fold s e.
      rewrite Es, Gd, E0, E3. reflexivity. }
    rewrite <- Eq at 2.
    apply quantize_note_eval; try exact Hbn;
      unfold quantized; cbn [start_time end_time]; fold s e; rewrite ?Es, ?Gd.
    + exact Sk.
    + rewrite E1. unfold start_count. fold k. now apply Hcount.
    + exact S2.
    + exact S3.
    + rewrite E2. apply Hcount. lia.
    + rewrite E0, E3. exact S1.
Qed.


End Grid.

(** *** The grid unit *)

Lemma representable_reduced_rnd (x : Q) : representable (rnd x) /\ Qred (rnd x) = rnd x.
Proof. split; [apply rnd_representable | apply rnd_reduced]. Qed.

(** [grid / 4] is exact for every grid a float can hold exactly. *)
Lemma per_beat_exact (g : Z) :
  (Z.abs g < 2 ^ 53)%Z -> rnd (inject_Z g / 4) == inject_Z g / 4.
Proof.
  intros H. apply rnd_exact. exists g, (-2)%Z. split; [exact H|].
  split; [unfold emin; lia|]. change (pow2 (-2)) with (1 # 4). field.
Qed.

(** The grid unit of a grid between 1 and 65536. *)
Lemma beat_subdivision_bounded (g : Z) :
  (1 <= g <= 65536)%Z ->
  exists b, beat_subdivision g = Returns b /\
            representable b /\ Qred b = b /\ 1 # 16384 <= b /\ b <= 4.
Proof.
  intros Hg. unfold beat_subdivision.
  assert (G1 : 1 <= inject_Z g) by (change 1 with (inject_Z 1); rewrite <- Zle_Qle; lia).
  assert (G2 : inject_Z g <= 65536)
    by (change 65536 with (inject_Z 65536); rewrite <- Zle_Qle; lia).
  assert (Ep : rnd (inject_Z g / 4) == inject_Z g / 4) by (apply per_beat_exact; lia).
  assert (Hq : inject_Z g / 4 == inject_Z g * (1 # 4)) by field.
  assert (Sp : small (inject_Z g / 4)).
  { apply (small_le _ 16384); [|apply Qle_bool_iff; reflexivity].
    apply Qabs_bounds; lra. }
  rewrite (fl_small _ Sp).
  destruct (Qeq_bool (rnd (inject_Z g / 4)) 0) eqn:B.
  { apply Qeq_bool_iff in B. lra. }
  set (p := rnd (inject_Z g / 4)) in *.
  assert (P1 : 1 # 4 <= p) by lra. assert (P2 : p <= 16384) by lra.
  assert (I1 : 1 # 16384 <= 1 / p).
  { apply Qle_shift_div_l; lra. }
  assert (I2 : 1 / p <= 4).
  { apply Qle_shift_div_r; lra. }
  assert (Sb : small (1 / p)).
  { apply (small_le _ 4); [|apply Qle_bool_iff; reflexivity].
    apply Qabs_bounds; lra. }
  rewrite (fl_small _ Sb). exists (rnd (1 / p)).
  split; [reflexivity|]. split; [apply rnd_representable|].
  split; [apply rnd_reduced|]. split.
  - apply rnd_ge_representable; [|exact I1].
    apply (representable_proper (pow2 (-14))); [reflexivity|].
    apply representable_pow2. unfold emin. lia.
  - apply rnd_le_representable; [|exact I2].
    apply (representable_proper (pow2 2)); [reflexivity|].
    apply representable_pow2. unfold emin. lia.
Qed.

(** *** Lists of notes *)

Lemma collect_Returns {A B} (f : A -> outcome B) (l : list A) (out : list B) :
  Forall2 (fun a r => f a = Returns r) l out ->
  collect (map f l) = Returns out.
Proof.
  induction 1 as [|a r l out Ha _ IH]; [reflexivity|].
  cbn [map collect]. now rewrite Ha, IH.
Qed.

Lemma collect_inv {A B} (f : A -> outcome B) (l : list A) (out : list B) :
  collect (map f l) = Returns out ->
  Forall2 (fun a r => f a = Returns r) l out.
Proof.
  revert out. induction l as [|a l IH]; intros out; cbn [map collect].
  - intros [= <-]. constructor.
  - destruct (f a) as [r| |] eqn:Ea;
      destruct (collect (map f l)) as [rs| |]; try discriminate.
    intros [= <-]. constructor; [exact Ea | now apply IH].
Qed.

Lemma collect_Raises {A B} (f : A -> outcome B) (l : list A) (e : exn) :
  collect (map f l) = Raises e -> exists a, a ∈ l /\ f a = Raises e.
Proof.
  induction l as [|a l IH]; cbn [map collect]; [discriminate|].
  destruct (f a) as [r|e'|] eqn:Ea.
  - destruct (collect (map f l)) as [rs|e'|]; try discriminate.
    intros [= ->]. destruct IH as (x & Hx & Ex); [reflexivity|].
    exists x. split; [now right | exact Ex].
  - intros [= ->]. exists a. split; [now left | exact Ea].
  - destruct (collect (map f l)) as [rs|e'|]; try discriminate.
    intros [= ->]. destruct IH as (x & Hx & Ex); [reflexivity|].
    exists x. split; [now right | exact Ex].
Qed.

(** *** What [quantize_note] returns *)

Lemma quantize_note_inv (b : Q) (n q : SMTNote) :
  quantize_note b n = Returns q -> ~ b == 0 /\ q = quantized b n.
Proof.
  unfold quantize_note.
  destruct (Qeq_bool b 0) eqn:B; [discriminate|].
  destruct (fl (start_time n / b)) as [x1|] eqn:E1; [|discriminate].
  apply fl_inv in E1. subst x1.
  destruct (fl (inject_Z _)) as [kf|] eqn:E2; [|discriminate].
  apply fl_inv in E2. subst kf. fold (start_count b (start_time n)).
  destruct (fl (end_time n - start_time n)) as [od|] eqn:E3; [|discriminate].
  apply fl_inv in E3. subst od.
  destruct (fl (rnd (end_time n - start_time n) / b)) as [x2|] eqn:E4; [|discriminate].
  apply fl_inv in E4. subst x2.
  destruct (fl (inject_Z _)) as [mf|] eqn:E5; [|discriminate].
  apply fl_inv in E5. subst mf.
  fold (duration_count b (start_time n) (end_time n)).
  destruct (fl (start_count b (start_time n) * b)) as [qs|] eqn:E6; [|discriminate].
  apply fl_inv in E6. subst qs. fold (grid_start b (start_time n)).
  destruct (fl (duration_count b (start_time n) (end_time n) * b)) as [qd|] eqn:E7;
    [|discriminate].
  apply fl_inv in E7. subst qd.
  fold (grid_duration b (start_time n) (end_time n)).
  destruct (fl (grid_start b (start_time n)
                + grid_duration b (start_time n) (end_time n))) as [en|] eqn:E8;
    [|discriminate].
  apply fl_inv in E8. subst en. intros [= <-]. split; [|reflexivity].
  intros E. apply Qeq_bool_iff in E. congruence.
Qed.

Lemma quantize_note_raises (b : Q) (n : SMTNote) :
  quantize_note b n = Raises ZeroDivisionError -> b == 0.
Proof.
  unfold quantize_note.
  destruct (Qeq_bool b 0) eqn:B; [intros _; now apply Qeq_bool_iff|].
  repeat (match goal with
          | |- context [match ?x with _ => _ end] => destruct x; try discriminate
          end).
Qed.



(** The grid unit of a grid other than 0 is not 0, and that of a
    positive grid is positive. *)
Lemma beat_subdivision_inv (g : Z) (b : Q) :
  beat_subdivision g = Returns b ->
  g <> 0%Z /\ representable b /\ ~ b == 0 /\ ((0 < g)%Z -> 0 < b).
Proof.
  unfold beat_subdivision.
  destruct (fl (inject_Z g / 4)) as [p|] eqn:Ep; [|discriminate].
  destruct (Qeq_bool p 0) eqn:B; [discriminate|].
  destruct (fl (1 / p)) as [b'|] eqn:Eb; [|discriminate].
  intros [= <-].
  assert (Hp0 : ~ p == 0) by (intros E; apply Qeq_bool_iff in E; congruence).
  assert (Hfin : Qabs p < pow2 1024).
  { unfold fl in Ep. cbv zeta in Ep.
    destruct (Py.Qltb (Qabs (rnd (inject_Z g / 4))) (pow2 1024)) eqn:L; [|discriminate].
    injection Ep as <-. now apply PyFacts.Qltb_lt. }
  apply fl_inv in Ep, Eb. subst b'.
  assert (Hg : g <> 0%Z).
  { intros ->. apply Hp0. rewrite Ep. reflexivity. }
  split; [exact Hg|]. split; [apply rnd_representable|].
  assert (Hmin : representable (pow2 emin)) by (apply representable_pow2; lia).
  assert (Hsmall : pow2 emin * pow2 1024 <= 1) by (apply Qle_bool_iff; reflexivity).
  pose proof (pow2_pos emin) as Hm. pose proof (pow2_pos 1024) as H1024.
  destruct (Qlt_le_dec 0 p) as [Hpos | Hneg].
  - assert (Hinv : pow2 emin <= 1 / p).
    { apply Qle_shift_div_l; [exact Hpos|]. rewrite Qabs_pos in Hfin by lra.
      assert (pow2 emin * p <= pow2 emin * pow2 1024)
        by (apply Qmult_le_l; [exact Hm | lra]). lra. }
    pose proof (rnd_ge_representable _ _ Hmin Hinv) as Hb.
    split; [lra|]. intros _. lra.
  - assert (Hp : p < 0).
    { destruct (Qeq_dec p 0) as [E | E]; [contradiction|].
      apply Qle_lteq in Hneg. tauto. }
    assert (Hinv : 1 / p <= - pow2 emin).
    { rewrite Qabs_neg in Hfin by lra.
      assert (E : 1 / p == - (1 / - p)) by (field; lra). rewrite E.
      assert (pow2 emin <= 1 / - p).
      { apply Qle_shift_div_l; [lra|].
        assert (pow2 emin * - p <= pow2 emin * pow2 1024)
          by (apply Qmult_le_l; [exact Hm | lra]). lra. }
      lra. }
    pose proof (rnd_le_representable _ _ (representable_opp _ Hmin) Hinv) as Hb.
    split; [lra|]. intros Hgpos. exfalso.
    assert (G : 1 # 4 <= inject_Z g / 4).
    { assert (1 <= inject_Z g) by (change 1 with (inject_Z 1); rewrite <- Zle_Qle; lia).
      apply Qle_shift_div_l; [reflexivity | lra]. }
    assert (R : 1 # 4 <= p).
    { rewrite Ep. apply rnd_ge_representable; [|exact G].
      apply (representable_proper (pow2 (-2))); [reflexivity|].
      apply representable_pow2. unfold emin. lia. }
    lra.
Qed.

Lemma beat_subdivision_zero (g : Z) :
  beat_subdivision g = Raises ZeroDivisionError <-> g = 0%Z.
Proof.
  split.
  - unfold beat_subdivision.
    destruct (fl (inject_Z g / 4)) as [p|] eqn:Ep; [|discriminate].
    destruct (Qeq_bool p 0) eqn:B.
    + intros _. apply Qeq_bool_iff in B. apply fl_inv in Ep. subst p.
      destruct (Z.eq_dec g 0%Z) as [E | E]; [exact E|]. exfalso.
      assert (Hq : representable (1 # 4)).
      { apply (representable_proper (pow2 (-2))); [reflexivity|].
        apply representable_pow2. unfold emin. lia. }
      destruct (Z_lt_le_dec 0%Z g) as [Hpos | Hneg].
      * assert (G : 1 # 4 <= inject_Z g / 4).
        { assert (1 <= inject_Z g)
            by (change 1 with (inject_Z 1); rewrite <- Zle_Qle; lia).
          apply Qle_shift_div_l; [reflexivity | lra]. }
        pose proof (rnd_ge_representable _ _ Hq G). lra.
      * assert (G : inject_Z g / 4 <= - (1 # 4)).
        { assert (inject_Z g <= - 1)
            by (change (- 1) with (inject_Z (- 1)); rewrite <- Zle_Qle; lia).
          apply Qle_shift_div_r; [reflexivity | lra]. }
        pose proof (rnd_le_representable _ _ (representable_opp _ Hq) G). lra.
    + destruct (fl (1 / p)); discriminate.
  - intros ->. reflexivity.
Qed.

(** *** Idempotence, where it holds *)

Lemma quantize_notes_stable (ns : list SMTNote) (g : option Z) :
  (1 <= default quantization_grid g <= 65536)%Z ->
  Forall (Spec.times_within (pow2 32)) ns ->
  exists b,
    beat_subdivision (default quantization_grid g) = Returns b /\
    1 # 16384 <= b /\ b <= 4 /\ representable b /\
    quantize_notes ns g = Returns (map (quantized b) ns) /\
    quantize_notes (map (quantized b) ns) g = Returns (map (quantized b) ns).
Proof.
  intros Hg Hns.
  destruct (beat_subdivision_bounded _ Hg) as (b & Eb & Hr & Hred & Hlo & Hhi).
  exists b. split; [exact Eb|]. split; [exact Hlo|]. split; [exact Hhi|].
  split; [exact Hr|].
  unfold quantize_notes. cbv zeta. rewrite Eb. split.
  - apply collect_Returns. induction Hns as [|n ns [Hs He] _ IH]; constructor.
    + apply (quantize_note_stable b Hr Hred Hlo Hhi n Hs He).
    + exact IH.
  - apply collect_Returns. induction Hns as [|n ns [Hs He] _ IH]; constructor.
    + apply (quantize_note_stable b Hr Hred Hlo Hhi n Hs He).
    + exact IH.
Qed.

(** *** Binary grids *)

Lemma scale_representable (x : Q) (i : Z) :
  representable x -> (0 <= i)%Z -> representable (x * pow2 i).
Proof.
  intros (m & e & Hm & He & Ex) Hi. exists m, (e + i)%Z.
  split; [exact Hm|]. split; [lia|]. rewrite Ex, pow2_add. ring.
Qed.

Lemma units_representable (k i : Z) :
  (Z.abs k < 2 ^ 53)%Z -> (emin <= i)%Z -> representable (inject_Z k * pow2 i).
Proof. intros Hk Hi. exists k, i. split; [exact Hk|]. split; [exact Hi|]. reflexivity. Qed.

Lemma pow2_inv (i : Z) : pow2 (- i) == / pow2 i.
Proof. unfold pow2. apply Qpower_opp. Qed.

(** On a grid unit [2^i] of at most one beat, every step of
    [quantize_note] is exact. *)
Lemma quantized_binary (b : Q) (i : Z) (n : SMTNote) :
  representable b -> Qred b = b -> (-14 <= i <= 0)%Z -> b == pow2 i ->
  Spec.float_times n -> Spec.times_within (pow2 32) n ->
  Spec.on_grid b n (quantized b n).
Proof.
  intros Hr Hred Hi Eb [Fs Fe] [Hs He].
  pose proof (pow2_pos i) as Hp. pose proof (pow2_inv i) as Einv.
  assert (Hlo : 1 # 16384 <= b).
  { rewrite Eb. change (1 # 16384) with (pow2 (-14)). apply pow2_le. lia. }
  assert (Hhi : b <= 4).
  { rewrite Eb. change 4 with (pow2 2). apply pow2_le. lia. }
  assert (Hb : 0 < b) by lra.
  set (s := start_time n) in *. set (e := end_time n) in *.
  assert (Hdiv : forall x, representable x -> rnd (x / b) == x / b).
  { intros x Hx. apply rnd_exact.
    apply (representable_proper (x * pow2 (- i))).
    - rewrite Eb, Einv. field. lra.
    - apply scale_representable; [exact Hx | lia]. }
  assert (Hunits : forall z : Z, (Z.abs z < 2 ^ 53)%Z ->
                                 rnd (inject_Z z * b) == inject_Z z * b).
  { intros z Hz. apply rnd_exact.
    apply (representable_proper (inject_Z z * pow2 i)); [now rewrite Eb|].
    apply units_representable; [exact Hz | unfold emin; lia]. }
  (* the counts of the first pass *)
  destruct (count_bound b Hlo s (2 ^ 32)) as [Hk _]; [lia | lia | exact Hs |].
  assert (Hd : Qabs (e - s) <= inject_Z (2 ^ 33)).
  { apply Qabs_Qle_condition in Hs as [? ?]. apply Qabs_Qle_condition in He as [? ?].
    change (pow2 32) with 4294967296 in *. change (inject_Z (2 ^ 33)) with 8589934592.
    apply Qabs_bounds; lra. }
  assert (Hod : Qabs (rnd (e - s)) <= inject_Z (2 ^ 33)).
  { apply rnd_abs_le; [apply representable_Z; lia | exact Hd]. }
  destruct (count_bound b Hlo (rnd (e - s)) (2 ^ 33)) as [Hm _];
    [lia | lia | exact Hod |].
  change (2 ^ 32 * 16384)%Z with (2 ^ 46)%Z in *.
  change (2 ^ 33 * 16384)%Z with (2 ^ 47)%Z in *.
  set (k := Py.round (rnd (s / b))) in *.
  set (m := Py.round (rnd (rnd (e - s) / b))) in *.
  assert (Hk' : (Z.abs k <= 2 ^ 47)%Z) by lia.
  destruct (grid_point b Hlo k Hk') as (Gs & _).
  destruct (grid_duration_units b Hr Hred Hlo s e m eq_refl Hm) as (Gd & _).
  set (M := Z.max m 1) in *.
  assert (Es : grid_start b s == inject_Z k * b).
  { unfold grid_start, start_count. fold k. rewrite Gs. apply Hunits. lia. }
  assert (Ed : grid_duration b s e == inject_Z M * b).
  { rewrite Gd. apply Hunits. lia. }
  assert (Ee : rnd (grid_start b s + grid_duration b s e)
               == inject_Z (k + M) * b).
  { assert (E1 : grid_start b s + grid_duration b s e == inject_Z (k + M) * b).
    { rewrite Es, Ed, inject_Z_plus. ring. }
    rewrite (rnd_proper _ _ E1). apply Hunits. lia. }
  exists k, M. unfold quantized. cbn [start_time end_time]. fold s e.
  split; [lia|]. split; [exact Es|]. split.
  - rewrite Ee, Es, inject_Z_plus. ring.
  - assert (Ek : k = Py.round (s / b)).
    { unfold k. apply PyFacts.round_proper. now apply Hdiv. }
    destruct (round_half (s / b)) as [H1 H2]. rewrite <- Ek in H1, H2.
    assert (E : grid_start b s - s == (inject_Z k - s / b) * b).
    { rewrite Es. field. lra. }
    rewrite E.
    assert (A : (- (1 # 2)) * b <= (inject_Z k - s / b) * b)
      by (apply Qmult_le_compat_r; lra).
    assert (B : (inject_Z k - s / b) * b <= (1 # 2) * b)
      by (apply Qmult_le_compat_r; lra).
    assert (Ehalf : b / 2 == (1 # 2) * b) by field.
    rewrite Ehalf. apply Qabs_bounds; lra.
Qed.

Lemma beat_subdivision_binary (j : Z) :
  (2 <= j <= 16)%Z ->
  exists b, beat_subdivision (2 ^ j) = Returns b /\
            representable b /\ Qred b = b /\ b == pow2 (2 - j) /\
            b == 4 / inject_Z (2 ^ j).
Proof.
  intros Hj.
  assert (Hg : (1 <= 2 ^ j <= 65536)%Z).
  { split.
    - assert (0 < 2 ^ j)%Z by (apply Z.pow_pos_nonneg; lia). lia.
    - change 65536%Z with (2 ^ 16)%Z. apply Z.pow_le_mono_r; lia. }
  assert (Ej : inject_Z (2 ^ j) == pow2 j) by (symmetry; apply pow2_inject; lia).
  pose proof (pow2_pos j) as Hpj.
  assert (E4 : 4 / inject_Z (2 ^ j) == pow2 (2 - j)).
  { rewrite Ej, pow2_sub. reflexivity. }
  unfold beat_subdivision.
  assert (Ep : rnd (inject_Z (2 ^ j) / 4) == inject_Z (2 ^ j) / 4)
    by (apply per_beat_exact; lia).
  assert (Hq : inject_Z (2 ^ j) / 4 == inject_Z (2 ^ j) * (1 # 4)) by field.
  assert (Sp : small (inject_Z (2 ^ j) / 4)).
  { apply (small_le _ 16384); [|apply Qle_bool_iff; reflexivity].
    assert (inject_Z (2 ^ j) <= 65536)
      by (change 65536 with (inject_Z 65536); rewrite <- Zle_Qle; lia).
    apply Qabs_bounds; lra. }
  rewrite (fl_small _ Sp).
  destruct (Qeq_bool (rnd (inject_Z (2 ^ j) / 4)) 0) eqn:B.
  { apply Qeq_bool_iff in B. lra. }
  assert (E1 : 1 / rnd (inject_Z (2 ^ j) / 4) == pow2 (2 - j)).
  { rewrite Ep, <- E4. field. lra. }
  assert (Eb : rnd (1 / rnd (inject_Z (2 ^ j) / 4)) == pow2 (2 - j)).
  { rewrite (rnd_proper _ _ E1). apply rnd_exact, representable_pow2.
    unfold emin. lia. }
  assert (Sb : small (1 / rnd (inject_Z (2 ^ j) / 4))).
  { apply (small_le _ 4); [|apply Qle_bool_iff; reflexivity].
    rewrite E1, Qabs_pos by apply Qlt_le_weak, pow2_pos.
    change 4 with (pow2 2). apply pow2_le. lia. }
  rewrite (fl_small _ Sb). eexists. split; [reflexivity|].
  split; [apply rnd_representable|]. split; [apply rnd_reduced|].
  split; [exact Eb|]. now rewrite Eb, E4.
Qed.

(** *** Quantizing twice *)

(** C4, as stated, at a start time of [2^51 + 0.5] beats with the
    default grid 16.  The note has no length, so its duration is
    clamped to one grid unit, 0.25 beat, and named [sixteenth]; but
    floats are 0.5 apart there, and the end [start + 0.25] is rounded
    up to [start + 0.5].  The second pass finds a note of 0.5 beat and
    names it [eighth]. *)
Lemma quantize_twice_differs :
  exists q1 q2,
    quantize_notes
      [mkNote 60 2251799813685248.5 2251799813685248.5 80 "C4" "sixteenth" "mf"]
      None = Returns [q1] /\
    quantize_notes [q1] None = Returns [q2] /\
    duration_name q1 = "sixteenth"%string /\
    duration_name q2 = "eighth"%string /\
    q2 <> q1.
Proof.
  eexists. eexists. split; [vm_compute; reflexivity|].
  split; [vm_compute; reflexivity|].
  split; [reflexivity|]. split; [reflexivity|]. discriminate.
Qed.

(** C4, as the code has it.  For a grid from 1 to 65536 and notes
    whose times lie within [2^32] beats of 0, [quantize_notes]
    returns, and applied to its own output with the same grid it
    returns that output again, every field included. *)
Theorem quantize_notes_idempotent (ns : list SMTNote) (g : option Z) :
  (1 <= default quantization_grid g <= 65536)%Z ->
  Forall (Spec.times_within (pow2 32)) ns ->
  exists out,
    quantize_notes ns g = Returns out /\
    length out = length ns /\
    quantize_notes out g = Returns out.
Proof.
  intros Hg Hns.
  destruct (quantize_notes_stable ns g Hg Hns) as (b & _ & _ & _ & _ & E1 & E2).
  exists (map (quantized b) ns). split; [exact E1|].
  split; [apply length_map | exact E2].
Qed.

Lemma quantize_notes_idempotent_witness :
  exists out,
    quantize_notes [mkNote 60 0.1 0.9 80 "C4" "quarter" "mf";
                    mkNote 62 1.3 1.35 70 "D4" "sixteenth" "mf"] None
    = Returns out /\
    length out = 2%nat /\
    quantize_notes out None = Returns out.
Proof.
  apply (quantize_notes_idempotent
           [mkNote 60 0.1 0.9 80 "C4" "quarter" "mf";
            mkNote 62 1.3 1.35 70 "D4" "sixteenth" "mf"] None).
  - change (1 <= 16 <= 65536)%Z. lia.
  - constructor; [|constructor; [|constructor]];
      split; cbn; apply Qle_bool_iff; reflexivity.
Defined.

End MidiFloatFacts.

(** ** The vocabulary *)

Module VocabFacts.
Import Vocabulary Spec.

Lemma memb_elem_of (x : string) (l : list string) :
  Spec.memb x l = true <-> x ∈ l.
Proof.
  induction l as [|y l IH]; simpl.
  - split; [discriminate | intros H; inversion H].
  - rewrite orb_true_iff, IH, String.eqb_eq, elem_of_cons. reflexivity.
Qed.

Lemma nodupb_NoDup (l : list string) : Spec.nodupb l = true -> NoDup l.
Proof.
  induction l as [|x l IH]; simpl; intros H.
  - constructor.
  - apply andb_true_iff in H as [Hx Hl]. constructor.
    + rewrite <- memb_elem_of. now destruct (Spec.memb x l).
    + now apply IH.
Qed.

(** *** The dictionary comprehension of [_build_mappings] *)

Lemma enumerate_snoc {A} (l : list A) (x : A) :
  enumerate (l ++ [x]) = enumerate l ++ [(Z.of_nat (length l), x)].
Proof.
  unfold enumerate. rewrite imap_app. simpl.
  now rewrite Nat.add_0_r.
Qed.

Lemma build_token_to_id_snoc (l : list string) (x : string) :
  build_token_to_id (l ++ [x])
  = <[x := Z.of_nat (length l)]> (build_token_to_id l).
Proof.
  unfold build_token_to_id. now rewrite enumerate_snoc, foldl_app.
Qed.

(** An id stored for a token is a position of that token. *)
Lemma build_token_to_id_sound (l : list string) (t : string) (z : Z) :
  build_token_to_id l !! t = Some z ->
  exists i : nat, z = Z.of_nat i /\ l !! i = Some t.
Proof.
  induction l as [|x l IH] using rev_ind; intros H.
  - unfold build_token_to_id in H. simpl in H. now rewrite lookup_empty in H.
  - rewrite build_token_to_id_snoc in H.
    destruct (decide (x = t)) as [->|Hne].
    + rewrite lookup_insert_eq in H. injection H as <-.
      exists (length l). split; [reflexivity|].
      rewrite lookup_app_r by lia. now rewrite Nat.sub_diag.
    + rewrite lookup_insert_ne in H by exact Hne.
      destruct (IH H) as (i & -> & Hi). exists i. split; [reflexivity|].
      now apply lookup_app_l_Some.
Qed.

(** The id of a token is its last position. *)
Lemma build_token_to_id_last (l1 l2 : list string) (t : string) :
  t ∉ l2 ->
  build_token_to_id (l1 ++ t :: l2) !! t = Some (Z.of_nat (length l1)).
Proof.
  induction l2 as [|x l2 IH] using rev_ind; intros Hnot.
  - rewrite build_token_to_id_snoc. apply lookup_insert_eq.
  - assert (Hx : x <> t) by (intros ->; apply Hnot; set_solver).
    assert (Hl2 : t ∉ l2) by set_solver.
    replace (l1 ++ t :: l2 ++ [x]) with ((l1 ++ t :: l2) ++ [x])
      by (now rewrite <- app_assoc).
    rewrite build_token_to_id_snoc, lookup_insert_ne by exact Hx.
    now apply IH.
Qed.

Lemma build_token_to_id_NoDup (l : list string) (i : nat) (t : string) :
  NoDup l -> l !! i = Some t ->
  build_token_to_id l !! t = Some (Z.of_nat i).
Proof.
  intros Hnd Hi.
  pose proof (take_drop_middle l i t Hi) as Hsplit.
  rewrite <- Hsplit in Hnd |- *.
  apply NoDup_app in Hnd as (_ & _ & Hnd).
  apply NoDup_cons in Hnd as [Hnot _].
  rewrite build_token_to_id_last by exact Hnot.
  f_equal. f_equal. rewrite length_take.
  apply lookup_lt_Some in Hi. lia.
Qed.

Lemma build_token_to_id_injective (l : list string) (t1 t2 : string) (z : Z) :
  build_token_to_id l !! t1 = Some z ->
  build_token_to_id l !! t2 = Some z -> t1 = t2.
Proof.
  intros H1 H2.
  apply build_token_to_id_sound in H1 as (i & -> & Hi).
  apply build_token_to_id_sound in H2 as (j & Hj & Hj').
  apply Nat2Z.inj in Hj. subst j. congruence.
Qed.

(** [id_to_token] is the inverse of an injective [token_to_id]. *)
Lemma build_id_to_token_lookup (m : gmap string Z) (z : Z) (t : string) :
  (forall t1 t2 z', m !! t1 = Some z' -> m !! t2 = Some z' -> t1 = t2) ->
  build_id_to_token m !! z = Some t <-> m !! t = Some z.
Proof.
  intros Hinj. unfold build_id_to_token.
  rewrite <- elem_of_list_to_map.
  - rewrite list_elem_of_fmap. split.
    + intros ([t' z'] & Heq & Hin). simpl in Heq. injection Heq as -> ->.
      now apply elem_of_map_to_list in Hin.
    + intros H. exists (t, z). split; [reflexivity|].
      now apply elem_of_map_to_list.
  - rewrite <- list_fmap_compose.
    apply NoDup_fmap_2_strong; [|apply NoDup_map_to_list].
    intros [t1 z1] [t2 z2] H1 H2 Heq. simpl in Heq. subst z2.
    apply elem_of_map_to_list in H1, H2.
    now rewrite (Hinj _ _ _ H1 H2).
Qed.

(** *** The shape of the built token list *)

Lemma extends_refl P v : extends P v v.
Proof. exists []. split; [now rewrite app_nil_r | constructor]. Qed.

Lemma extends_trans P v1 v2 v3 :
  extends P v1 v2 -> extends P v2 v3 -> extends P v1 v3.
Proof.
  intros (e1 & -> & H1) (e2 & -> & H2). exists (e1 ++ e2).
  split; [now rewrite app_assoc | now apply Forall_app].
Qed.

Lemma extends_snoc (P : string -> Prop) v t : P t -> extends P v (v ++ [t]).
Proof. intros H. exists [t]. split; [reflexivity | now constructor]. Qed.

Lemma foldl_extends {S B} (proj : S -> list string) (P : string -> Prop)
      (f : S -> B -> S) (l : list B) :
  (forall s b, extends P (proj s) (proj (f s b))) ->
  forall s, extends P (proj s) (proj (foldl f s l)).
Proof.
  intros Hstep. induction l as [|b l IH]; intros s; simpl.
  - apply extends_refl.
  - eapply extends_trans; [apply Hstep | apply IH].
Qed.

Lemma add_note_tokens_extends cfg v :
  extends unbracketed v (_add_note_tokens cfg v).
Proof.
  unfold _add_note_tokens.
  refine (foldl_extends (fun st : list string * Z => fst st)
            unbracketed _ (_get_pitch_names cfg) _ (v, 0)).
  intros st pitch.
  apply (foldl_extends (fun st : list string * Z => fst st)).
  intros st' duration.
  apply (foldl_extends (fun st : list string * Z => fst st)).
  intros [vocab count] dynamic. simpl.
  destruct (count <? default 2000 (max_vocab_size cfg) - 200).
  - simpl. now apply extends_snoc.
  - apply extends_refl.
Qed.

Lemma add_rest_tokens_extends cfg v :
  extends unbracketed v (_add_rest_tokens cfg v).
Proof.
  unfold _add_rest_tokens.
  apply (foldl_extends (fun st : list string => st)).
  intros st duration. now apply extends_snoc.
Qed.

Lemma add_pattern_tokens_extends cfg v :
  extends unbracketed v (_add_pattern_tokens cfg v).
Proof.
  unfold _add_pattern_tokens.
  apply (foldl_extends (fun st : list string => st)).
  intros st item.
  apply (foldl_extends (fun st : list string => st)).
  intros st' pattern. now apply extends_snoc.
Qed.

Lemma Forall_unbracketed_fixed :
  Forall unbracketed structural_tokens /\ Forall unbracketed control_tokens.
Proof. split; repeat constructor. Qed.

(** The built list is the six special tokens followed by tokens that
    do not start with a bracket. *)
Lemma build_vocab_list_shape cfg :
  extends unbracketed special_tokens (build_vocab_list cfg).
Proof.
  unfold build_vocab_list, _add_control_tokens, _add_structural_tokens,
    _add_special_tokens. rewrite app_nil_l.
  destruct Forall_unbracketed_fixed as [Hs Hc].
  eapply extends_trans; [|exists control_tokens; split; [reflexivity | exact Hc]].
  eapply extends_trans; [|apply add_pattern_tokens_extends].
  eapply extends_trans; [|apply add_rest_tokens_extends].
  eapply extends_trans; [|apply add_note_tokens_extends].
  exists structural_tokens. split; [reflexivity | exact Hs].
Qed.

(** Whatever the configuration, the special tokens keep the ids 0..5. *)
Lemma special_token_id cfg (i : nat) (t : string) :
  special_tokens !! i = Some t ->
  token_to_id (_build_vocabulary cfg) !! t = Some (Z.of_nat i).
Proof.
  intros Hi. cbn [token_to_id _build_vocabulary].
  destruct (build_vocab_list_shape cfg) as (ext & -> & Hext).
  assert (Hnd : NoDup special_tokens) by (apply nodupb_NoDup; reflexivity).
  assert (Hb : Py.startswith "[" t = true).
  { apply list_elem_of_lookup_2 in Hi. unfold special_tokens in Hi.
    repeat (apply elem_of_cons in Hi as [-> | Hi]; [reflexivity|]).
    inversion Hi. }
  pose proof (take_drop_middle special_tokens i t Hi) as Hsplit.
  assert (Hlen : length (take i special_tokens) = i).
  { rewrite length_take. apply lookup_lt_Some in Hi. lia. }
  remember (take i special_tokens) as l1 eqn:E1.
  remember (drop (S i) special_tokens) as l2 eqn:E2.
  clear E1 E2. rewrite <- Hsplit in Hnd |- *. rewrite <- Hlen.
  rewrite <- app_assoc. change ((t :: l2) ++ ext) with (t :: (l2 ++ ext)).
  apply build_token_to_id_last.
  rewrite not_elem_of_app. split.
  - apply NoDup_app in Hnd as (_ & _ & Hnd).
    now apply NoDup_cons in Hnd as [Hnot _].
  - intros Hin. rewrite Forall_forall in Hext. specialize (Hext _ Hin).
    unfold unbracketed in Hext. congruence.
Qed.

Lemma unk_id cfg : token_to_id (_build_vocabulary cfg) !! "[UNK]"%string = Some 4.
Proof. apply (special_token_id cfg 4). reflexivity. Qed.

(** [encode_token] never raises on a built vocabulary. *)
Lemma encode_token_total cfg (t : string) :
  encode_token (_build_vocabulary cfg) t
  = Some (default 4 (token_to_id (_build_vocabulary cfg) !! t)).
Proof. unfold encode_token. now rewrite unk_id. Qed.

Lemma encode_tokens_total cfg (ts : list string) :
  encode_tokens (_build_vocabulary cfg) ts
  = Some (map (fun t => default 4 (token_to_id (_build_vocabulary cfg) !! t)) ts).
Proof.
  unfold encode_tokens. induction ts as [|t ts IH].
  - reflexivity.
  - cbn [mapM]. rewrite encode_token_total, IH. reflexivity.
Qed.

(** *** The bijection, for a token list without repetition *)

Lemma bijection_of_NoDup cfg (t : string) (i : Z) :
  NoDup (build_vocab_list cfg) ->
  let v := _build_vocabulary cfg in
  (t ∈ vocab v ->
     exists k, encode_token v t = Some k /\ 0 <= k < size v /\
               decode_token v k = t) /\
  (0 <= i < size v ->
     decode_token v i ∈ vocab v /\
     encode_token v (decode_token v i) = Some i).
Proof.
  intros Hnd v.
  assert (Hlook : forall (n : nat) (t' : string),
             vocab v !! n = Some t' ->
             encode_token v t' = Some (Z.of_nat n) /\
             decode_token v (Z.of_nat n) = t').
  { intros n t' Hn. subst v. rewrite encode_token_total.
    pose proof (build_token_to_id_NoDup _ _ _ Hnd Hn) as Hid.
    cbn [token_to_id vocab _build_vocabulary] in *. rewrite Hid. split; [reflexivity|].
    unfold decode_token. cbn [id_to_token _build_vocabulary].
    apply (build_id_to_token_lookup _ _ _ (build_token_to_id_injective _)) in Hid.
    now rewrite Hid. }
  split.
  - intros Hin. apply list_elem_of_lookup in Hin as [n Hn].
    destruct (Hlook n t Hn) as [He Hd]. exists (Z.of_nat n).
    repeat split; try assumption; try lia.
    apply lookup_lt_Some in Hn. unfold size, Py.len. lia.
  - intros Hi. unfold size, Py.len in Hi.
    destruct (lookup_lt_is_Some_2 (vocab v) (Z.to_nat i)) as [t' Hn]; [lia|].
    destruct (Hlook _ _ Hn) as [He Hd].
    rewrite Z2Nat.id in He, Hd by lia. rewrite Hd. split; [|exact He].
    eapply list_elem_of_lookup_2. exact Hn.
Qed.

Lemma default_vocab_NoDup : NoDup (build_vocab_list _default_config).
Proof. apply nodupb_NoDup. vm_compute. reflexivity. Qed.

(** C2.  On the vocabulary built from the default configuration,
    every token [t] of the vocabulary is encoded to an id [k] in
    [0..size-1] that decodes back to [t], and every id [i] in
    [0..size-1] decodes to a token of the vocabulary that encodes back
    to [i]: [token_to_id] and [id_to_token] are inverse bijections
    between the tokens and the ids. *)
Theorem default_vocabulary_bijection (t : string) (i : Z) :
  (t ∈ vocab (new None) ->
     exists k, encode_token (new None) t = Some k /\
               0 <= k < size (new None) /\
               decode_token (new None) k = t) /\
  (0 <= i < size (new None) ->
     decode_token (new None) i ∈ vocab (new None) /\
     encode_token (new None) (decode_token (new None) i) = Some i).
Proof. exact (bijection_of_NoDup _default_config t i default_vocab_NoDup). Qed.

Lemma default_vocabulary_bijection_witness :
  (exists k, encode_token (new None) "BAR" = Some k /\
             0 <= k < size (new None) /\
             decode_token (new None) k = "BAR"%string) /\
  (decode_token (new None) 6 ∈ vocab (new None) /\
   encode_token (new None) (decode_token (new None) 6) = Some 6).
Proof.
  destruct (default_vocabulary_bijection "BAR" 6) as [H1 H2]. split.
  - apply H1. apply (list_elem_of_lookup_2 _ 6%nat). vm_compute. reflexivity.
  - apply H2. vm_compute. split; [discriminate | reflexivity].
Defined.

(** The default vocabulary has 1860 tokens: 6 special, 8 structural,
    1800 note, 7 rest, 16 pattern and 23 control tokens. *)
Lemma default_vocabulary_size : size (new None) = 1860.
Proof. vm_compute. reflexivity. Qed.

(** C9, as the code has it.  [_add_control_tokens] appends the fixed
    catalog of control tokens, which holds 23 distinct tokens: 4 tempo,
    8 key, 4 time-signature, 3 style and 4 articulation labels. *)
Theorem control_token_family_size (v : list string) :
  _add_control_tokens v = v ++ control_tokens /\
  length (_add_control_tokens v) = (length v + 23)%nat /\
  NoDup control_tokens.
Proof.
  split; [reflexivity|]. split.
  - unfold _add_control_tokens. now rewrite length_app.
  - apply nodupb_NoDup. reflexivity.
Qed.

(** C9, as stated: the family added to an empty vocabulary does not
    have 24 tokens. *)
Lemma control_token_family_not_24 :
  length (_add_control_tokens []) <> 24%nat.
Proof. simpl. discriminate. Qed.

End VocabFacts.

(** ** The tokenizer *)

Module TokenizerFacts.
Import MidiUtils Tokenizer PyFacts.

(** *** Strings *)

Lemma split_not_nil (sep : ascii) (s : string) : Py.split sep s <> [].
Proof.
  destruct s as [|c s]; simpl; [discriminate|].
  destruct (Ascii.eqb c sep); [discriminate|].
  destruct (Py.split sep s); discriminate.
Qed.

Lemma split_cons_other (sep c : ascii) (s : string) :
  Ascii.eqb c sep = false ->
  exists h t, Py.split sep s = h :: t /\ Py.split sep (String c s) = String c h :: t.
Proof.
  intros Hc. simpl. rewrite Hc.
  destruct (Py.split sep s) as [|h t] eqn:E.
  - now apply split_not_nil in E.
  - now exists h, t.
Qed.

Lemma startswith_NOTE (token : string) :
  Py.startswith "NOTE_" token = true ->
  exists r, token = ("NOTE_" +:+ r)%string.
Proof.
  unfold Py.startswith.
  destruct token as [|c1 [|c2 [|c3 [|c4 [|c5 r]]]]]; cbn [String.prefix];
    repeat (match goal with
            | |- context [ascii_dec ?a ?b] => destruct (ascii_dec a b); [subst|]
            end); try discriminate.
  intros _. now exists r.
Qed.

Lemma split_NOTE (r : string) :
  Py.split "_" ("NOTE_" +:+ r) = "NOTE"%string :: Py.split "_" r.
Proof.
  change ("NOTE_" +:+ r)%string
    with (String "N" (String "O" (String "T" (String "E" (String "_" r))))).
  destruct (split_cons_other "_" "E" (String "_" r) eq_refl) as (h1 & t1 & E1 & E1').
  destruct (split_cons_other "_" "T" (String "E" (String "_" r)) eq_refl)
    as (h2 & t2 & E2 & E2').
  destruct (split_cons_other "_" "O" (String "T" (String "E" (String "_" r))) eq_refl)
    as (h3 & t3 & E3 & E3').
  destruct (split_cons_other "_" "N"
              (String "O" (String "T" (String "E" (String "_" r)))) eq_refl)
    as (h4 & t4 & E4 & E4').
  rewrite E4'. rewrite E3' in E4. injection E4 as <- <-.
  rewrite E2' in E3. injection E3 as <- <-.
  rewrite E1' in E2. injection E2 as <- <-.
  change (Py.split "_" (String "_" r)) with (EmptyString :: Py.split "_" r) in E1.
  injection E1 as <- <-. reflexivity.
Qed.

(** *** Decoding one token *)

(** A token with the [NOTE_] prefix reaches the note branch of the
    decoder. *)
Lemma decode_step_note_branch cfg st (token : string) :
  Py.startswith "NOTE_" token = true ->
  decode_step cfg st token =
  match _parse_note_token token (dec_current_time st) with
  | Some note =>
      {| dec_notes := dec_notes st ++ [note];
         dec_current_time := end_time note;
         dec_current_bar := dec_current_bar st |}
  | None => st
  end.
Proof.
  intros H. destruct (startswith_NOTE _ H) as [r ->].
  assert (E1 : String.eqb ("NOTE_" +:+ r) "BAR" = false) by reflexivity.
  assert (E2 : Py.startswith "REST_" ("NOTE_" +:+ r) = false) by reflexivity.
  unfold decode_step. rewrite E1, E2, H.
  rewrite bool_decide_eq_false_2; [reflexivity|].
  intros Hin. repeat (apply elem_of_cons in Hin as [Hin | Hin]; [discriminate|]).
  inversion Hin.
Qed.

Lemma duration_name_to_beats_pos (name : string) :
  (0 < _duration_name_to_beats name)%Q.
Proof.
  unfold _duration_name_to_beats, duration_beats_map. cbn [Py.assoc].
  repeat (match goal with
          | |- context [String.eqb ?a ?b] => destruct (String.eqb a b)
          end; [reflexivity|]).
  reflexivity.
Qed.

(** [_parse_note_token] in terms of the split of the token. *)
Lemma parse_note_token_split (token : string) (start : Q) :
  Py.startswith "NOTE_" token = true ->
  _parse_note_token token start =
  match Py.split "_" token with
  | [_; p1; p2; p3] =>
      pitch ← _pitch_name_to_midi p1;
      Some {| pitch := pitch;
              start_time := start;
              end_time := (start + _duration_name_to_beats p2)%Q;
              velocity := _dynamic_to_velocity p3;
              pitch_name := p1;
              duration_name := p2;
              dynamic_name := p3 |}
  | _ => None
  end.
Proof.
  intros H. destruct (startswith_NOTE _ H) as [r ->].
  unfold _parse_note_token. rewrite split_NOTE.
  destruct (Py.split "_" r) as [|p1 [|p2 [|p3 [|]]]]; try reflexivity.
Qed.

Lemma foldl_invariant {S B} (P : S -> Prop) (f : S -> B -> S) (l : list B) :
  (forall s x, P s -> P (f s x)) -> forall s, P s -> P (foldl f s l).
Proof.
  intros Hstep. induction l as [|x l IH]; intros s Hs; simpl; [exact Hs|].
  apply IH, Hstep, Hs.
Qed.

(** What one decoding step does to the note list: nothing, or one
    parsed note appended. *)
Lemma decode_step_notes cfg st (token : string) :
  dec_notes (decode_step cfg st token) = dec_notes st \/
  exists n, _parse_note_token token (dec_current_time st) = Some n /\
            dec_notes (decode_step cfg st token) = dec_notes st ++ [n].
Proof.
  unfold decode_step.
  destruct (bool_decide _); [now left|].
  destruct (String.eqb token "BAR"); [now left|].
  destruct (Py.startswith "REST_" token); [now left|].
  destruct (Py.startswith "NOTE_" token); [|destruct (Py.startswith _ _); now left].
  destruct (_parse_note_token token (dec_current_time st)) as [n|]; [|now left].
  right. now exists n.
Qed.

(** C7, as the code has it.  When the decoder meets a token with the
    [NOTE_] prefix:
    - if the token does not split into exactly four fields, or its
      pitch name is not recognized ([_pitch_name_to_midi] raises), the
      token is skipped: the decoder state is unchanged and decoding
      goes on with the remaining tokens;
    - otherwise a note is emitted, whatever the dynamic name: its
      velocity is the table entry of the dynamic name, or the default
      65 (mf) when the name is not in the table. *)
Theorem note_token_skipped_or_defaulted cfg st (token : string) :
  Py.startswith "NOTE_" token = true ->
  match Py.split "_" token with
  | [_; p1; p2; p3] =>
      match _pitch_name_to_midi p1 with
      | None => decode_step cfg st token = st
      | Some p =>
          exists n,
            decode_step cfg st token =
              {| dec_notes := dec_notes st ++ [n];
                 dec_current_time := end_time n;
                 dec_current_bar := dec_current_bar st |} /\
            pitch n = p /\ pitch_name n = p1 /\ dynamic_name n = p3 /\
            velocity n = default 65 (Py.assoc p3 dynamic_map)
      end
  | _ => decode_step cfg st token = st
  end.
Proof.
  intros H.
  rewrite (decode_step_note_branch cfg st token H).
  rewrite (parse_note_token_split token (dec_current_time st) H).
  destruct (Py.split "_" token) as [|p0 [|p1 [|p2 [|p3 [|]]]]]; try reflexivity.
  destruct (_pitch_name_to_midi p1) as [p|]; [|reflexivity].
  cbn [mbind option_bind]. eexists. split; [reflexivity|].
  cbn [pitch pitch_name dynamic_name velocity]. now repeat split.
Qed.

Lemma note_token_skipped_or_defaulted_witness :
  decode_step default_midi_config dec_init "NOTE_X99_quarter_mf" = dec_init.
Proof.
  exact (note_token_skipped_or_defaulted default_midi_config dec_init
           "NOTE_X99_quarter_mf" eq_refl).
Defined.

(** A skipped token leaves no trace in the decoded list. *)
Lemma tokens_to_notes_skip cfg (pre post : list string) (token : string) :
  (forall st, decode_step cfg st token = st) ->
  _tokens_to_notes cfg (pre ++ token :: post) = _tokens_to_notes cfg (pre ++ post).
Proof.
  intros Hskip. unfold _tokens_to_notes.
  rewrite !foldl_app. cbn [foldl]. now rewrite Hskip.
Qed.

(** C7, as stated: a [NOTE] token whose dynamic name is not in the
    table still produces a note (with velocity 65). *)
Lemma unknown_dynamic_still_decoded :
  Py.assoc "xyz" dynamic_map = None /\
  map (fun n => (pitch n, velocity n, dynamic_name n))
      (_tokens_to_notes default_midi_config ["NOTE_C4_quarter_xyz"%string])
  = [(60, 65, "xyz"%string)].
Proof. split; reflexivity. Qed.

(** *** [BAR] markers *)

Lemma bar_loop_tokens (fuel : nat) (bpb start : Q) st st' :
  bar_loop fuel bpb start st = Some st' ->
  exists k, fst st' = fst st ++ repeat "BAR"%string k.
Proof.
  revert st. induction fuel as [|fuel IH]; intros st; simpl.
  - destruct (Py.Qleb (snd st + bpb) start); [discriminate|].
    intros [= <-]. exists O. now rewrite app_nil_r.
  - destruct (Py.Qleb (snd st + bpb) start).
    + intros H. apply IH in H as [k Hk]. exists (S k).
      rewrite Hk. cbn [fst repeat]. now rewrite <- app_assoc.
    + intros [= <-]. exists O. now rewrite app_nil_r.
Qed.

(** With a positive [beats_per_bar] the loop runs out of bars before it
    runs out of fuel. *)
Lemma bar_loop_enough_fuel (fuel : nat) (bpb start : Q) st :
  (0 < bpb)%Q ->
  ((start - snd st) / bpb < inject_Z (Z.of_nat fuel) + 1)%Q ->
  exists st', bar_loop fuel bpb start st = Some st'.
Proof.
  intros Hb. revert st. induction fuel as [|fuel IH]; intros st Hlt; simpl.
  - destruct (Py.Qleb (snd st + bpb) start) eqn:E; [|eauto].
    apply Qleb_le in E. exfalso.
    assert (H1 : (1 <= (start - snd st) / bpb)%Q).
    { apply Qle_shift_div_l; [exact Hb | lra]. }
    change (inject_Z (Z.of_nat 0)) with 0%Q in Hlt. lra.
  - destruct (Py.Qleb (snd st + bpb) start) eqn:E; [|eauto].
    apply IH. cbn [snd].
    rewrite Nat2Z.inj_succ, <- Z.add_1_r, inject_Z_plus in Hlt.
    assert (H1 : ((start - (snd st + bpb)) / bpb == (start - snd st) / bpb - 1)%Q).
    { field. lra. }
    rewrite H1. change (inject_Z 1) with 1%Q in Hlt. lra.
Qed.

Lemma bar_loop_total (bpb start cbs : Q) (toks : list string) :
  (0 < bpb)%Q ->
  exists st', bar_loop (bar_fuel bpb start cbs) bpb start (toks, cbs) = Some st'.
Proof.
  intros Hb. apply bar_loop_enough_fuel; [exact Hb|]. cbn [snd].
  unfold bar_fuel. rewrite (proj2 (Qltb_lt 0 bpb) Hb).
  set (x := ((start - cbs) / bpb)%Q).
  pose proof (Qlt_floor x) as Hfl.
  destruct (Z.le_gt_cases 0 (Qfloor x)) as [Hpos | Hneg].
  - rewrite Z2Nat.id by exact Hpos.
    rewrite inject_Z_plus in Hfl. exact Hfl.
  - replace (Z.to_nat (Qfloor x)) with O by lia.
    change (inject_Z (Z.of_nat 0)) with 0%Q.
    rewrite inject_Z_plus in Hfl. change (inject_Z 1) with 1%Q in Hfl.
    assert (Hle : (inject_Z (Qfloor x) <= inject_Z (-1))%Q)
      by (rewrite <- Zle_Qle; lia).
    change (inject_Z (-1)) with (-1)%Q in Hle. lra.
Qed.

(** *** The rest token *)




(** *** The empty note list *)

(** C8.  Whatever the vocabulary and MIDI configurations,
    [encode_notes] on the empty list returns the tokens [[BOS]] and
    [[EOS]], their ids (1 and 2, the ids [encode_token] gives them), the
    metadata [num_notes = 0] and [duration = 0.0], and no notes.
    Neither quantization nor the encoding loop is involved: the result
    is the same for a grid of 0, for which quantization raises. *)
Theorem encode_notes_empty (vocab_config : option Vocabulary.Config)
        (midi_cfg : option MidiConfig) (source_info : string) :
  let t := new vocab_config midi_cfg in
  encode_notes t [] source_info =
    Some {| tokens := ["[BOS]"; "[EOS]"]%string;
            token_ids := [1; 2];
            metadata := [("num_notes"%string, MInt 0);
                         ("duration"%string, MFloat 0.0)];
            notes := [] |} /\
  Vocabulary.encode_token (vocabulary t) "[BOS]" = Some 1 /\
  Vocabulary.encode_token (vocabulary t) "[EOS]" = Some 2.
Proof.
  intros t.
  assert (Hbos : Vocabulary.encode_token (vocabulary t) "[BOS]" = Some 1).
  { subst t. cbn [vocabulary new]. unfold Vocabulary.new.
    rewrite VocabFacts.encode_token_total.
    now rewrite (VocabFacts.special_token_id _ 1 "[BOS]" eq_refl). }
  assert (Heos : Vocabulary.encode_token (vocabulary t) "[EOS]" = Some 2).
  { subst t. cbn [vocabulary new]. unfold Vocabulary.new.
    rewrite VocabFacts.encode_token_total.
    now rewrite (VocabFacts.special_token_id _ 2 "[EOS]" eq_refl). }
  split; [|split; assumption].
  unfold encode_notes. rewrite Hbos, Heos. reflexivity.
Qed.

(** With a grid of 0 any non-empty input makes [encode_notes] raise,
    which the empty input does not. *)
Lemma encode_notes_grid_zero_raises (vocab_config : option Vocabulary.Config)
      (n : SMTNote) (ns : list SMTNote) (source_info : string) :
  encode_notes (new vocab_config (Some (mkMidiConfig 0 0.25 32 4.0)))
               (n :: ns) source_info = None.
Proof. reflexivity. Qed.

(** *** Round trip *)

(** [encode_notes] on a non-empty list, once quantization and the
    encoding loop have returned: the id lookup never fails. *)
Lemma encode_notes_tokens (vocab_config : option Vocabulary.Config)
      (midi_cfg : option MidiConfig) (ns q : list SMTNote)
      (toks : list string) (source_info : string) :
  ns <> [] ->
  quantize_notes ns
    (Some (cfg_quantization_grid (default default_midi_config midi_cfg))) = Some q ->
  _notes_to_tokens (default default_midi_config midi_cfg) q = Some toks ->
  exists r,
    encode_notes (new vocab_config midi_cfg) ns source_info = Some r /\
    tokens r = toks /\ notes r = q.
Proof.
  intros Hne Hq Ht. destruct ns as [|n ns]; [congruence|].
  unfold encode_notes. cbn [midi_config vocabulary new].
  rewrite Hq. cbn [mbind option_bind]. rewrite Ht. cbn [mbind option_bind].
  unfold Vocabulary.new. rewrite VocabFacts.encode_tokens_total.
  cbn [mbind option_bind]. eexists. split; [reflexivity|].
  split; reflexivity.
Qed.

Lemma dotted_quarter_tokens :
  exists q,
    quantize_notes [mkNote 60 0.0 1.5 65 "C4" "dotted_quarter" "mf"] (Some 16)
      = Some q /\
    _notes_to_tokens default_midi_config q
      = Some ["[BOS]"; "NOTE_C4_dotted_quarter_mf"; "[EOS]"]%string.
Proof. eexists. split; [reflexivity|]. vm_compute. reflexivity. Qed.

(** C1 at a dotted duration.  The note C4 of 1.5 beats starting at 0
    has its three names consistent with its numbers, and
    [dotted_quarter] is one of the configured durations.  Its token
    [NOTE_C4_dotted_quarter_mf] splits into five fields at the
    underscores, [_parse_note_token] rejects it, and decoding the
    encoded sequence yields no note at all. *)
Lemma roundtrip_fails_on_dotted_duration :
  let n := mkNote 60 0.0 1.5 65 "C4" "dotted_quarter" "mf" in
  let t := new None None in
  (pitch_name n = _midi_to_pitch_name (pitch n) /\
   duration_name n = _beats_to_duration_name (end_time n - start_time n) /\
   dynamic_name n = _velocity_to_dynamic (velocity n)) /\
  duration_name n ∈ Vocabulary.durations Vocabulary._default_config /\
  exists r,
    encode_notes t [n] "" = Some r /\
    tokens r = ["[BOS]"; "NOTE_C4_dotted_quarter_mf"; "[EOS]"]%string /\
    decode_tokens t (Strings (tokens r)) = [].
Proof.
  intros n t. split; [|split].
  - repeat split; reflexivity.
  - unfold Vocabulary._default_config. cbn [Vocabulary.durations]. set_solver.
  - destruct dotted_quarter_tokens as (q & Hq & Ht).
    destruct (encode_notes_tokens None None [n] q _ "" ltac:(discriminate) Hq Ht)
      as (r & Hr & Htok & _).
    exists r. split; [exact Hr|]. split; [exact Htok|].
    rewrite Htok. reflexivity.
Qed.

(** *** Round trip of notes whose names have no underscore *)

Lemma split_no_sep (sep : ascii) (s : string) :
  Py.contains sep s = false -> Py.split sep s = [s].
Proof.
  induction s as [|c s IH]; cbn [Py.contains Py.split]; [reflexivity|].
  intros H. apply orb_false_iff in H as [Hc Hs].
  rewrite Hc, (IH Hs). reflexivity.
Qed.

Lemma split_app_sep (sep : ascii) (a b : string) :
  Py.contains sep a = false ->
  Py.split sep (a +:+ String sep b) = a :: Py.split sep b.
Proof.
  induction a as [|c a IH]; cbn [Py.contains]; intros H.
  - change (EmptyString +:+ String sep b)%string with (String sep b).
    cbn [Py.split]. now rewrite Ascii.eqb_refl.
  - apply orb_false_iff in H as [Hc Ha].
    change (String c a +:+ String sep b)%string
      with (String c (a +:+ String sep b)).
    cbn [Py.split]. rewrite Hc, (IH Ha). reflexivity.
Qed.

Lemma pitch_names_round_trip (p : Z) :
  12 <= p <= 127 -> Spec.pitch_name_round_trips p = true.
Proof.
  intros Hp.
  assert (Hall : forallb Spec.pitch_name_round_trips (seqZ 12 116) = true)
    by (vm_compute; reflexivity).
  rewrite forallb_forall in Hall. apply Hall.
  apply list_elem_of_In, elem_of_seqZ. lia.
Qed.

(** The token of a note with plain names parses back to a note with the
    same pitch and pitch name. *)
Lemma parse_created_token (n : SMTNote) (start : Q) :
  Spec.plain_names n ->
  exists n', _parse_note_token (_create_note_token n) start = Some n' /\
             Spec.pitch_key n' = Spec.pitch_key n.
Proof.
  intros (Hp & Hname & Hdur & Hdyn).
  pose proof (pitch_names_round_trip _ Hp) as Hrt.
  unfold Spec.pitch_name_round_trips in Hrt. rewrite <- Hname in Hrt.
  apply andb_true_iff in Hrt as [Hus Hback].
  apply negb_true_iff in Hus.
  destruct (_pitch_name_to_midi (pitch_name n)) as [q|] eqn:Eq; [|discriminate].
  apply Z.eqb_eq in Hback. subst q.
  unfold _parse_note_token, _create_note_token.
  rewrite split_NOTE.
  change (pitch_name n +:+ "_" +:+ duration_name n +:+ "_" +:+ dynamic_name n)%string
    with (pitch_name n +:+ String "_" (duration_name n +:+ String "_" (dynamic_name n)))%string.
  rewrite (split_app_sep _ _ _ Hus), (split_app_sep _ _ _ Hdur),
    (split_no_sep _ _ Hdyn).
  change (negb ("NOTE" =? "NOTE")%string) with false. cbv iota.
  rewrite Eq. eexists. split; [reflexivity|]. reflexivity.
Qed.

Lemma startswith_app (p s : string) : Py.startswith p (p +:+ s) = true.
Proof.
  unfold Py.startswith. induction p as [|c p IH].
  - now destruct s.
  - change (String c p +:+ s)%string with (String c (p +:+ s)).
    cbn [String.prefix]. now destruct (ascii_dec c c).
Qed.

Lemma decode_step_BAR cfg st :
  dec_notes (decode_step cfg st "BAR") = dec_notes st.
Proof. reflexivity. Qed.

Lemma decode_bars cfg (k : nat) st :
  dec_notes (foldl (decode_step cfg) st (repeat "BAR"%string k)) = dec_notes st.
Proof.
  revert st. induction k as [|k IH]; intros st; cbn [repeat foldl]; [reflexivity|].
  rewrite IH. apply decode_step_BAR.
Qed.

Lemma decode_step_REST cfg st (name : string) :
  dec_notes (decode_step cfg st ("REST_" +:+ name)) = dec_notes st.
Proof.
  assert (E1 : String.eqb ("REST_" +:+ name) "BAR" = false) by reflexivity.
  assert (E2 : Py.startswith "REST_" ("REST_" +:+ name) = true)
    by apply startswith_app.
  unfold decode_step. rewrite E1, E2.
  now destruct (bool_decide _).
Qed.

Lemma decode_created_token cfg st (n : SMTNote) :
  Spec.plain_names n ->
  map Spec.pitch_key (dec_notes (decode_step cfg st (_create_note_token n)))
  = map Spec.pitch_key (dec_notes st) ++ [Spec.pitch_key n].
Proof.
  intros Hn.
  rewrite decode_step_note_branch by apply startswith_app.
  destruct (parse_created_token n (dec_current_time st) Hn) as (n' & -> & Hkey).
  cbn [dec_notes]. rewrite map_app. cbn [map]. now rewrite Hkey.
Qed.

(** One encoding step returns when [beats_per_bar] is positive, and the
    tokens it appends decode to exactly the encoded note. *)
Lemma encode_step_decodes cfg est (n : SMTNote) :
  (0 < beats_per_bar cfg)%Q -> Spec.plain_names n ->
  exists est' chunk,
    encode_step cfg est n = Some est' /\
    enc_tokens est' = enc_tokens est ++ chunk /\
    forall dst,
      map Spec.pitch_key (dec_notes (foldl (decode_step cfg) dst chunk))
      = map Spec.pitch_key (dec_notes dst) ++ [Spec.pitch_key n].
Proof.
  intros Hb Hn. unfold encode_step.
  destruct (bar_loop_total (beats_per_bar cfg) (start_time n)
              (enc_current_bar_start est) (enc_tokens est) Hb) as [[toks bs] Eb].
  rewrite Eb. cbn [mbind option_bind].
  apply bar_loop_tokens in Eb as [k Hk]. cbn [fst] in Hk. subst toks.
  destruct (Py.Qltb (enc_current_time est + 0.1) (start_time n)).
  - eexists. exists (repeat "BAR"%string k
                       ++ [_create_rest_token (start_time n - enc_current_time est)]
                       ++ [_create_note_token n]).
    split; [reflexivity|]. cbn [enc_tokens]. split; [now rewrite <- !app_assoc|].
    intros dst. rewrite !foldl_app. cbn [foldl].
    rewrite decode_created_token by exact Hn.
    unfold _create_rest_token. now rewrite decode_step_REST, decode_bars.
  - eexists. exists (repeat "BAR"%string k ++ [_create_note_token n]).
    split; [reflexivity|]. cbn [enc_tokens]. split; [now rewrite <- !app_assoc|].
    intros dst. rewrite !foldl_app. cbn [foldl].
    rewrite decode_created_token by exact Hn.
    now rewrite decode_bars.
Qed.

Lemma encode_loop_decodes cfg (ns : list SMTNote) :
  (0 < beats_per_bar cfg)%Q -> Forall Spec.plain_names ns ->
  forall est,
  exists est' ext,
    encode_loop cfg est ns = Some est' /\
    enc_tokens est' = enc_tokens est ++ ext /\
    forall dst,
      map Spec.pitch_key (dec_notes (foldl (decode_step cfg) dst ext))
      = map Spec.pitch_key (dec_notes dst) ++ map Spec.pitch_key ns.
Proof.
  intros Hb Hns. induction Hns as [|n ns Hn _ IH]; intros est.
  - exists est, []. split; [reflexivity|]. split; [now rewrite app_nil_r|].
    intros dst. cbn [foldl map]. now rewrite app_nil_r.
  - destruct (encode_step_decodes cfg est n Hb Hn) as (est1 & chunk & E1 & T1 & D1).
    destruct (IH est1) as (est' & ext & E2 & T2 & D2).
    exists est', (chunk ++ ext). cbn [encode_loop]. rewrite E1.
    cbn [mbind option_bind]. split; [exact E2|]. split.
    + now rewrite T2, T1, <- app_assoc.
    + intros dst. rewrite foldl_app, D2, D1. cbn [map].
      now rewrite <- app_assoc.
Qed.

(** The round trip the code does support: with a positive
    [beats_per_bar], a note list whose names contain no underscore is
    encoded, and decoding the tokens gives back a list of the same
    length with the same pitches and pitch names, whatever the gaps
    between the notes. *)
Theorem roundtrip_plain_names cfg (ns : list SMTNote) :
  (0 < beats_per_bar cfg)%Q -> Forall Spec.plain_names ns ->
  exists toks,
    _notes_to_tokens cfg ns = Some toks /\
    map Spec.pitch_key (_tokens_to_notes cfg toks) = map Spec.pitch_key ns.
Proof.
  intros Hb Hns. unfold _notes_to_tokens.
  destruct (encode_loop_decodes cfg ns Hb Hns
              {| enc_tokens := ["[BOS]"%string]; enc_current_time := 0.0;
                 enc_current_bar_start := 0.0 |}) as (est' & ext & E & T & D).
  rewrite E. cbn [mbind option_bind]. eexists. split; [reflexivity|].
  unfold _tokens_to_notes. rewrite T. cbn [enc_tokens].
  rewrite !foldl_app. cbn [foldl].
  change (decode_step cfg dec_init "[BOS]") with dec_init.
  change (dec_notes (decode_step cfg ?st "[EOS]")) with (dec_notes st).
  rewrite D. reflexivity.
Qed.

Lemma roundtrip_plain_names_witness :
  exists toks,
    _notes_to_tokens default_midi_config
      [mkNote 60 0.0 1.0 65 "C4" "quarter" "mf";
       mkNote 61 5.0 7.0 85 "C#4" "half" "f"] = Some toks /\
    map Spec.pitch_key (_tokens_to_notes default_midi_config toks)
    = [(60, "C4"%string); (61, "C#4"%string)].
Proof.
  apply (roundtrip_plain_names default_midi_config
           [mkNote 60 0.0 1.0 65 "C4" "quarter" "mf";
            mkNote 61 5.0 7.0 85 "C#4" "half" "f"]).
  - reflexivity.
  - repeat constructor; cbn; lia.
Defined.

End TokenizerFacts.

(** ** Decoding in binary64 *)

Module TokenizerFloatFacts.
Import MidiUtils Binary64 Binary64Facts Tokenizer TokenizerFloat.
Local Open Scope Q_scope.

Lemma assoc_Forall {V} (P : V -> Prop) (k : string) (d : list (string * V)) (v : V) :
  Forall (fun e => P (snd e)) d -> Py.assoc k d = Some v -> P v.
Proof.
  induction 1 as [|[k' v'] d Hv _ IH]; cbn [Py.assoc]; [discriminate|].
  destruct (String.eqb k k'); [intros [= <-]; exact Hv | exact IH].
Qed.

(** Every duration a name stands for is a float of at least a quarter
    of a beat. *)
Lemma duration_name_to_beats_float (name : string) :
  representable (_duration_name_to_beats name) /\
  1 # 4 <= _duration_name_to_beats name.
Proof.
  unfold _duration_name_to_beats.
  destruct (Py.assoc name duration_beats_map) as [v|] eqn:E.
  - cbn [default]. revert E.
    apply (assoc_Forall (fun v => representable v /\ 1 # 4 <= v)).
    unfold duration_beats_map.
    repeat (apply Forall_cons; split;
            [split; [apply float_check; reflexivity | discriminate]|]).
    apply Forall_nil_2.
  - cbn [default]. split; [apply float_check; reflexivity | discriminate].
Qed.

Lemma parse_duration_float (token : string) :
  representable (_parse_duration_from_token token).
Proof.
  unfold _parse_duration_from_token.
  destruct (2 <=? _)%Z; [apply duration_name_to_beats_float|].
  apply float_check. reflexivity.
Qed.






(** *** Notes never end before they start *)




End TokenizerFloatFacts.

(** ** The pattern detector *)

Module DetectorFacts.
Import MidiUtils Detector PyFacts Spec.

(** *** Overlap resolution *)

Lemma covers_pattern_indices (p : MusicalPattern) (k : Z) :
  Spec.covers p k <-> k ∈ pattern_indices p.
Proof.
  unfold Spec.covers, pattern_indices, Py.range.
  rewrite elem_of_list_to_set, elem_of_seqZ. lia.
Qed.

Lemma resolve_inv_init : resolve_inv ([], ∅).
Proof.
  split.
  - intros p k Hp. inversion Hp.
  - intros i j p q k _ Hi. cbn [fst] in Hi. now rewrite lookup_nil in Hi.
Qed.

Lemma pairwise_disjoint_snoc (l : list MusicalPattern) (p : MusicalPattern) :
  Spec.pairwise_disjoint l ->
  (forall q k, q ∈ l -> Spec.covers q k -> ~ Spec.covers p k) ->
  Spec.pairwise_disjoint (l ++ [p]).
Proof.
  intros Hl Hnew i j a b k Hij Hi Hj [Ha Hb].
  apply lookup_snoc_Some in Hi as [[Hilt Hi] | [Hieq <-]];
    apply lookup_snoc_Some in Hj as [[Hjlt Hj] | [Hjeq <-]].
  - exact (Hl i j a b k Hij Hi Hj (conj Ha Hb)).
  - apply (Hnew a k); [eapply list_elem_of_lookup_2, Hi | exact Ha | exact Hb].
  - apply (Hnew b k); [eapply list_elem_of_lookup_2, Hj | exact Hb | exact Ha].
  - lia.
Qed.

Lemma resolve_step_inv st (p : MusicalPattern) :
  resolve_inv st -> resolve_inv (resolve_step st p).
Proof.
  destruct st as [resolved used]. intros [Hused Hdisj]. unfold resolve_step.
  destruct (bool_decide (pattern_indices p ∩ used = ∅)) eqn:E;
    [|split; assumption].
  apply bool_decide_eq_true in E. cbn [fst snd] in *. split; cbn [fst snd].
  - intros q k Hq Hk. apply elem_of_union.
    apply elem_of_app in Hq as [Hq | Hq].
    + left. eapply Hused; eassumption.
    + apply list_elem_of_singleton in Hq as ->. right.
      now apply covers_pattern_indices.
  - apply pairwise_disjoint_snoc; [exact Hdisj|].
    intros q k Hq Hqk Hpk.
    pose proof (proj1 (covers_pattern_indices p k) Hpk) as Hin.
    specialize (Hused q k Hq Hqk).
    assert (Hboth : k ∈ pattern_indices p ∩ used)
      by (apply elem_of_intersection; split; assumption).
    rewrite E in Hboth. now apply not_elem_of_empty in Hboth.
Qed.

Lemma resolve_overlaps_disjoint (patterns : list MusicalPattern) :
  Spec.pairwise_disjoint (_resolve_overlaps patterns).
Proof.
  unfold _resolve_overlaps. destruct patterns as [|p ps].
  - intros i j a b k _ Hi. now rewrite lookup_nil in Hi.
  - apply (TokenizerFacts.foldl_invariant resolve_inv resolve_step).
    + intros st x. apply resolve_step_inv.
    + apply resolve_inv_init.
Qed.

(** Only accepted input patterns are returned. *)
Lemma resolve_overlaps_subset (patterns : list MusicalPattern) (p : MusicalPattern) :
  p ∈ _resolve_overlaps patterns -> p ∈ patterns.
Proof.
  unfold _resolve_overlaps. destruct patterns as [|p0 ps]; [auto|].
  set (l := p0 :: ps). intros H.
  assert (Hsort : forall l x, x ∈ sort_desc l -> x ∈ l).
  { clear. induction l as [|y l IH]; intros x; cbn [sort_desc foldr]; [auto|].
    fold (sort_desc l). intros Hx.
    assert (Hins : forall a s, x ∈ insert_desc a s -> x = a \/ x ∈ s).
    { clear. intros a s. induction s as [|b s IH]; simpl; intros Hx.
      - apply list_elem_of_singleton in Hx. now left.
      - destruct (Py.Qltb (confidence a) (confidence b)).
        + apply elem_of_cons in Hx as [-> | Hx]; [right; left|].
          destruct (IH Hx) as [-> | Hs]; [now left | right; now right].
        + apply elem_of_cons in Hx as [-> | Hx]; [now left | now right]. }
    destruct (Hins _ _ Hx) as [-> | Hs]; [left | right; now apply IH]. }
  apply Hsort.
  revert H. generalize (sort_desc l). intros s.
  assert (Hgen : forall s st, p ∈ fst (foldl resolve_step st s) -> p ∈ fst st \/ p ∈ s).
  { clear. induction s as [|x s IH]; intros st; cbn [foldl]; [now left|].
    intros H. apply IH in H as [H | H]; [|right; now right].
    destruct st as [r u]. unfold resolve_step in H.
    destruct (bool_decide _); [|now left]. cbn [fst] in *.
    apply elem_of_app in H as [H | H]; [now left|].
    apply list_elem_of_singleton in H as ->. right. left. }
  intros H. apply Hgen in H as [H | H]; [inversion H | exact H].
Qed.

(** *** The detectors return *)

Lemma item_in_range {A} (l : list A) (i : Z) :
  0 <= i < Py.len l -> is_Some (item l i).
Proof.
  intros Hi. unfold item. rewrite (proj2 (Z.ltb_ge i 0)) by lia.
  apply lookup_lt_is_Some_2. unfold Py.len in Hi. lia.
Qed.

Lemma detect_intervals_total (ns : list SMTNote) : is_Some (_detect_intervals ns).
Proof.
  unfold _detect_intervals. destruct (Py.len ns <? 3); [eauto|].
  assert (H : is_Some (mapM (leap_at ns) (Py.range 0 (Py.len ns - 2)))).
  { apply mapM_is_Some_2, Forall_forall. intros i Hi.
    unfold Py.range in Hi. apply elem_of_seqZ in Hi. unfold compose, leap_at.
    destruct (item_in_range ns i) as [n0 ->]; [lia|].
    destruct (item_in_range ns (i + 1)) as [n1 ->]; [lia|].
    destruct (item_in_range ns (i + 2)) as [n2 ->]; [lia|].
    cbn [mbind option_bind]. destruct (_ && _); eauto. }
  destruct H as [found ->]. cbn [mbind option_bind]. eauto.
Qed.

(** The [while] loop of [_find_sequence_pattern] ends, for a pattern
    size of at least 1, within [len(notes) - current_pos] iterations. *)
Lemma repetition_loop_total (fuel : nat) (ns : list SMTNote) (ps : Z)
      (iv : list Z) (reps cp : Z) :
  1 <= ps -> Py.len ns - cp <= Z.of_nat fuel ->
  is_Some (repetition_loop fuel ns ps iv reps cp).
Proof.
  intros Hps. revert reps cp. induction fuel as [|fuel IH]; intros reps cp Hf;
    cbn [repetition_loop].
  - rewrite (proj2 (Z.leb_gt (cp + ps) (Py.len ns))) by lia. eauto.
  - destruct (cp + ps <=? Py.len ns); [|eauto].
    destruct (bool_decide _); [|eauto]. apply IH. lia.
Qed.

Lemma find_sequence_pattern_total cfg (ns : list SMTNote) (start ps : Z) :
  0 <= start -> 1 <= ps -> is_Some (_find_sequence_pattern cfg ns start ps).
Proof.
  intros Hs Hps. unfold _find_sequence_pattern.
  destruct (Py.len ns <? start + ps * 2); [eauto|].
  destruct (repetition_loop_total (length ns) ns ps
              (intervals_of (map pitch (Py.slice ns start (start + ps))))
              1 (start + ps) Hps) as [[reps cp] ->].
  - unfold Py.len. lia.
  - cbn [mbind option_bind]. destruct (_ <=? reps); eauto.
Qed.

Lemma detect_sequences_total cfg (ns : list SMTNote) :
  is_Some (_detect_sequences cfg ns).
Proof.
  unfold _detect_sequences.
  assert (H : is_Some
    (mapM (fun pattern_size =>
             mapM (fun start => _find_sequence_pattern cfg ns start pattern_size)
                  (Py.range 0 (Py.len ns - pattern_size * 2)))
          (Py.range 2 (4 + 1)))).
  { apply mapM_is_Some_2, Forall_forall. intros ps Hps.
    unfold Py.range in Hps. apply elem_of_seqZ in Hps. unfold compose.
    apply mapM_is_Some_2, Forall_forall. intros start Hstart.
    unfold Py.range in Hstart. apply elem_of_seqZ in Hstart. unfold compose.
    apply find_sequence_pattern_total; lia. }
  destruct H as [found ->]. cbn [mbind option_bind]. eauto.
Qed.

(** C3.  The list [_resolve_overlaps] returns is pairwise disjoint: no
    note index lies in the inclusive range [[start_index, end_index]]
    of two returned patterns.  [detect_patterns] always returns, and
    what it returns is pairwise disjoint as well. *)
Theorem overlap_resolution_disjoint (patterns : list MusicalPattern)
        cfg (ns : list SMTNote) :
  Spec.pairwise_disjoint (_resolve_overlaps patterns) /\
  exists out, detect_patterns cfg ns = Some out /\ Spec.pairwise_disjoint out.
Proof.
  split; [apply resolve_overlaps_disjoint|].
  unfold detect_patterns.
  destruct (Py.len ns <? default 3 (min_pattern_length cfg)).
  - exists []. split; [reflexivity|].
    intros i j a b k _ Hi. now rewrite lookup_nil in Hi.
  - destruct (detect_sequences_total cfg ns) as [sequences ->].
    destruct (detect_intervals_total ns) as [leaps ->].
    cbn [mbind option_bind]. eexists. split; [reflexivity|].
    apply resolve_overlaps_disjoint.
Qed.

(** *** Sequence detection *)

Lemma block_profile_0 (ns : list SMTNote) (start ps : Z) :
  Spec.block_profile ns start ps 0
  = intervals_of (map pitch (Py.slice ns start (start + ps))).
Proof.
  unfold Spec.block_profile. now rewrite Z.mul_0_l, Z.add_0_r.
Qed.

(** The loop counts exactly the repeated blocks. *)
Lemma repetition_loop_counts (ns : list SMTNote) (start ps r : Z) (n : nat) :
  1 <= ps -> Spec.repeats ns start ps r ->
  forall (fuel : nat) (reps : Z),
    1 <= reps <= r -> n = Z.to_nat (r - reps) -> (n <= fuel)%nat ->
    repetition_loop fuel ns ps (Spec.block_profile ns start ps 0)
                    reps (start + reps * ps)
    = Some (r, start + r * ps).
Proof.
  intros Hps (Hfit & Hsame & Hstop).
  induction n as [|n IH]; intros fuel reps Hreps Hn Hfuel.
  - assert (reps = r) by lia. subst reps.
    destruct fuel; cbn [repetition_loop];
      (destruct (start + r * ps + ps <=? Py.len ns) eqn:E; [|reflexivity];
       apply Z.leb_le in E; fold (Spec.block_profile ns start ps r);
       rewrite bool_decide_eq_false_2; [reflexivity|];
       intros Heq; now apply (Hstop E)).
  - destruct fuel as [|fuel]; [lia|]. cbn [repetition_loop].
    assert (Hin : start + reps * ps + ps <= Py.len ns) by nia.
    rewrite (proj2 (Z.leb_le _ _) Hin).
    fold (Spec.block_profile ns start ps reps).
    rewrite bool_decide_eq_true_2 by (symmetry; apply Hsame; lia).
    replace (start + reps * ps + ps) with (start + (reps + 1) * ps) by lia.
    apply IH; lia.
Qed.

(** [_find_sequence_pattern] on a start index with [r >= 2] repeated
    blocks, [r] reaching [sequence_min_repetitions]. *)
Lemma find_sequence_pattern_repeats cfg (ns : list SMTNote) (start ps r : Z) :
  0 <= start -> 1 <= ps -> 2 <= r ->
  default 2 (sequence_min_repetitions cfg) <= r ->
  Spec.repeats ns start ps r ->
  _find_sequence_pattern cfg ns start ps
  = Some (Some (Spec.sequence_pattern ns start ps r)).
Proof.
  intros Hs Hps Hr Hmin Hrep. unfold _find_sequence_pattern.
  pose proof Hrep as (Hfit & _ & _).
  rewrite (proj2 (Z.ltb_ge (Py.len ns) (start + ps * 2))) by nia.
  rewrite <- block_profile_0.
  replace (start + ps) with (start + 1 * ps) by lia.
  rewrite (repetition_loop_counts ns start ps r (Z.to_nat (r - 1)) Hps Hrep
             (length ns) 1) by (unfold Py.len in Hfit; try reflexivity; nia).
  cbn [mbind option_bind].
  rewrite (proj2 (Z.leb_le _ _) Hmin). reflexivity.
Qed.

Lemma elem_of_concat {A} (x : A) (ls : list (list A)) :
  x ∈ concat ls <-> exists l, l ∈ ls /\ x ∈ l.
Proof.
  induction ls as [|l ls IH]; simpl.
  - split; [intros H; inversion H | intros (l & H & _); inversion H].
  - rewrite elem_of_app, IH. split.
    + intros [H | (l' & H1 & H2)]; [exists l | exists l'];
        (split; [|assumption]); [left | now right].
    + intros (l' & H1 & H2).
      apply elem_of_cons in H1 as [-> | H1]; [now left | right; eauto].
Qed.

Lemma mapM_elem_of {A B} (f : A -> option B) (l : list A) (k : list B) (x : A) :
  mapM f l = Some k -> x ∈ l -> exists y, y ∈ k /\ f x = Some y.
Proof.
  intros H Hx. apply mapM_Some_1 in H.
  induction H as [|a b l k Hab _ IH]; [inversion Hx|].
  apply elem_of_cons in Hx as [-> | Hx].
  - exists b. split; [left | exact Hab].
  - destruct (IH Hx) as (y & Hy & Hf). exists y. split; [now right | exact Hf].
Qed.

(** What [_detect_sequences] scans: the pattern sizes 2, 3 and 4, and
    for each the start indices [0 <= start < len(notes) - 2 * size]. *)
Lemma detect_sequences_complete cfg (ns : list SMTNote) (start ps : Z)
      (p : MusicalPattern) :
  2 <= ps <= 4 -> 0 <= start < Py.len ns - ps * 2 ->
  _find_sequence_pattern cfg ns start ps = Some (Some p) ->
  exists out, _detect_sequences cfg ns = Some out /\ p ∈ out.
Proof.
  intros Hps Hstart Hfind.
  destruct (detect_sequences_total cfg ns) as [out Hout].
  exists out. split; [exact Hout|].
  unfold _detect_sequences in Hout.
  destruct (mapM _ (Py.range 2 (4 + 1))) as [found|] eqn:E; [|discriminate].
  cbn [mbind option_bind] in Hout. injection Hout as <-.
  destruct (mapM_elem_of _ _ _ ps E) as (row & Hrow & Hmap).
  { unfold Py.range. apply elem_of_seqZ. lia. }
  destruct (mapM_elem_of _ _ _ start Hmap) as (y & Hy & Hf).
  { unfold Py.range. apply elem_of_seqZ. lia. }
  rewrite Hfind in Hf. injection Hf as <-.
  apply list_elem_of_omap. exists (Some p). split; [|reflexivity].
  apply elem_of_concat. eauto.
Qed.

(** Sequence detection where the scan reaches: the pattern spanning all
    [r] repeated blocks is emitted with the confidence
    [min(0.9, 0.5 + (r - 2) * 0.15)]. *)
Lemma detect_sequences_emits cfg (ns : list SMTNote) (start ps r : Z) :
  2 <= ps <= 4 -> 0 <= start < Py.len ns - ps * 2 -> 2 <= r ->
  default 2 (sequence_min_repetitions cfg) <= r ->
  Spec.repeats ns start ps r ->
  exists out, _detect_sequences cfg ns = Some out /\
              Spec.sequence_pattern ns start ps r ∈ out.
Proof.
  intros Hps Hstart Hr Hmin Hrep.
  apply (detect_sequences_complete cfg ns start ps); [assumption..|].
  apply find_sequence_pattern_repeats; [lia | lia | assumption..].
Qed.

(** With at most four notes the scan is empty for every pattern size. *)
Lemma detect_sequences_short cfg (ns : list SMTNote) :
  Py.len ns <= 4 -> _detect_sequences cfg ns = Some [].
Proof.
  intros Hlen. unfold _detect_sequences.
  change (Py.range 2 (4 + 1)) with [2; 3; 4].
  cbn [mapM]. unfold Py.range.
  rewrite !seqZ_nil by lia. reflexivity.
Qed.

(** C5 at the last admissible start index.  In the six notes
    C-D-E, D-E-F# the two blocks of three notes have the same interval
    profile [[2; 2]], two repetitions are found by
    [_find_sequence_pattern] at start 0, which spans the notes 0..5 with
    confidence 0.5; but the scan of [_detect_sequences] stops before
    [start = len(notes) - 2 * pattern_size] and emits no pattern that
    starts at index 0. *)
Lemma sequence_of_two_blocks_not_emitted :
  let ns := map (fun p => mkNote p 0.0 0.5 80 "" "eighth" "mf")
                [60; 62; 64; 62; 64; 66] in
  Spec.repeats ns 0 3 2 /\
  _find_sequence_pattern _default_config ns 0 3
    = Some (Some (Spec.sequence_pattern ns 0 3 2)) /\
  exists out, _detect_sequences _default_config ns = Some out /\
              map (fun p => (start_index p, end_index p)) out = [(1, 4)] /\
              Spec.sequence_pattern ns 0 3 2 ∉ out.
Proof.
  intros ns.
  assert (Hrep : Spec.repeats ns 0 3 2).
  { split; [|split].
    - vm_compute. discriminate.
    - intros k Hk. assert (Hk' : k = 0 \/ k = 1) by lia.
      destruct Hk' as [-> | ->]; reflexivity.
    - intros H. vm_compute in H. now contradiction H. }
  split; [exact Hrep|]. split.
  - apply find_sequence_pattern_repeats; [lia | lia | lia | simpl; lia | exact Hrep].
  - eexists. split; [vm_compute; reflexivity|]. split; [reflexivity|].
    intros Hin. apply list_elem_of_singleton in Hin. discriminate Hin.
Qed.

End DetectorFacts.

(** * Further properties of the code *)

(** ** [midi_utils.py]: names and quantization *)

Module MidiProps.
Import MidiUtils PyFacts.

(** Pitch numbers and pitch names.  [_midi_to_pitch_name] followed by
    [_pitch_name_to_midi] gives the pitch back for the MIDI pitches 12
    to 127 (octaves 0 to 9); for the pitches 0 to 11 the name ends in
    ["-1"], the note part keeps the minus sign and the lookup in
    [note_map] raises. *)
Theorem pitch_name_round_trip (p : Z) :
  0 <= p <= 127 ->
  _pitch_name_to_midi (_midi_to_pitch_name p) = if 12 <=? p then Some p else None.
Proof.
  intros Hp.
  assert (Hall : forallb
            (fun p => bool_decide (_pitch_name_to_midi (_midi_to_pitch_name p)
                                   = if 12 <=? p then Some p else None))
            (seqZ 0 128) = true) by (vm_compute; reflexivity).
  rewrite forallb_forall in Hall.
  specialize (Hall p). apply bool_decide_eq_true in Hall; [exact Hall|].
  apply list_elem_of_In, elem_of_seqZ. lia.
Qed.

Lemma pitch_name_round_trip_witness :
  _pitch_name_to_midi (_midi_to_pitch_name 61) = if 12 <=? 61 then Some 61 else None.
Proof. apply (pitch_name_round_trip 61). lia. Defined.

(** Both spellings of a sharp are read alike: for the five sharpened
    notes and every octave digit, the name written with [s] ([Cs4]) has
    the pitch of the name written with [#] ([C#4]). *)
Theorem sharp_spellings_agree (letter : string) (octave : Z) :
  letter ∈ ["C"; "D"; "F"; "G"; "A"]%string -> 0 <= octave <= 9 ->
  _pitch_name_to_midi (letter +:+ "s" +:+ pretty octave)
  = _pitch_name_to_midi (letter +:+ "#" +:+ pretty octave) /\
  exists n, Py.assoc (letter +:+ "#") note_map = Some n /\
            _pitch_name_to_midi (letter +:+ "#" +:+ pretty octave)
            = Some ((octave + 1) * 12 + n).
Proof.
  intros Hl Ho.
  assert (Hoct : octave ∈ seqZ 0 10) by (apply elem_of_seqZ; lia).
  repeat (apply elem_of_cons in Hl as [-> | Hl]);
    try (inversion Hl);
    (cbv [seqZ] in Hoct; cbn in Hoct;
     repeat (apply elem_of_cons in Hoct as [-> | Hoct]);
     try (inversion Hoct);
     (split; [vm_compute; reflexivity | eexists; split; vm_compute; reflexivity])).
Qed.

Lemma sharp_spellings_agree_witness :
  _pitch_name_to_midi ("F" +:+ "s" +:+ pretty 5)
  = _pitch_name_to_midi ("F" +:+ "#" +:+ pretty 5) /\
  exists n, Py.assoc ("F" +:+ "#") note_map = Some n /\
            _pitch_name_to_midi ("F" +:+ "#" +:+ pretty 5)
            = Some ((5 + 1) * 12 + n).
Proof.
  apply (sharp_spellings_agree "F" 5).
  - apply list_elem_of_In. cbn. tauto.
  - lia.
Defined.

(** Dynamics and velocities.  The velocity stored for a dynamic name
    falls back into the velocity band of that name for [p], [mp],
    [mf], [f] and [ff]; the velocity 25 stored for [pp] lies in the
    band 20..39 of [p].  A name outside the table gets the velocity of
    [mf]. *)
Theorem dynamic_velocity_bands (d : string) (v : Z) :
  (Py.assoc d dynamic_map = Some v ->
   _dynamic_to_velocity d = v /\
   _velocity_to_dynamic v = if String.eqb d "pp" then "p"%string else d) /\
  (Py.assoc d dynamic_map = None ->
   _dynamic_to_velocity d = 65 /\
   _velocity_to_dynamic (_dynamic_to_velocity d) = "mf"%string).
Proof.
  split.
  - unfold _dynamic_to_velocity, dynamic_map. cbn [Py.assoc].
    repeat (match goal with
            | |- context [String.eqb d ?k] =>
                destruct (String.eqb d k) eqn:?;
                [match goal with H : String.eqb d _ = true |- _ =>
                   apply String.eqb_eq in H; subst d end;
                 intros [= <-]; split; reflexivity |]
            end).
    discriminate.
  - intros H. unfold _dynamic_to_velocity. rewrite H. split; reflexivity.
Qed.

Lemma dynamic_velocity_bands_witness :
  (_dynamic_to_velocity "pp" = 25 /\
   _velocity_to_dynamic 25 = if String.eqb "pp" "pp" then "p"%string else "pp"%string) /\
  (_dynamic_to_velocity "loud" = 65 /\
   _velocity_to_dynamic (_dynamic_to_velocity "loud") = "mf"%string).
Proof.
  split.
  - apply (proj1 (dynamic_velocity_bands "pp" 25)). reflexivity.
  - apply (proj2 (dynamic_velocity_bands "loud" 0)). reflexivity.
Defined.

(** Every velocity is named by one of the six dynamics, and a second
    pass through the table keeps the name unless it is [pp]. *)
Theorem velocity_dynamic_stable (v : Z) :
  is_Some (Py.assoc (_velocity_to_dynamic v) dynamic_map) /\
  _velocity_to_dynamic (_dynamic_to_velocity (_velocity_to_dynamic v))
  = if v <? 20 then "p"%string else _velocity_to_dynamic v.
Proof.
  unfold _velocity_to_dynamic.
  destruct (v <? 20); [split; [eexists|]; reflexivity|].
  destruct (v <? 40); [split; [eexists|]; reflexivity|].
  destruct (v <? 60); [split; [eexists|]; reflexivity|].
  destruct (v <? 80); [split; [eexists|]; reflexivity|].
  destruct (v <? 100); split; try eexists; reflexivity.
Qed.

End MidiProps.

(** ** Quantization in binary64, further *)

Module MidiFloatProps.
Import MidiUtils Binary64 Binary64Facts MidiFloat MidiFloatFacts.
Local Open Scope Q_scope.

(** *** What quantization keeps, and when it raises *)

(** [quantize_notes] raises [ZeroDivisionError] for the grid 0 and
    for no other grid, whatever the notes, the empty list included;
    whenever it returns, it returns one note per input note, in order,
    with the pitch, the velocity, the pitch name and the dynamic name
    of the input note.  (For other grids it can raise
    [OverflowError].) *)
Theorem quantize_notes_keeps_identity (ns : list SMTNote) (g : option Z) :
  (quantize_notes ns g = Raises ZeroDivisionError
   <-> default quantization_grid g = 0%Z) /\
  (forall out, quantize_notes ns g = Returns out ->
               Forall2 Spec.same_identity ns out).
Proof.
  unfold quantize_notes. cbv zeta. split.
  - split.
    + destruct (beat_subdivision (default quantization_grid g)) as [b|e|] eqn:Eb.
      * intros Hc. apply collect_Raises in Hc as (n & _ & Hn).
        apply quantize_note_raises in Hn.
        apply beat_subdivision_inv in Eb as (_ & _ & Hb & _). contradiction.
      * intros [= ->]. now apply beat_subdivision_zero.
      * discriminate.
    + intros Hg. apply beat_subdivision_zero in Hg. now rewrite Hg.
  - intros out.
    destruct (beat_subdivision (default quantization_grid g)) as [b|e|];
      [|discriminate..].
    intros Hc. apply collect_inv in Hc.
    induction Hc as [|n q ns out Hq _ IH]; constructor; [|exact IH].
    apply quantize_note_inv in Hq as [_ ->]. unfold quantized, Spec.same_identity.
    cbn. tauto.
Qed.

(** *** Binary grids *)

(** On the grids 4, 8, 16, ..., 65536 quantization is exact for notes
    whose times are floats within [2^32] beats of 0: with the unit
    [4 / grid], every quantized note starts on a multiple of the unit,
    lasts a whole number (at least 1) of units, and starts within half
    a unit of where the input note starts. *)
Theorem quantize_notes_binary_grid (ns : list SMTNote) (j : Z) :
  (2 <= j <= 16)%Z ->
  Forall Spec.float_times ns -> Forall (Spec.times_within (pow2 32)) ns ->
  exists out,
    quantize_notes ns (Some (2 ^ j)%Z) = Returns out /\
    Forall2 (Spec.on_grid (4 / inject_Z (2 ^ j))) ns out.
Proof.
  intros Hj Hf Hw.
  destruct (beat_subdivision_binary j Hj) as (b & Eb & Hr & Hred & Ep & E4).
  assert (Hall : Forall2 (fun n q => quantize_note b n = Returns q /\
                                     Spec.on_grid (4 / inject_Z (2 ^ j)) n q)
                         ns (map (quantized b) ns)).
  { assert (Hlo : 1 # 16384 <= b).
    { rewrite Ep. change (1 # 16384) with (pow2 (-14)). apply pow2_le. lia. }
    assert (Hhi : b <= 4).
    { rewrite Ep. change 4 with (pow2 2). apply pow2_le. lia. }
    induction ns as [|n ns IH]; [constructor|].
    apply Forall_cons_1 in Hf as [Fn Hf]. apply Forall_cons_1 in Hw as [Wn Hw].
    cbn [map]. constructor; [|now apply IH]. split.
    - destruct Wn as [Hs He].
      apply (quantize_note_stable b Hr Hred Hlo Hhi n Hs He).
    - destruct (quantized_binary b (2 - j) n Hr Hred) as (k & m & Hm & H1 & H2 & H3);
        [lia | exact Ep | exact Fn | exact Wn |].
      exists k, m. split; [exact Hm|]. rewrite <- E4. now repeat split. }
  exists (map (quantized b) ns). split.
  - unfold quantize_notes. cbv zeta.
    change (default quantization_grid (Some (2 ^ j)%Z)) with (2 ^ j)%Z. rewrite Eb.
    apply collect_Returns. eapply Forall2_impl; [exact Hall|]. now intros n q [H _].
  - eapply Forall2_impl; [exact Hall|]. now intros n q [_ H].
Qed.

Lemma quantize_notes_binary_grid_witness :
  exists out,
    quantize_notes [mkNote 60 0.375 1.625 80 "C4" "quarter" "mf"] (Some (2 ^ 4)%Z)
    = Returns out /\
    Forall2 (Spec.on_grid (4 / inject_Z (2 ^ 4)))
            [mkNote 60 0.375 1.625 80 "C4" "quarter" "mf"] out.
Proof.
  apply (quantize_notes_binary_grid
           [mkNote 60 0.375 1.625 80 "C4" "quarter" "mf"] 4).
  - lia.
  - constructor; [|constructor].
    split; cbn; apply float_check; reflexivity.
  - constructor; [|constructor].
    split; cbn; apply Qle_bool_iff; reflexivity.
Defined.

End MidiFloatProps.

(** ** [vocabulary.py]: layout and lookups for every configuration *)

Module VocabProps.
Import Vocabulary Spec.

Lemma foldl_snoc_map {A} (f : A -> string) (l : list A) (v : list string) :
  foldl (fun v x => v ++ [f x]) v l = v ++ map f l.
Proof.
  revert v. induction l as [|x l IH]; intros v; cbn [foldl map].
  - now rewrite app_nil_r.
  - rewrite IH. now rewrite <- app_assoc.
Qed.

Lemma foldl_snoc_flat_map {A B} (f : A -> B -> string) (h : A -> list B)
      (l : list A) (v : list string) :
  foldl (fun v a => foldl (fun v b => v ++ [f a b]) v (h a)) v l
  = v ++ flat_map (fun a => map (f a) (h a)) l.
Proof.
  revert v. induction l as [|a l IH]; intros v; cbn [foldl flat_map].
  - now rewrite app_nil_r.
  - rewrite IH, foldl_snoc_map. now rewrite <- app_assoc.
Qed.

Lemma get_pitch_names_spec cfg : _get_pitch_names cfg = pitch_names_of cfg.
Proof.
  unfold _get_pitch_names, pitch_names_of.
  destruct (default true (include_accidentals (pitch_range cfg)));
    now rewrite (foldl_snoc_flat_map (fun octave note => (note +:+ pretty octave)%string)).
Qed.

Lemma add_rest_tokens_spec cfg v : _add_rest_tokens cfg v = v ++ rest_tokens cfg.
Proof.
  unfold _add_rest_tokens, rest_tokens.
  apply (foldl_snoc_map (fun d => ("REST_" +:+ Py.replace "." "_" d)%string)).
Qed.

Lemma add_pattern_tokens_spec cfg v :
  _add_pattern_tokens cfg v = v ++ pattern_tokens cfg.
Proof.
  unfold _add_pattern_tokens, pattern_tokens.
  apply (foldl_snoc_flat_map
           (fun (item : string * list string) pattern =>
              ("PATTERN_" +:+ Py.upper pattern)%string) snd).
Qed.

(** *** The note-token loop and its counter *)

Lemma offered_nil limit st : offered limit st [] st.
Proof.
  unfold offered. destruct st as [v c]. cbn [fst snd].
  rewrite take_nil, app_nil_r. cbn [length]. f_equal. lia.
Qed.

Lemma offered_app limit st ts1 st1 ts2 st2 :
  offered limit st ts1 st1 -> offered limit st1 ts2 st2 ->
  offered limit st (ts1 ++ ts2) st2.
Proof.
  unfold offered. destruct st as [v c]. cbn [fst snd]. intros -> ->. cbn [fst snd].
  set (n := Z.to_nat (limit - c)).
  rewrite (length_take ts1 n).
  assert (Hn : Z.to_nat (limit - (c + Z.of_nat (n `min` length ts1)))
               = (n - length ts1)%nat) by lia.
  rewrite Hn, take_app, length_app, !length_take.
  f_equal; [now rewrite <- app_assoc | lia].
Qed.

Lemma offered_foldl {A} limit (F : list string * Z -> A -> list string * Z)
      (h : A -> list string) (l : list A) :
  (forall st a, offered limit st (h a) (F st a)) ->
  forall st, offered limit st (flat_map h l) (foldl F st l).
Proof.
  intros HF. induction l as [|a l IH]; intros st; cbn [foldl flat_map].
  - apply offered_nil.
  - eapply offered_app; [apply HF | apply IH].
Qed.

Lemma map_as_flat_map {A B} (g : A -> B) (l : list A) :
  map g l = flat_map (fun x => [g x]) l.
Proof. induction l as [|x l IH]; cbn [map flat_map app]; now rewrite ?IH. Qed.

Lemma add_note_tokens_spec cfg v :
  _add_note_tokens cfg v = v ++ take (note_token_budget cfg) (all_note_tokens cfg).
Proof.
  unfold _add_note_tokens. rewrite get_pitch_names_spec.
  set (limit := default 2000 (max_vocab_size cfg) - 200).
  assert (H : offered limit (v, 0) (all_note_tokens cfg)
                (foldl (fun st pitch =>
                   foldl (fun st duration =>
                     foldl (fun (st : list string * Z) dynamic =>
                              let '(vocab, note_count) := st in
                              if note_count <? limit
                              then (vocab ++ ["NOTE_" +:+ pitch +:+ "_" +:+ duration
                                                +:+ "_" +:+ dynamic],
                                    note_count + 1)
                              else st)
                           st (dynamics cfg))
                     st (durations cfg))
                   (v, 0) (pitch_names_of cfg))).
  { unfold all_note_tokens. apply offered_foldl. intros st pitch.
    apply offered_foldl. intros st' duration.
    rewrite map_as_flat_map.
    apply offered_foldl. intros [vocab c] dynamic. unfold offered. cbn [fst snd].
    destruct (c <? limit) eqn:E.
    - apply Z.ltb_lt in E.
      replace (Z.to_nat (limit - c)) with (S (Z.to_nat (limit - c - 1))) by lia.
      cbn [take length]. rewrite take_nil. cbn [length]. f_equal; try lia.
    - apply Z.ltb_ge in E. replace (Z.to_nat (limit - c)) with O by lia.
      cbn [take length]. rewrite app_nil_r. f_equal; try lia. }
  unfold offered in H. rewrite H. cbn [fst snd].
  unfold note_token_budget. fold limit. now rewrite Z.sub_0_r.
Qed.

Lemma build_vocab_list_layout cfg :
  build_vocab_list cfg
  = (special_tokens ++ structural_tokens)
      ++ take (note_token_budget cfg) (all_note_tokens cfg)
      ++ rest_tokens cfg ++ pattern_tokens cfg ++ control_tokens.
Proof.
  unfold build_vocab_list, _add_control_tokens, _add_structural_tokens,
    _add_special_tokens.
  rewrite add_pattern_tokens_spec, add_rest_tokens_spec, add_note_tokens_spec.
  rewrite app_nil_l. now rewrite <- !app_assoc.
Qed.

(** The order of construction.  For every configuration the vocabulary
    is the six special tokens, the eight structural tokens, the note
    tokens, one rest token per configured duration, one pattern token
    per configured pattern label, and the control tokens, in this
    order; the note tokens are the first [max_vocab_size - 200]
    entries of the enumeration with the pitch outermost and the dynamic
    innermost, later combinations being dropped. *)
Theorem vocabulary_layout cfg :
  vocab (_build_vocabulary cfg)
  = special_tokens ++ structural_tokens
      ++ take (note_token_budget cfg) (all_note_tokens cfg)
      ++ rest_tokens cfg ++ pattern_tokens cfg ++ control_tokens /\
  _get_pitch_names cfg = pitch_names_of cfg.
Proof.
  split; [|apply get_pitch_names_spec].
  cbn [vocab _build_vocabulary]. rewrite build_vocab_list_layout.
  now rewrite <- !app_assoc.
Qed.

Lemma length_flat_map_const {A B} (f : A -> list B) (l : list A) (k : nat) :
  (forall a, length (f a) = k) -> length (flat_map f l) = (length l * k)%nat.
Proof.
  intros Hf. induction l as [|a l IH]; cbn [flat_map length]; [reflexivity|].
  rewrite length_app, Hf, IH. lia.
Qed.

(** The size of the vocabulary, for every configuration: 37 fixed
    tokens, the note tokens (the pitch-duration-dynamic combinations,
    cut at the budget [max_vocab_size - 200]; there are 12 or 7 pitch
    names per configured octave), and one token per duration and per
    pattern label. *)
Theorem vocabulary_size cfg :
  let octaves := Z.to_nat (max_octave (pitch_range cfg) + 1
                           - min_octave (pitch_range cfg)) in
  let per_octave :=
    if default true (include_accidentals (pitch_range cfg)) then 12%nat else 7%nat in
  let combinations :=
    (octaves * per_octave * length (durations cfg) * length (dynamics cfg))%nat in
  size (_build_vocabulary cfg)
  = Z.of_nat (37 + Nat.min (note_token_budget cfg) combinations
              + length (durations cfg)
              + length (concat (map snd (default [] (patterns cfg))))).
Proof.
  intros octaves per_octave combinations.
  unfold size, Py.len. cbn [vocab _build_vocabulary].
  rewrite build_vocab_list_layout. f_equal.
  rewrite !length_app, length_take.
  assert (Hpitch : length (pitch_names_of cfg) = (octaves * per_octave)%nat).
  { unfold pitch_names_of. rewrite (length_flat_map_const _ _ per_octave).
    - unfold Py.range. now rewrite length_seqZ.
    - intros o. rewrite length_map. subst per_octave.
      now destruct (default true (include_accidentals (pitch_range cfg))). }
  assert (Hnotes : length (all_note_tokens cfg) = combinations).
  { unfold all_note_tokens.
    rewrite (length_flat_map_const _ _ (length (durations cfg) * length (dynamics cfg))).
    - rewrite Hpitch. subst combinations. lia.
    - intros p. apply length_flat_map_const. intros d. apply length_map. }
  assert (Hpat : length (pattern_tokens cfg)
                 = length (concat (map snd (default [] (patterns cfg))))).
  { unfold pattern_tokens. induction (default [] (patterns cfg)) as [|item l IH];
      cbn [flat_map map concat]; [reflexivity|].
    now rewrite !length_app, length_map, IH. }
  rewrite Hnotes, Hpat. unfold rest_tokens. rewrite length_map.
  cbn [length special_tokens structural_tokens control_tokens]. lia.
Qed.

(** *** Lookups *)

Lemma token_to_id_is_Some cfg (t : string) :
  t ∈ vocab (_build_vocabulary cfg) -> exists i, token_to_id (_build_vocabulary cfg) !! t = Some i /\ 0 <= i < size (_build_vocabulary cfg).
Proof.
  intros Hin. cbn [vocab token_to_id _build_vocabulary] in *.
  destruct (list_elem_of_split_r _ _ Hin) as (l1 & l2 & Heq & Hnot).
  exists (Z.of_nat (length l1)). split.
  - rewrite Heq. now apply VocabFacts.build_token_to_id_last.
  - unfold size, Py.len. cbn [vocab _build_vocabulary].
    rewrite Heq, length_app. cbn [length]. lia.
Qed.

Lemma token_to_id_None cfg (t : string) :
  t ∉ vocab (_build_vocabulary cfg) -> token_to_id (_build_vocabulary cfg) !! t = None.
Proof.
  intros Hnot. destruct (token_to_id (_build_vocabulary cfg) !! t) as [z|] eqn:E; [|reflexivity].
  cbn [vocab token_to_id _build_vocabulary] in *.
  apply VocabFacts.build_token_to_id_sound in E as (i & _ & Hi).
  exfalso. apply Hnot. eapply list_elem_of_lookup_2, Hi.
Qed.

Lemma id_to_token_inverse cfg (t : string) (i : Z) :
  id_to_token (_build_vocabulary cfg) !! i = Some t <-> token_to_id (_build_vocabulary cfg) !! t = Some i.
Proof.
  cbn [id_to_token token_to_id _build_vocabulary].
  apply VocabFacts.build_id_to_token_lookup.
  apply VocabFacts.build_token_to_id_injective.
Qed.

Lemma decode_encode_known cfg (t : string) :
  t ∈ vocab (_build_vocabulary cfg) -> decode_token (_build_vocabulary cfg) <$> encode_token (_build_vocabulary cfg) t = Some t.
Proof.
  intros Hin. destruct (token_to_id_is_Some cfg t Hin) as (i & Hi & _).
  rewrite VocabFacts.encode_token_total, Hi. cbn [default fmap option_fmap option_map]; unfold id.
  unfold decode_token. now rewrite (proj2 (id_to_token_inverse cfg t i) Hi).
Qed.

Lemma decode_unk cfg : decode_token (_build_vocabulary cfg) 4 = "[UNK]"%string.
Proof.
  unfold decode_token.
  now rewrite (proj2 (id_to_token_inverse cfg "[UNK]" 4) (VocabFacts.unk_id cfg)).
Qed.

Lemma decode_encode_unknown cfg (t : string) :
  t ∉ vocab (_build_vocabulary cfg) -> encode_token (_build_vocabulary cfg) t = Some 4 /\
                 decode_token (_build_vocabulary cfg) <$> encode_token (_build_vocabulary cfg) t = Some "[UNK]"%string.
Proof.
  intros Hnot. rewrite VocabFacts.encode_token_total.
  rewrite (token_to_id_None cfg t Hnot). cbn [default fmap option_fmap option_map]; unfold id.
  split; [reflexivity|]. f_equal. apply decode_unk.
Qed.

Lemma decode_out_of_range cfg (i : Z) :
  ~ 0 <= i < size (_build_vocabulary cfg) -> decode_token (_build_vocabulary cfg) i = "[UNK]"%string.
Proof.
  intros Hout. unfold decode_token.
  destruct (id_to_token (_build_vocabulary cfg) !! i) as [t|] eqn:E; [|reflexivity].
  apply id_to_token_inverse in E. cbn [token_to_id _build_vocabulary] in E.
  apply VocabFacts.build_token_to_id_sound in E as (n & -> & Hn).
  apply lookup_lt_Some in Hn. exfalso. apply Hout.
  unfold size, Py.len. cbn [vocab _build_vocabulary]. lia.
Qed.

(** Unknown tokens and ids.  For every configuration, a token that is
    not in the vocabulary is encoded to 4, the id of [[UNK]], and an id
    outside [0..size-1] is decoded to [[UNK]]; neither lookup raises. *)
Theorem unknown_token_and_id cfg (t : string) (i : Z) :
  (t ∉ vocab (_build_vocabulary cfg) ->
   encode_token (_build_vocabulary cfg) t = Some 4) /\
  (~ 0 <= i < size (_build_vocabulary cfg) ->
   decode_token (_build_vocabulary cfg) i = "[UNK]"%string) /\
  encode_token (_build_vocabulary cfg) "[UNK]" = Some 4 /\
  decode_token (_build_vocabulary cfg) 4 = "[UNK]"%string.
Proof.
  split; [|split; [|split]].
  - intros H. now apply decode_encode_unknown.
  - apply decode_out_of_range.
  - rewrite VocabFacts.encode_token_total. now rewrite VocabFacts.unk_id.
  - apply decode_unk.
Qed.

Lemma unknown_token_and_id_witness :
  encode_token (_build_vocabulary _default_config) "" = Some 4 /\
  decode_token (_build_vocabulary _default_config) (-1) = "[UNK]"%string.
Proof.
  destruct (unknown_token_and_id _default_config "" (-1)) as (H1 & H2 & _).
  split.
  - apply H1. intros Hin. apply VocabFacts.memb_elem_of in Hin.
    revert Hin. vm_compute. discriminate.
  - apply H2. intros [H _]. lia.
Defined.

(** Encoding then decoding a token list, for every configuration: a
    token of the vocabulary comes back unchanged, even when the
    configuration repeats a token, and any other token comes back as
    [[UNK]]. *)
Theorem encode_decode_tokens cfg (ts : list string) :
  decode_tokens (_build_vocabulary cfg) <$> encode_tokens (_build_vocabulary cfg) ts
  = Some (map (fun t => if bool_decide (t ∈ vocab (_build_vocabulary cfg))
                        then t else "[UNK]"%string) ts).
Proof.
  rewrite VocabFacts.encode_tokens_total.
  cbn [fmap option_fmap option_map]. f_equal.
  unfold decode_tokens. rewrite map_map. apply map_ext. intros t.
  destruct (bool_decide (t ∈ vocab (_build_vocabulary cfg))) eqn:E.
  - apply bool_decide_eq_true in E.
    pose proof (decode_encode_known cfg t E) as H.
    rewrite VocabFacts.encode_token_total in H. now injection H.
  - apply bool_decide_eq_false in E.
    destruct (decode_encode_unknown cfg t E) as [_ H].
    rewrite VocabFacts.encode_token_total in H. now injection H.
Qed.

(** *** The fixed tokens *)

Lemma Forall_flat_map_intro {A B} (P : B -> Prop) (f : A -> list B) (l : list A) :
  (forall a, Forall P (f a)) -> Forall P (flat_map f l).
Proof.
  intros Hf. induction l as [|a l IH]; cbn [flat_map]; [constructor|].
  apply Forall_app. split; [apply Hf | exact IH].
Qed.

Lemma generated_part cfg :
  Forall (fun t => generated_like t = true)
         (take (note_token_budget cfg) (all_note_tokens cfg)
          ++ rest_tokens cfg ++ pattern_tokens cfg ++ control_tokens).
Proof.
  repeat (apply Forall_app; split).
  - apply Forall_take. unfold all_note_tokens.
    apply Forall_flat_map_intro. intros p.
    apply Forall_flat_map_intro. intros d.
    apply Forall_map, Forall_forall. intros y _. unfold generated_like.
    now rewrite (TokenizerFacts.startswith_app "NOTE_").
  - unfold rest_tokens. apply Forall_map, Forall_forall. intros d _.
    unfold generated_like.
    rewrite (TokenizerFacts.startswith_app "REST_"). now rewrite orb_true_r.
  - unfold pattern_tokens. apply Forall_flat_map_intro. intros item.
    apply Forall_map, Forall_forall. intros pat _. unfold generated_like.
    rewrite (TokenizerFacts.startswith_app "PATTERN_"). now rewrite !orb_true_r.
  - apply Forall_forall. intros t Ht. unfold generated_like.
    apply VocabFacts.memb_elem_of in Ht. rewrite Ht. now rewrite !orb_true_r.
Qed.

Lemma fixed_token_lookup cfg (i : nat) (t : string) :
  (special_tokens ++ structural_tokens) !! i = Some t ->
  token_to_id (_build_vocabulary cfg) !! t = Some (Z.of_nat i).
Proof.
  intros Hi. cbn [token_to_id _build_vocabulary].
  rewrite build_vocab_list_layout.
  pose proof (generated_part cfg) as Hgen.
  set (gen := take _ _ ++ _) in *. clearbody gen.
  assert (Hnd : NoDup (special_tokens ++ structural_tokens))
    by (apply VocabFacts.nodupb_NoDup; reflexivity).
  assert (Hfix : generated_like t = false).
  { apply list_elem_of_lookup_2 in Hi.
    unfold special_tokens, structural_tokens in Hi. cbn [app] in Hi.
    repeat (apply elem_of_cons in Hi as [-> | Hi]; [reflexivity|]).
    inversion Hi. }
  pose proof (take_drop_middle _ i t Hi) as Hsplit.
  assert (Hlen : length (take i (special_tokens ++ structural_tokens)) = i).
  { rewrite length_take. apply lookup_lt_Some in Hi. lia. }
  remember (take i (special_tokens ++ structural_tokens)) as l1 eqn:E1.
  remember (drop (S i) (special_tokens ++ structural_tokens)) as l2 eqn:E2.
  clear E1 E2. rewrite <- Hsplit in Hnd |- *. rewrite <- Hlen.
  rewrite <- app_assoc. change ((t :: l2) ++ gen) with (t :: (l2 ++ gen)).
  apply VocabFacts.build_token_to_id_last.
  rewrite not_elem_of_app. split.
  - apply NoDup_app in Hnd as (_ & _ & Hnd).
    now apply NoDup_cons in Hnd as [Hnot _].
  - intros Hin. rewrite Forall_forall in Hgen. specialize (Hgen _ Hin). congruence.
Qed.

(** The fixed tokens keep their ids.  For every configuration the six
    special tokens have the ids 0 to 5 and the eight structural tokens
    ([BAR], [PHRASE_START], ...) the ids 6 to 13, in both directions:
    no generated note, rest, pattern or control token takes their
    place. *)
Theorem fixed_token_ids cfg (i : nat) (t : string) :
  (special_tokens ++ structural_tokens) !! i = Some t ->
  encode_token (_build_vocabulary cfg) t = Some (Z.of_nat i) /\
  decode_token (_build_vocabulary cfg) (Z.of_nat i) = t.
Proof.
  intros Hi. pose proof (fixed_token_lookup cfg i t Hi) as Hid.
  rewrite VocabFacts.encode_token_total, Hid. split; [reflexivity|].
  unfold decode_token. now rewrite (proj2 (id_to_token_inverse cfg t _) Hid).
Qed.

Lemma fixed_token_ids_witness :
  encode_token (_build_vocabulary _default_config) "BAR" = Some (Z.of_nat 6) /\
  decode_token (_build_vocabulary _default_config) (Z.of_nat 6) = "BAR"%string.
Proof. apply (fixed_token_ids _default_config 6 "BAR"). reflexivity. Defined.

(** [get_special_tokens] returns all six special tokens with the ids
    0 to 5, for every configuration. *)
Theorem get_special_tokens_all cfg :
  get_special_tokens (_build_vocabulary cfg)
  = <["[SEP]"%string := 5]> (<["[UNK]"%string := 4]> (<["[MASK]"%string := 3]>
      (<["[EOS]"%string := 2]> (<["[BOS]"%string := 1]>
        (<["[PAD]"%string := 0]> ∅))))).
Proof.
  unfold get_special_tokens. cbn [foldl].
  rewrite (VocabFacts.special_token_id cfg 0 "[PAD]" eq_refl).
  rewrite (VocabFacts.special_token_id cfg 1 "[BOS]" eq_refl).
  rewrite (VocabFacts.special_token_id cfg 2 "[EOS]" eq_refl).
  rewrite (VocabFacts.special_token_id cfg 3 "[MASK]" eq_refl).
  rewrite (VocabFacts.special_token_id cfg 4 "[UNK]" eq_refl).
  rewrite (VocabFacts.special_token_id cfg 5 "[SEP]" eq_refl).
  reflexivity.
Qed.

End VocabProps.

(** ** [tokenizer.py]: the shape of encoded sequences and decoding *)

Module TokenizerProps.
Import MidiUtils Tokenizer PyFacts Spec.

(** *** Rest tokens *)

Lemma join_split (sep : ascii) (s : string) :
  Py.join (String sep EmptyString) (Py.split sep s) = s.
Proof.
  induction s as [|c s IH]; [reflexivity|].
  cbn [Py.split]. destruct (Ascii.eqb c sep) eqn:E.
  - apply Ascii.eqb_eq in E. subst c.
    destruct (Py.split sep s) as [|h t] eqn:Es.
    + now apply TokenizerFacts.split_not_nil in Es.
    + cbn [Py.join] in *. now rewrite IH.
  - destruct (Py.split sep s) as [|h t] eqn:Es.
    + now apply TokenizerFacts.split_not_nil in Es.
    + destruct t as [|h' t]; cbn [Py.join] in *; now rewrite <- IH.
Qed.

Lemma split_REST (r : string) :
  Py.split "_" ("REST_" +:+ r) = "REST"%string :: Py.split "_" r.
Proof.
  change ("REST_" +:+ r)%string
    with (String "R" (String "E" (String "S" (String "T" (String "_" r))))).
  destruct (TokenizerFacts.split_cons_other "_" "T" (String "_" r) eq_refl)
    as (h1 & t1 & E1 & E1').
  destruct (TokenizerFacts.split_cons_other "_" "S" (String "T" (String "_" r)) eq_refl)
    as (h2 & t2 & E2 & E2').
  destruct (TokenizerFacts.split_cons_other "_" "E"
              (String "S" (String "T" (String "_" r))) eq_refl)
    as (h3 & t3 & E3 & E3').
  destruct (TokenizerFacts.split_cons_other "_" "R"
              (String "E" (String "S" (String "T" (String "_" r)))) eq_refl)
    as (h4 & t4 & E4 & E4').
  rewrite E4'. rewrite E3' in E4. injection E4 as <- <-.
  rewrite E2' in E3. injection E3 as <- <-.
  rewrite E1' in E2. injection E2 as <- <-.
  change (Py.split "_" (String "_" r)) with (EmptyString :: Py.split "_" r) in E1.
  injection E1 as <- <-. reflexivity.
Qed.

(** The duration of a rest token is read from everything after the
    [REST_] prefix, underscores included. *)
Lemma parse_duration_REST (name : string) :
  _parse_duration_from_token ("REST_" +:+ name) = _duration_name_to_beats name.
Proof.
  unfold _parse_duration_from_token. rewrite split_REST. cbn [tail].
  change "_"%string with (String "_"%char EmptyString). rewrite join_split.
  destruct (Py.split "_" name) as [|h t] eqn:E.
  - now apply TokenizerFacts.split_not_nil in E.
  - unfold Py.len. cbn [length].
    now rewrite (proj2 (Z.leb_le 2 _)) by lia.
Qed.

(** The two duration tables agree. *)
Lemma duration_tables_agree (c : Q) (name : string) :
  (c, name) ∈ duration_map -> (_duration_name_to_beats name == c)%Q.
Proof.
  intros Hin. unfold duration_map in Hin.
  repeat (apply elem_of_cons in Hin as [[= -> ->] | Hin]; [reflexivity|]).
  inversion Hin.
Qed.

(** A rest survives the round trip through its token.  For every gap,
    the duration read back from the rest token the encoder makes for
    it is within 0.1 beat of the gap, also for the dotted durations;
    only when no named duration is within 0.1 beat of the gap does the
    token stand for one beat, whatever the gap. *)
Theorem rest_token_round_trip (gap : Q) :
  let back := _parse_duration_from_token (_create_rest_token gap) in
  (Qabs (gap - back) < 0.1)%Q \/
  ((forall c n, (c, n) ∈ duration_map -> ~ (Qabs (gap - c) < 0.1)%Q) /\
   (back == 1)%Q).
Proof.
  cbv zeta. unfold _create_rest_token. rewrite parse_duration_REST.
  destruct (MidiFacts.beats_to_duration_name_spec gap)
    as [(c & Hin & Hlt & _) | (Hnone & ->)].
  - left. now rewrite (duration_tables_agree c _ Hin).
  - right. split; [exact Hnone | reflexivity].
Qed.

(** Names and beats.  Each of the nine duration names is given back
    by [_beats_to_duration_name] from its number of beats; any other
    name counts as one beat and comes back as ["quarter"]. *)
Theorem duration_name_round_trip (name : string) :
  _beats_to_duration_name (_duration_name_to_beats name)
  = match Py.assoc name duration_beats_map with
    | Some _ => name
    | None => "quarter"%string
    end.
Proof.
  unfold _duration_name_to_beats, duration_beats_map. cbn [Py.assoc].
  repeat (match goal with
          | |- context [String.eqb name ?k] =>
              destruct (String.eqb name k) eqn:?;
              [match goal with H : String.eqb name _ = true |- _ =>
                 apply String.eqb_eq in H; subst name end;
               vm_compute; reflexivity |]
          end).
  vm_compute. reflexivity.
Qed.

(** *** The encoded sequence *)

Lemma floor_ge (z : Z) (x : Q) : (inject_Z z <= x)%Q <-> z <= Qfloor x.
Proof.
  split; intros H.
  - pose proof (Qlt_floor x) as Hlt.
    assert (Hz : (inject_Z z < inject_Z (Qfloor x + 1))%Q) by lra.
    rewrite <- Zlt_Qlt in Hz. lia.
  - pose proof (Qfloor_le x) as Hle.
    assert (Hz : (inject_Z z <= inject_Z (Qfloor x))%Q) by (now rewrite <- Zle_Qle).
    lra.
Qed.

(** The [BAR] loop brings the bar counter to the bar of the note, never
    back. *)
Lemma bar_loop_count (fuel : nat) (bpb start : Q) :
  (0 < bpb)%Q ->
  forall (toks : list string) (cbs : Q) (K : Z) st',
    (cbs == inject_Z K * bpb)%Q ->
    bar_loop fuel bpb start (toks, cbs) = Some st' ->
    exists k : nat,
      fst st' = toks ++ repeat "BAR"%string k /\
      (snd st' == inject_Z (K + Z.of_nat k) * bpb)%Q /\
      K + Z.of_nat k = Z.max K (Qfloor (start / bpb)).
Proof.
  intros Hb. induction fuel as [|fuel IH]; intros toks cbs K st' HK;
    cbn [bar_loop fst snd].
  - destruct (Py.Qleb (cbs + bpb) start) eqn:E; [discriminate|].
    intros [= <-]. exists O. cbn [fst snd repeat]. rewrite app_nil_r, Z.add_0_r.
    split; [reflexivity|]. split; [exact HK|].
    apply Qleb_gt in E.
    assert (Hn : ~ K + 1 <= Qfloor (start / bpb)).
    { rewrite <- floor_ge. intros H.
      apply (Qmult_le_compat_r _ _ bpb) in H; [|lra].
      rewrite inject_Z_plus in H. change (inject_Z 1) with 1%Q in H.
      assert (Hd : (start / bpb * bpb == start)%Q) by (field; lra).
      rewrite Hd in H. lra. }
    lia.
  - destruct (Py.Qleb (cbs + bpb) start) eqn:E.
    + intros H. apply Qleb_le in E.
      assert (HK' : (cbs + bpb == inject_Z (K + 1) * bpb)%Q).
      { rewrite inject_Z_plus, HK. change (inject_Z 1) with 1%Q. ring. }
      destruct (IH _ _ (K + 1) _ HK' H) as (k & Ht & Hs & Hm).
      exists (S k). split; [|split].
      * rewrite Ht. cbn [repeat]. now rewrite <- app_assoc.
      * rewrite Hs. now replace (K + 1 + Z.of_nat k) with (K + Z.of_nat (S k)) by lia.
      * assert (Hge : K + 1 <= Qfloor (start / bpb)).
        { rewrite <- floor_ge. apply Qle_shift_div_l; [exact Hb|].
          rewrite <- HK'. exact E. }
        lia.
    + intros [= <-]. exists O. cbn [fst snd repeat]. rewrite app_nil_r, Z.add_0_r.
      split; [reflexivity|]. split; [exact HK|].
      apply Qleb_gt in E.
      assert (Hn : ~ K + 1 <= Qfloor (start / bpb)).
      { rewrite <- floor_ge. intros H.
        apply (Qmult_le_compat_r _ _ bpb) in H; [|lra].
        rewrite inject_Z_plus in H. change (inject_Z 1) with 1%Q in H.
        assert (Hd : (start / bpb * bpb == start)%Q) by (field; lra).
        rewrite Hd in H. lra. }
      lia.
Qed.

Lemma bars_app (a b : list string) : bars (a ++ b) = (bars a + bars b)%nat.
Proof. unfold bars. now rewrite filter_app, length_app. Qed.

Lemma bars_repeat (k : nat) : bars (repeat "BAR"%string k) = k.
Proof.
  unfold bars. induction k as [|k IH]; [reflexivity|].
  cbn [repeat]. rewrite filter_cons_True by reflexivity. cbn [length]. now rewrite IH.
Qed.

Lemma note_tokens_of_app (a b : list string) :
  note_tokens_of (a ++ b) = note_tokens_of a ++ note_tokens_of b.
Proof. unfold note_tokens_of. apply filter_app. Qed.

Lemma note_tokens_of_repeat (k : nat) : note_tokens_of (repeat "BAR"%string k) = [].
Proof.
  unfold note_tokens_of. induction k as [|k IH]; [reflexivity|].
  cbn [repeat]. now rewrite filter_cons_False by discriminate.
Qed.

Lemma create_note_token_prefix (n : SMTNote) :
  Py.startswith "NOTE_" (_create_note_token n) = true.
Proof. unfold _create_note_token. apply TokenizerFacts.startswith_app. Qed.

Lemma create_rest_token_prefix (d : Q) :
  Py.startswith "REST_" (_create_rest_token d) = true /\
  Py.startswith "NOTE_" (_create_rest_token d) = false /\
  _create_rest_token d <> "BAR"%string.
Proof.
  unfold _create_rest_token. split; [apply TokenizerFacts.startswith_app|].
  split; [reflexivity | discriminate].
Qed.

Lemma create_note_token_not_BAR (n : SMTNote) : _create_note_token n <> "BAR"%string.
Proof. unfold _create_note_token. discriminate. Qed.

(** One encoding step, for any note. *)
Lemma encode_step_shape cfg est (n : SMTNote) (K : Z) :
  (0 < beats_per_bar cfg)%Q ->
  (enc_current_bar_start est == inject_Z K * beats_per_bar cfg)%Q ->
  exists est' chunk,
    encode_step cfg est n = Some est' /\
    enc_tokens est' = enc_tokens est ++ chunk /\
    note_tokens_of chunk = [_create_note_token n] /\
    Forall body_token chunk /\
    K + Z.of_nat (bars chunk) = Z.max K (Qfloor (start_time n / beats_per_bar cfg)) /\
    (enc_current_bar_start est'
     == inject_Z (K + Z.of_nat (bars chunk)) * beats_per_bar cfg)%Q.
Proof.
  intros Hb HK. unfold encode_step.
  destruct (TokenizerFacts.bar_loop_total (beats_per_bar cfg) (start_time n)
              (enc_current_bar_start est) (enc_tokens est) Hb) as [[toks bs] Eb].
  rewrite Eb. cbn [mbind option_bind].
  destruct (bar_loop_count _ _ _ Hb _ _ K _ HK Eb) as (k & Ht & Hs & Hm).
  cbn [fst snd] in Ht, Hs. subst toks.
  assert (Hbars : Forall body_token (repeat "BAR"%string k)).
  { apply Forall_forall. intros t Ht. apply list_elem_of_In, repeat_spec in Ht.
    now left. }
  assert (Hnote : body_token (_create_note_token n))
    by (right; right; apply create_note_token_prefix).
  destruct (Py.Qltb (enc_current_time est + 0.1) (start_time n)).
  - destruct (create_rest_token_prefix (start_time n - enc_current_time est))
      as (Hr1 & Hr2 & Hr3).
    eexists. exists (repeat "BAR"%string k
                       ++ [_create_rest_token (start_time n - enc_current_time est)]
                       ++ [_create_note_token n]).
    split; [reflexivity|]. cbn [enc_tokens enc_current_bar_start].
    split; [now rewrite <- !app_assoc|]. split; [|split; [|split]].
    + rewrite !note_tokens_of_app, note_tokens_of_repeat. unfold note_tokens_of.
      rewrite (filter_cons_False _ (_create_rest_token _)) by (rewrite Hr2; discriminate).
      rewrite filter_cons_True by apply create_note_token_prefix. reflexivity.
    + repeat (apply Forall_app; split); [exact Hbars | |];
        (constructor; [|constructor]); [right; left; exact Hr1 | exact Hnote].
    + rewrite !bars_app, bars_repeat. unfold bars.
      rewrite (filter_cons_False _ (_create_rest_token _)) by exact Hr3.
      rewrite filter_cons_False by apply create_note_token_not_BAR.
      cbn [filter length]. rewrite !Nat.add_0_r. exact Hm.
    + rewrite !bars_app, bars_repeat. unfold bars.
      rewrite (filter_cons_False _ (_create_rest_token _)) by exact Hr3.
      rewrite filter_cons_False by apply create_note_token_not_BAR.
      cbn [filter length]. rewrite !Nat.add_0_r. exact Hs.
  - eexists. exists (repeat "BAR"%string k ++ [_create_note_token n]).
    split; [reflexivity|]. cbn [enc_tokens enc_current_bar_start].
    split; [now rewrite <- !app_assoc|]. split; [|split; [|split]].
    + rewrite !note_tokens_of_app, note_tokens_of_repeat. unfold note_tokens_of.
      rewrite filter_cons_True by apply create_note_token_prefix. reflexivity.
    + apply Forall_app. split; [exact Hbars|]. constructor; [exact Hnote | constructor].
    + rewrite !bars_app, bars_repeat. unfold bars.
      rewrite filter_cons_False by apply create_note_token_not_BAR.
      cbn [filter length]. rewrite !Nat.add_0_r. exact Hm.
    + rewrite !bars_app, bars_repeat. unfold bars.
      rewrite filter_cons_False by apply create_note_token_not_BAR.
      cbn [filter length]. rewrite !Nat.add_0_r. exact Hs.
Qed.

Lemma encode_loop_shape cfg (ns : list SMTNote) :
  (0 < beats_per_bar cfg)%Q ->
  forall est (K : Z),
    (enc_current_bar_start est == inject_Z K * beats_per_bar cfg)%Q ->
    exists est' body,
      encode_loop cfg est ns = Some est' /\
      enc_tokens est' = enc_tokens est ++ body /\
      note_tokens_of body = map _create_note_token ns /\
      Forall body_token body /\
      K + Z.of_nat (bars body) = last_bar (beats_per_bar cfg) K ns.
Proof.
  intros Hb. induction ns as [|n ns IH]; intros est K HK.
  - exists est, []. cbn [encode_loop map last_bar foldl].
    split; [reflexivity|]. split; [now rewrite app_nil_r|].
    split; [reflexivity|]. split; [constructor|]. cbn. lia.
  - destruct (encode_step_shape cfg est n K Hb HK)
      as (est1 & chunk & E1 & T1 & N1 & F1 & B1 & C1).
    destruct (IH est1 _ C1) as (est' & body & E2 & T2 & N2 & F2 & B2).
    exists est', (chunk ++ body). cbn [encode_loop]. rewrite E1.
    cbn [mbind option_bind]. split; [exact E2|].
    split; [now rewrite T2, T1, <- app_assoc|]. split; [|split].
    + rewrite note_tokens_of_app, N1, N2. reflexivity.
    + apply Forall_app. now split.
    + rewrite bars_app, Nat2Z.inj_add, Z.add_assoc, B2. unfold last_bar.
      cbn [foldl]. now rewrite <- B1.
Qed.

(** The shape of an encoded sequence.  With a positive [beats_per_bar]
    the encoder returns, for any note list, [[BOS]], a body and
    [[EOS]]; the body holds only [BAR], [REST_*] and [NOTE_*] tokens,
    and its [NOTE_*] tokens are the compound tokens of the notes, one
    per note and in the order of the notes. *)
Theorem encoded_sequence_shape cfg (ns : list SMTNote) :
  (0 < beats_per_bar cfg)%Q ->
  exists body,
    _notes_to_tokens cfg ns = Some ("[BOS]"%string :: body ++ ["[EOS]"%string]) /\
    Forall body_token body /\
    note_tokens_of body = map _create_note_token ns.
Proof.
  intros Hb. unfold _notes_to_tokens.
  destruct (encode_loop_shape cfg ns Hb
              {| enc_tokens := ["[BOS]"%string]; enc_current_time := 0.0;
                 enc_current_bar_start := 0.0 |} 0)
    as (est' & body & E & T & N & F & _); [reflexivity|].
  rewrite E. cbn [mbind option_bind]. exists body. rewrite T.
  cbn [enc_tokens app]. now repeat split.
Qed.

Lemma encoded_sequence_shape_witness :
  exists body,
    _notes_to_tokens default_midi_config
      [mkNote 60 0.0 1.0 65 "C4" "quarter" "mf";
       mkNote 62 9.0 10.5 65 "D4" "dotted_quarter" "mf"]
    = Some ("[BOS]"%string :: body ++ ["[EOS]"%string]) /\
    Forall body_token body /\
    note_tokens_of body = ["NOTE_C4_quarter_mf"; "NOTE_D4_dotted_quarter_mf"]%string.
Proof.
  apply (encoded_sequence_shape default_midi_config
           [mkNote 60 0.0 1.0 65 "C4" "quarter" "mf";
            mkNote 62 9.0 10.5 65 "D4" "dotted_quarter" "mf"]).
  reflexivity.
Defined.

(** *** Decoding *)

Lemma decode_step_other cfg st (t : string) :
  ~ body_token t -> decode_step cfg st t = st.
Proof.
  intros Hn. unfold decode_step.
  destruct (bool_decide _); [reflexivity|].
  destruct (String.eqb t "BAR") eqn:E1.
  { apply String.eqb_eq in E1. exfalso. apply Hn. now left. }
  destruct (Py.startswith "REST_" t) eqn:E2.
  { exfalso. apply Hn. right. now left. }
  destruct (Py.startswith "NOTE_" t) eqn:E3.
  { exfalso. apply Hn. right. now right. }
  now destruct (Py.startswith "PATTERN_" t).
Qed.

#[local] Instance body_token_dec (t : string) : Decision (body_token t).
Proof. unfold body_token. apply _. Defined.

(** What the decoder reads.  Only [BAR], [REST_*] and [NOTE_*] tokens
    matter: removing every other token (special, pattern, control or
    unknown ones) from a sequence, wherever they stand, does not change
    the decoded notes. *)
Theorem decoder_ignores_other_tokens cfg (toks : list string) :
  _tokens_to_notes cfg (filter body_token toks) = _tokens_to_notes cfg toks.
Proof.
  unfold _tokens_to_notes. f_equal. generalize dec_init.
  induction toks as [|t toks IH]; intros st; [reflexivity|].
  destruct (decide (body_token t)) as [H | H].
  - rewrite filter_cons_True by exact H. cbn [foldl]. apply IH.
  - rewrite filter_cons_False by exact H. cbn [foldl].
    rewrite (decode_step_other cfg st t H). apply IH.
Qed.

(** No more notes than note tokens are decoded. *)
Lemma decoded_length_le cfg (toks : list string) :
  forall st,
    (length (dec_notes (foldl (decode_step cfg) st toks))
     <= length (dec_notes st) + length (note_tokens_of toks))%nat.
Proof.
  induction toks as [|t toks IH]; intros st; cbn [foldl]; [lia|].
  specialize (IH (decode_step cfg st t)).
  unfold note_tokens_of in *.
  destruct (Py.startswith "NOTE_" t) eqn:E.
  - rewrite filter_cons_True by exact E. cbn [length].
    destruct (TokenizerFacts.decode_step_notes cfg st t) as [Hs | (n & _ & Hs)];
      rewrite Hs in IH; [|rewrite length_app in IH; cbn [length] in IH]; lia.
  - rewrite filter_cons_False by (rewrite E; discriminate).
    assert (Hs : dec_notes (decode_step cfg st t) = dec_notes st).
    { unfold decode_step. rewrite E.
      destruct (bool_decide _); [reflexivity|].
      destruct (String.eqb t "BAR"); [reflexivity|].
      destruct (Py.startswith "REST_" t); [reflexivity|].
      now destruct (Py.startswith "PATTERN_" t). }
    rewrite Hs in IH. lia.
Qed.

(** *** [encode_notes] on a non-empty list *)

Lemma min_pitch_le (n : SMTNote) (ns : list SMTNote) :
  min_pitch n ns <= pitch n /\ Forall (fun x => min_pitch n ns <= pitch x) ns.
Proof.
  unfold min_pitch. generalize (pitch n) as a. induction ns as [|x ns IH]; intros a.
  - split; [cbn; lia | constructor].
  - cbn [foldl]. destruct (IH (if pitch x <? a then pitch x else a)) as [H1 H2].
    destruct (pitch x <? a) eqn:E;
      [apply Z.ltb_lt in E | apply Z.ltb_ge in E];
      (split; [lia | constructor; [lia | exact H2]]).
Qed.

Lemma max_pitch_ge (n : SMTNote) (ns : list SMTNote) :
  pitch n <= max_pitch n ns /\ Forall (fun x => pitch x <= max_pitch n ns) ns.
Proof.
  unfold max_pitch. generalize (pitch n) as a. induction ns as [|x ns IH]; intros a.
  - split; [cbn; lia | constructor].
  - cbn [foldl]. destruct (IH (if a <? pitch x then pitch x else a)) as [H1 H2].
    destruct (a <? pitch x) eqn:E;
      [apply Z.ltb_lt in E | apply Z.ltb_ge in E];
      (split; [lia | constructor; [lia | exact H2]]).
Qed.

(** No more notes are decoded than the sequence has [NOTE_*] tokens. *)
Theorem decoded_notes_bounded cfg (toks : list string) :
  (length (_tokens_to_notes cfg toks) <= length (note_tokens_of toks))%nat.
Proof.
  unfold _tokens_to_notes.
  pose proof (decoded_length_le cfg toks dec_init) as H.
  cbn [dec_notes dec_init length] in H. lia.
Qed.

(** *** Decoding from ids *)

Lemma decode_step_unk cfg st : decode_step cfg st "[UNK]" = st.
Proof.
  apply decode_step_other. unfold body_token.
  intros [H | [H | H]]; discriminate H.
Qed.

(** Decoding from ids.  For every vocabulary and MIDI configuration and
    every token list, the tokens are encoded to ids without error, and
    decoding the ids gives the notes of the token list without its
    tokens that are not in the vocabulary: such a token becomes
    [[UNK]], which the decoder passes over, so its note (or rest, or
    bar) is lost and later notes are placed as if it had not been
    there. *)
Theorem decode_ids_keeps_known (vocab_config : option Vocabulary.Config)
        (midi_cfg : option MidiConfig) (ts : list string) :
  let t := new vocab_config midi_cfg in
  exists ids,
    Vocabulary.encode_tokens (vocabulary t) ts = Some ids /\
    decode_tokens t (Ids ids)
    = decode_tokens t
        (Strings (filter (fun x => x ∈ Vocabulary.vocab (vocabulary t)) ts)).
Proof.
  intros t. unfold t, new, Vocabulary.new. cbn [vocabulary midi_config].
  set (vcfg := default Vocabulary._default_config vocab_config).
  set (cfg := default default_midi_config midi_cfg).
  eexists. split; [apply VocabFacts.encode_tokens_total|].
  unfold decode_tokens. cbn [vocabulary midi_config].
  unfold _tokens_to_notes. f_equal. generalize dec_init.
  induction ts as [|x ts IH]; intros st; [reflexivity|].
  cbn [map Vocabulary.decode_tokens foldl].
  assert (Hx : Vocabulary.decode_token (Vocabulary._build_vocabulary vcfg)
                 (default 4 (Vocabulary.token_to_id
                               (Vocabulary._build_vocabulary vcfg) !! x))
               = if decide (x ∈ Vocabulary.vocab (Vocabulary._build_vocabulary vcfg))
                 then x else "[UNK]"%string).
  { destruct (decide (x ∈ Vocabulary.vocab (Vocabulary._build_vocabulary vcfg)))
      as [Hin | Hnot].
    - pose proof (VocabProps.decode_encode_known vcfg x Hin) as H.
      rewrite (VocabFacts.encode_token_total vcfg x) in H.
      now injection H.
    - destruct (VocabProps.decode_encode_unknown vcfg x Hnot) as [_ H].
      rewrite (VocabFacts.encode_token_total vcfg x) in H.
      now injection H. }
  rewrite Hx.
  destruct (decide (x ∈ Vocabulary.vocab (Vocabulary._build_vocabulary vcfg)))
    as [Hin | Hnot].
  - rewrite filter_cons_True by exact Hin. cbn [foldl]. apply IH.
  - rewrite filter_cons_False by exact Hnot.
    rewrite decode_step_unk. apply IH.
Qed.

End TokenizerProps.

(** ** [detector.py]: what detected patterns look like *)

Module DetectorProps.
Import MidiUtils Detector PyFacts Spec.

(** *** Slices *)

Lemma slice_from (l : list SMTNote) (i j : Z) :
  0 <= i -> 1 <= Py.len (Py.slice l i j) ->
  i + Py.len (Py.slice l i j) <= Py.len l /\
  Py.slice l i j = Py.slice l i (i + Py.len (Py.slice l i j)).
Proof.
  intros Hi Hlen. unfold Py.slice, Py.clamp_index, Py.len in *.
  rewrite (proj2 (Z.ltb_ge i 0)) in * by lia.
  set (n := Z.of_nat (length l)) in *.
  set (hi := if j <? 0 then Z.max 0 (j + n) else Z.min j n) in *.
  rewrite length_take, length_drop in *.
  assert (Hin : Z.min i n = i) by lia.
  rewrite Hin in *.
  set (m := (Z.to_nat (hi - i) `min` (length l - Z.to_nat i))%nat) in *.
  split; [lia|].
  assert (H0 : (i + Z.of_nat m <? 0) = false) by (apply Z.ltb_ge; lia).
  rewrite H0.
  replace (Z.to_nat (Z.min (i + Z.of_nat m) n - i)) with m by lia.
  subst m. rewrite <- (length_drop l (Z.to_nat i)).
  generalize (drop (Z.to_nat i) l) (Z.to_nat (hi - i)). intros d k.
  destruct (Nat.le_gt_cases k (length d)) as [Hk | Hk].
  - now rewrite Nat.min_l by exact Hk.
  - rewrite Nat.min_r by lia. now rewrite !take_ge by lia.
Qed.

(** *** The four detectors *)

Lemma length_intervals_of (l : list Z) :
  length (intervals_of l) = pred (length l).
Proof.
  induction l as [|a [|b l] IH]; cbn [intervals_of length] in *; try reflexivity.
  now rewrite IH.
Qed.

Lemma count_if_bounds (P : Z -> bool) (l : list Z) :
  0 <= count_if P l <= Py.len l.
Proof.
  unfold count_if, Py.len. pose proof (length_filter (fun x => P x = true) l). lia.
Qed.

Lemma ratio_bounds (c n : Z) :
  0 <= c <= n -> 0 < n -> (0 <= inject_Z c / inject_Z n <= 1)%Q.
Proof.
  intros Hc Hn.
  assert (Hnq : (0 < inject_Z n)%Q).
  { change 0%Q with (inject_Z 0). now rewrite <- Zlt_Qlt. }
  assert (Hcq : (0 <= inject_Z c)%Q).
  { change 0%Q with (inject_Z 0). rewrite <- Zle_Qle. lia. }
  assert (Hcn : (inject_Z c <= inject_Z n)%Q) by (rewrite <- Zle_Qle; lia).
  split.
  - apply Qle_shift_div_l; [exact Hnq | lra].
  - apply Qle_shift_div_r; [exact Hnq | lra].
Qed.

Lemma analyze_scale_result (seg : list SMTNote) (start : Z) (p : MusicalPattern) :
  _analyze_scale_pattern seg start = Some p -> window_result seg start p.
Proof.
  unfold _analyze_scale_pattern.
  destruct (Py.len seg <? 3) eqn:E3; [discriminate|]. apply Z.ltb_ge in E3.
  set (iv := intervals_of (map pitch seg)).
  assert (Hlen : Py.len iv = Py.len seg - 1).
  { unfold Py.len, iv in *. rewrite length_intervals_of, length_map. lia. }
  pose proof (ratio_bounds _ _ (count_if_bounds (fun x => Z.abs x <=? 2) iv)
                ltac:(lia)) as Hr.
  destruct (Py.Qleb _ _); [|discriminate]. intros [= <-].
  unfold window_result. cbn [start_index end_index notes confidence pattern_type].
  repeat split; try reflexivity; try lia.
  - destruct (5 <=? Py.len seg); lra.
  - destruct (5 <=? Py.len seg); lra.
  - clear. unfold pattern_types.
    destruct (Py.Qltb 0 (mean iv)); apply list_elem_of_In; cbn; tauto.
Qed.

Lemma classify_chord_type_values (ps : list Z) :
  _classify_chord_type ps
  ∈ ["major"; "minor"; "diminished"; "augmented"; "unknown"]%string.
Proof.
  unfold _classify_chord_type. destruct ps as [|p0 ps]; [set_solver|].
  destruct (Py.len (p0 :: ps) <? 3); [set_solver|].
  repeat (destruct (bool_decide _); [set_solver|]). set_solver.
Qed.

Lemma analyze_arpeggio_result (seg : list SMTNote) (start : Z) (p : MusicalPattern) :
  _analyze_arpeggio_pattern seg start = Some p -> window_result seg start p.
Proof.
  unfold _analyze_arpeggio_pattern.
  destruct (Py.len seg <? 3) eqn:E3; [discriminate|]. apply Z.ltb_ge in E3.
  set (iv := intervals_of (map pitch seg)).
  assert (Hlen : Py.len iv = Py.len seg - 1).
  { unfold Py.len, iv in *. rewrite length_intervals_of, length_map. lia. }
  pose proof (ratio_bounds _ _
                (count_if_bounds (fun x => (3 <=? Z.abs x) && (Z.abs x <=? 5)) iv)
                ltac:(lia)) as Hr.
  destruct (Py.Qleb _ _); [|discriminate]. intros [= <-].
  unfold window_result. cbn [start_index end_index notes confidence pattern_type].
  repeat split; try reflexivity; try lia.
  - destruct (4 <=? Py.len seg); lra.
  - destruct (4 <=? Py.len seg); lra.
  - pose proof (classify_chord_type_values (map pitch seg)) as Hc.
    clear - Hc. unfold pattern_types.
    repeat (apply elem_of_cons in Hc as [-> | Hc];
            [apply list_elem_of_In; cbn; tauto|]).
    inversion Hc.
Qed.

Lemma window_loop_sound (analyze : list SMTNote -> Z -> option MusicalPattern)
      (ns : list SMTNote) (start : Z) (lengths : list Z) (p : MusicalPattern) :
  (forall seg s q, analyze seg s = Some q -> window_result seg s q) ->
  0 <= start -> p ∈ window_loop analyze ns start lengths -> sound_pattern ns p.
Proof.
  intros Han Hs. induction lengths as [|len lengths IH]; cbn [window_loop].
  - intros H. inversion H.
  - destruct (Py.len ns <? start + len); [intros H; inversion H|].
    intros H. apply elem_of_app in H as [H | H]; [|now apply IH].
    destruct (analyze _ start) as [q|] eqn:E; [|inversion H].
    destruct (Py.Qleb 0.6 (confidence q)); [|inversion H].
    apply list_elem_of_singleton in H as ->.
    destruct (Han _ _ _ E) as (H1 & H2 & H3 & H4 & H5 & H6).
    destruct (slice_from ns start (start + len) Hs ltac:(lia)) as [Hfit Hseg].
    split; [|split; assumption]. unfold well_placed.
    rewrite H1, H2, H3. repeat split; try lia.
    rewrite Z.sub_add. exact Hseg.
Qed.

Lemma elem_of_concat_map {A B} (f : A -> list B) (l : list A) (y : B) :
  y ∈ concat (map f l) -> exists x, x ∈ l /\ y ∈ f x.
Proof.
  induction l as [|a l IH]; cbn [map concat]; intros H; [inversion H|].
  apply elem_of_app in H as [H | H].
  - exists a. split; [left | exact H].
  - destruct (IH H) as (x & Hx & Hy). exists x. split; [now right | exact Hy].
Qed.

Lemma detect_scales_sound cfg (ns : list SMTNote) (p : MusicalPattern) :
  p ∈ _detect_scales cfg ns -> sound_pattern ns p.
Proof.
  unfold _detect_scales. intros H.
  apply elem_of_concat_map in H as (start & Hs & Hp).
  unfold Py.range in Hs. apply elem_of_seqZ in Hs.
  refine (window_loop_sound _ ns start _ p analyze_scale_result _ Hp). lia.
Qed.

Lemma detect_arpeggios_sound cfg (ns : list SMTNote) (p : MusicalPattern) :
  p ∈ _detect_arpeggios cfg ns -> sound_pattern ns p.
Proof.
  unfold _detect_arpeggios. intros H.
  apply elem_of_concat_map in H as (start & Hs & Hp).
  unfold Py.range in Hs. apply elem_of_seqZ in Hs.
  refine (window_loop_sound _ ns start _ p analyze_arpeggio_result _ Hp). lia.
Qed.

(** The [while] loop of [_find_sequence_pattern] only moves forward and
    stays inside the list. *)
Lemma repetition_loop_inv (fuel : nat) (ns : list SMTNote) (ps : Z) (iv : list Z) :
  0 <= ps ->
  forall reps cp r cp',
    repetition_loop fuel ns ps iv reps cp = Some (r, cp') ->
    cp <= Py.len ns ->
    reps <= r /\ cp' - r * ps = cp - reps * ps /\ cp' <= Py.len ns.
Proof.
  intros Hps. induction fuel as [|fuel IH]; intros reps cp r cp';
    cbn [repetition_loop].
  - destruct (cp + ps <=? Py.len ns); [destruct (bool_decide _); [discriminate|]|];
      intros [= <- <-] Hcp; lia.
  - destruct (cp + ps <=? Py.len ns) eqn:E;
      [destruct (bool_decide _)|]; try (intros [= <- <-] Hcp; lia).
    apply Z.leb_le in E. intros H Hcp.
    destruct (IH _ _ _ _ H E) as (H1 & H2 & H3). lia.
Qed.

Lemma find_sequence_pattern_sound cfg (ns : list SMTNote) (start ps : Z)
      (p : MusicalPattern) :
  0 <= start -> 1 <= ps ->
  _find_sequence_pattern cfg ns start ps = Some (Some p) -> sound_pattern ns p.
Proof.
  intros Hs Hps. unfold _find_sequence_pattern.
  destruct (Py.len ns <? start + ps * 2) eqn:E; [discriminate|].
  apply Z.ltb_ge in E.
  destruct (repetition_loop _ _ _ _ _ _) as [[r cp']|] eqn:El; [|discriminate].
  cbn [mbind option_bind].
  destruct (_ <=? r); [|discriminate]. intros [= <-].
  assert (Hps0 : 0 <= ps) by lia.
  assert (Hcp : start + ps <= Py.len ns) by lia.
  destruct (repetition_loop_inv _ _ _ _ Hps0 _ _ _ _ El Hcp) as (H1 & H2 & H3).
  unfold sound_pattern, well_placed.
  cbn [start_index end_index notes confidence pattern_type].
  assert (Hr : (-1 <= inject_Z (r - 2))%Q).
  { change (-1)%Q with (inject_Z (-1)). rewrite <- Zle_Qle. lia. }
  repeat split; try lia; try nia.
  - unfold Py.min2. destruct (Py.Qltb _ _); lra.
  - unfold Py.min2. destruct (Py.Qltb _ _) eqn:Em; [apply Qltb_lt in Em|]; lra.
  - apply list_elem_of_In. cbn. tauto.
Qed.

Lemma detect_sequences_sound cfg (ns : list SMTNote) (out : list MusicalPattern)
      (p : MusicalPattern) :
  _detect_sequences cfg ns = Some out -> p ∈ out -> sound_pattern ns p.
Proof.
  unfold _detect_sequences.
  destruct (mapM _ (Py.range 2 (4 + 1))) as [found|] eqn:E; [|discriminate].
  cbn [mbind option_bind]. intros [= <-] Hp.
  apply list_elem_of_omap in Hp as (o & Ho & Hid). unfold id in Hid. subst o.
  apply DetectorFacts.elem_of_concat in Ho as (row & Hrow & Hp).
  apply mapM_Some_1 in E.
  apply list_elem_of_lookup in Hrow as [i Hi].
  destruct (Forall2_lookup_r _ _ _ _ _ E Hi) as (ps & Hps & Hmap).
  apply list_elem_of_lookup_2 in Hps. unfold Py.range in Hps.
  apply elem_of_seqZ in Hps.
  apply mapM_Some_1 in Hmap.
  apply list_elem_of_lookup in Hp as [j Hj].
  destruct (Forall2_lookup_r _ _ _ _ _ Hmap Hj) as (start & Hstart & Hfind).
  apply list_elem_of_lookup_2 in Hstart. unfold Py.range in Hstart.
  apply elem_of_seqZ in Hstart.
  eapply (find_sequence_pattern_sound cfg ns start ps); [lia | lia | exact Hfind].
Qed.

Lemma item_Some_lt {A} (l : list A) (i : Z) (x : A) :
  0 <= i -> item l i = Some x -> i < Py.len l.
Proof.
  intros Hi. unfold item. rewrite (proj2 (Z.ltb_ge i 0)) by lia.
  intros H. apply lookup_lt_Some in H. unfold Py.len. lia.
Qed.

Lemma leap_at_sound (ns : list SMTNote) (i : Z) (l : list MusicalPattern)
      (p : MusicalPattern) :
  0 <= i -> leap_at ns i = Some l -> p ∈ l -> sound_pattern ns p.
Proof.
  intros Hi. unfold leap_at.
  destruct (item ns i) as [n0|]; [|discriminate].
  destruct (item ns (i + 1)) as [n1|]; [|discriminate].
  destruct (item ns (i + 2)) as [n2|] eqn:E2; [|discriminate].
  cbn [mbind option_bind]. apply item_Some_lt in E2; [|lia].
  destruct (_ && _); intros [= <-] Hp; [|inversion Hp].
  apply list_elem_of_singleton in Hp as ->.
  unfold sound_pattern, well_placed.
  cbn [start_index end_index notes confidence pattern_type].
  repeat split; try lia; try lra.
  - now replace (i + 2 + 1) with (i + 3) by lia.
  - destruct (pitch n0 <? pitch n1); apply list_elem_of_In; cbn; tauto.
Qed.

Lemma detect_intervals_sound (ns : list SMTNote) (out : list MusicalPattern)
      (p : MusicalPattern) :
  _detect_intervals ns = Some out -> p ∈ out -> sound_pattern ns p.
Proof.
  unfold _detect_intervals. destruct (Py.len ns <? 3).
  - intros [= <-] Hp. inversion Hp.
  - destruct (mapM _ _) as [found|] eqn:E; [|discriminate].
    cbn [mbind option_bind]. intros [= <-] Hp.
    apply DetectorFacts.elem_of_concat in Hp as (l & Hl & Hp).
    apply mapM_Some_1 in E.
    apply list_elem_of_lookup in Hl as [j Hj].
    destruct (Forall2_lookup_r _ _ _ _ _ E Hj) as (i & Hi & Hleap).
    apply list_elem_of_lookup_2 in Hi. unfold Py.range in Hi.
    apply elem_of_seqZ in Hi.
    eapply (leap_at_sound ns i l); [lia | exact Hleap | exact Hp].
Qed.

(** Where the patterns [detect_patterns] returns come from. *)
Lemma detect_patterns_origin cfg (ns : list SMTNote) (out : list MusicalPattern)
      (p : MusicalPattern) :
  detect_patterns cfg ns = Some out -> p ∈ out ->
  (default 0.7%Q (confidence_threshold cfg) <= confidence p)%Q /\
  sound_pattern ns p.
Proof.
  unfold detect_patterns.
  destruct (Py.len ns <? _); [intros [= <-] Hp; inversion Hp|].
  destruct (_detect_sequences cfg ns) as [sequences|] eqn:Es; [|discriminate].
  destruct (_detect_intervals ns) as [leaps|] eqn:El; [|discriminate].
  cbn [mbind option_bind]. intros [= <-] Hp.
  apply DetectorFacts.resolve_overlaps_subset in Hp.
  apply list_elem_of_filter in Hp as [Hc Hp]. apply Qleb_le in Hc.
  split; [exact Hc|].
  repeat (apply elem_of_app in Hp as [Hp | Hp]).
  - now apply (detect_scales_sound cfg).
  - now apply (detect_arpeggios_sound cfg).
  - now apply (detect_sequences_sound cfg ns sequences).
  - now apply (detect_intervals_sound ns leaps).
Qed.

(** Where detected patterns lie.  Every pattern [detect_patterns]
    returns covers a non-empty range of valid note indices,
    [0 <= start_index <= end_index < len(notes)], and its [notes] field
    is exactly [notes[start_index : end_index + 1]]. *)
Theorem detected_patterns_well_placed cfg (ns : list SMTNote)
        (out : list MusicalPattern) (p : MusicalPattern) :
  detect_patterns cfg ns = Some out -> p ∈ out ->
  0 <= start_index p /\ start_index p <= end_index p /\
  end_index p < Py.len ns /\
  notes p = Py.slice ns (start_index p) (end_index p + 1).
Proof.
  intros Hd Hp. destruct (detect_patterns_origin cfg ns out p Hd Hp) as [_ [H _]].
  exact H.
Qed.

(** The confidence of detected patterns.  Every pattern
    [detect_patterns] returns has a confidence between 0 and 1 that is
    at least the configured threshold (0.7 by default). *)
Theorem detected_patterns_confidence cfg (ns : list SMTNote)
        (out : list MusicalPattern) (p : MusicalPattern) :
  detect_patterns cfg ns = Some out -> p ∈ out ->
  (0 <= confidence p <= 1)%Q /\
  (default 0.7%Q (confidence_threshold cfg) <= confidence p)%Q.
Proof.
  intros Hd Hp.
  destruct (detect_patterns_origin cfg ns out p Hd Hp) as [Ht [_ [Hc _]]].
  now split.
Qed.

(** The types of detected patterns.  Every pattern [detect_patterns]
    returns has one of ten types: [scale_up], [scale_down], the five
    [arpeggio_*] types, [sequence], [leap_up] and [leap_down]. *)
Theorem detected_patterns_types cfg (ns : list SMTNote)
        (out : list MusicalPattern) (p : MusicalPattern) :
  detect_patterns cfg ns = Some out -> p ∈ out ->
  pattern_type p ∈ pattern_types.
Proof.
  intros Hd Hp.
  destruct (detect_patterns_origin cfg ns out p Hd Hp) as [_ [_ [_ Ht]]].
  exact Ht.
Qed.

(** The five ascending notes C-D-E-F-G used below. *)
Lemma scale_example_detected :
  exists p rest,
    detect_patterns _default_config
      (map (fun k => mkNote k 0.0 0.5 80 "" "eighth" "mf") [60; 62; 64; 65; 67])
    = Some (p :: rest).
Proof. vm_compute. eauto. Defined.

Lemma detected_patterns_well_placed_witness :
  exists out p,
    let ns := map (fun k => mkNote k 0.0 0.5 80 "" "eighth" "mf")
                  [60; 62; 64; 65; 67] in
    detect_patterns _default_config ns = Some out /\ p ∈ out /\
    0 <= start_index p /\ start_index p <= end_index p /\
    end_index p < Py.len ns /\
    notes p = Py.slice ns (start_index p) (end_index p + 1).
Proof.
  destruct scale_example_detected as (p & rest & E).
  exists (p :: rest), p. cbv zeta. split; [exact E|]. split; [left|].
  apply (detected_patterns_well_placed _default_config _ (p :: rest) p E). left.
Defined.

Lemma detected_patterns_confidence_witness :
  exists out p,
    detect_patterns _default_config
      (map (fun k => mkNote k 0.0 0.5 80 "" "eighth" "mf") [60; 62; 64; 65; 67])
    = Some out /\ p ∈ out /\
    (0 <= confidence p <= 1)%Q /\
    (default 0.7%Q (confidence_threshold _default_config) <= confidence p)%Q.
Proof.
  destruct scale_example_detected as (p & rest & E).
  exists (p :: rest), p. split; [exact E|]. split; [left|].
  apply (detected_patterns_confidence _default_config _ (p :: rest) p E). left.
Defined.

Lemma detected_patterns_types_witness :
  exists out p,
    detect_patterns _default_config
      (map (fun k => mkNote k 0.0 0.5 80 "" "eighth" "mf") [60; 62; 64; 65; 67])
    = Some out /\ p ∈ out /\ pattern_type p ∈ pattern_types.
Proof.
  destruct scale_example_detected as (p & rest & E).
  exists (p :: rest), p. split; [exact E|]. split; [left|].
  apply (detected_patterns_types _default_config _ (p :: rest) p E). left.
Defined.

(** Witnesses for the two sequence-detection lemmas of the previous
    section, on five notes rising by whole tones. *)
Lemma detect_sequences_emits_witness :
  exists out,
    _detect_sequences _default_config
      (map (fun k => mkNote k 0.0 0.5 80 "" "eighth" "mf") [60; 62; 64; 66; 68])
    = Some out /\
    sequence_pattern
      (map (fun k => mkNote k 0.0 0.5 80 "" "eighth" "mf") [60; 62; 64; 66; 68])
      0 2 2 ∈ out.
Proof.
  apply (DetectorFacts.detect_sequences_emits _default_config
           (map (fun k => mkNote k 0.0 0.5 80 "" "eighth" "mf") [60; 62; 64; 66; 68])
           0 2 2).
  - lia.
  - vm_compute. split; [discriminate | reflexivity].
  - lia.
  - vm_compute. discriminate.
  - split; [|split].
    + vm_compute. discriminate.
    + intros k Hk. assert (Hk' : k = 0 \/ k = 1) by lia.
      destruct Hk' as [-> | ->]; reflexivity.
    + intros H. vm_compute in H. now contradiction H.
Defined.

Lemma detect_sequences_short_witness :
  _detect_sequences _default_config
    (map (fun k => mkNote k 0.0 0.5 80 "" "eighth" "mf") [60; 62; 64; 66])
  = Some [].
Proof.
  apply (DetectorFacts.detect_sequences_short _default_config).
  vm_compute. discriminate.
Defined.

(** *** Greedy overlap resolution *)

Lemma elem_of_insert_desc (x a : MusicalPattern) (s : list MusicalPattern) :
  x ∈ insert_desc a s <-> x = a \/ x ∈ s.
Proof.
  induction s as [|b s IH]; cbn [insert_desc].
  - rewrite list_elem_of_singleton. split; [now left | intros [H | H]; [exact H | inversion H]].
  - destruct (Py.Qltb (confidence a) (confidence b)).
    + rewrite !elem_of_cons, IH. tauto.
    + rewrite !elem_of_cons. tauto.
Qed.

Lemma elem_of_sort_desc (x : MusicalPattern) (l : list MusicalPattern) :
  x ∈ sort_desc l <-> x ∈ l.
Proof.
  unfold sort_desc. induction l as [|a l IH]; cbn [foldr]; [reflexivity|].
  rewrite elem_of_insert_desc, IH, elem_of_cons. reflexivity.
Qed.

Lemma insert_desc_sorted (a : MusicalPattern) (s : list MusicalPattern) :
  StronglySorted by_confidence s -> StronglySorted by_confidence (insert_desc a s).
Proof.
  induction 1 as [|b s Hs IH Hb]; cbn [insert_desc].
  - repeat constructor.
  - destruct (Py.Qltb (confidence a) (confidence b)) eqn:E.
    + apply Qltb_lt in E. constructor; [exact IH|].
      apply Forall_forall. intros x Hx. apply elem_of_insert_desc in Hx as [-> | Hx].
      * unfold by_confidence. lra.
      * rewrite Forall_forall in Hb. now apply Hb.
    + apply Qltb_ge in E. constructor; [now constructor|].
      constructor; [exact E|].
      apply Forall_forall. intros x Hx. rewrite Forall_forall in Hb.
      specialize (Hb x Hx). unfold by_confidence in *. lra.
Qed.

Lemma sort_desc_sorted (l : list MusicalPattern) :
  StronglySorted by_confidence (sort_desc l).
Proof.
  unfold sort_desc. induction l as [|a l IH]; cbn [foldr]; [constructor|].
  now apply insert_desc_sorted.
Qed.

Lemma StronglySorted_snoc {A} (R : A -> A -> Prop) (l : list A) (x : A) :
  StronglySorted R l -> Forall (fun q => R q x) l -> StronglySorted R (l ++ [x]).
Proof.
  induction 1 as [|a l Hl IH Ha]; intros Hx; cbn [app].
  - repeat constructor.
  - apply Forall_cons in Hx as [Hax Hx]. constructor; [now apply IH|].
    apply Forall_app. split; [exact Ha | now constructor].
Qed.

Lemma greedy_step st (seen : list MusicalPattern) (x : MusicalPattern) :
  greedy_inv st seen -> (forall a, a ∈ seen -> by_confidence a x) ->
  greedy_inv (resolve_step st x) (seen ++ [x]).
Proof.
  destruct st as [resolved used]. intros (Hused & Hsub & Hmax & Hsort) Hconf.
  unfold resolve_step, greedy_inv in *. cbn [fst snd] in *.
  destruct (bool_decide (pattern_indices x ∩ used = ∅)) eqn:E; cbn [fst snd].
  - split; [|split; [|split]].
    + intros k. rewrite elem_of_union, Hused. split.
      * intros [(q & Hq & Hk) | Hk].
        -- exists q. split; [apply elem_of_app; now left | exact Hk].
        -- exists x. split; [apply elem_of_app; right; left|].
           now apply DetectorFacts.covers_pattern_indices.
      * intros (q & Hq & Hk). apply elem_of_app in Hq as [Hq | Hq].
        -- left. eauto.
        -- apply list_elem_of_singleton in Hq as ->. right.
           now apply DetectorFacts.covers_pattern_indices.
    + intros q Hq. apply elem_of_app in Hq as [Hq | Hq]; apply elem_of_app;
        [left; now apply Hsub | now right].
    + intros y Hy. apply elem_of_app in Hy as [Hy | Hy].
      * destruct (Hmax y Hy) as [Hin | (q & Hq & Ho & Hc)].
        -- left. apply elem_of_app. now left.
        -- right. exists q. split; [apply elem_of_app; now left | now split].
      * left. apply elem_of_app. now right.
    + apply StronglySorted_snoc; [exact Hsort|].
      apply Forall_forall. intros q Hq. apply Hconf, Hsub, Hq.
  - apply bool_decide_eq_false in E.
    apply set_choose_L in E as [k Hk]. apply elem_of_intersection in Hk as [Hkx Hku].
    apply Hused in Hku as (q & Hq & Hqk).
    apply DetectorFacts.covers_pattern_indices in Hkx.
    split; [exact Hused|]. split; [|split; [|exact Hsort]].
    + intros q' Hq'. apply elem_of_app. left. now apply Hsub.
    + intros y Hy. apply elem_of_app in Hy as [Hy | Hy]; [now apply Hmax|].
      apply list_elem_of_singleton in Hy as ->. right. exists q.
      split; [exact Hq|]. split; [now exists k | apply Hconf, Hsub, Hq].
Qed.

Lemma greedy_loop (s : list MusicalPattern) :
  StronglySorted by_confidence s ->
  forall st seen,
    greedy_inv st seen ->
    (forall a b, a ∈ seen -> b ∈ s -> by_confidence a b) ->
    greedy_inv (foldl resolve_step st s) (seen ++ s).
Proof.
  induction 1 as [|x s Hs IH Hx]; intros st seen Hinv Hconf; cbn [foldl].
  - now rewrite app_nil_r.
  - replace (seen ++ x :: s) with ((seen ++ [x]) ++ s) by (now rewrite <- app_assoc).
    apply IH.
    + apply greedy_step; [exact Hinv|]. intros a Ha. apply Hconf; [exact Ha | left].
    + intros a b Ha Hb. apply elem_of_app in Ha as [Ha | Ha].
      * apply Hconf; [exact Ha | now right].
      * apply list_elem_of_singleton in Ha as ->.
        rewrite Forall_forall in Hx. now apply Hx.
Qed.

Lemma greedy_inv_init : greedy_inv ([], ∅) [].
Proof.
  unfold greedy_inv. cbn [fst snd]. split; [|split; [|split]].
  - intros k. split; [intros H; now apply not_elem_of_empty in H|].
    intros (q & Hq & _). inversion Hq.
  - intros q Hq. inversion Hq.
  - intros x Hx. inversion Hx.
  - constructor.
Qed.

Lemma resolve_overlaps_inv (patterns : list MusicalPattern) :
  exists used, greedy_inv (_resolve_overlaps patterns, used) (sort_desc patterns).
Proof.
  unfold _resolve_overlaps. destruct patterns as [|p ps].
  - exists ∅. apply greedy_inv_init.
  - set (l := p :: ps).
    pose proof (greedy_loop (sort_desc l) (sort_desc_sorted l) ([], ∅) []
                  greedy_inv_init) as H.
    destruct (foldl resolve_step ([], ∅) (sort_desc l)) as [resolved used] eqn:E.
    exists used. cbn [fst]. rewrite app_nil_l in H. apply H.
    intros a b Ha. inversion Ha.
Qed.

(** The greedy choice is maximal.  Every pattern given to
    [_resolve_overlaps] is either returned or shares a note index with
    a returned pattern whose confidence is at least as high: no
    rejected pattern could be added to the result. *)
Theorem resolve_overlaps_maximal (patterns : list MusicalPattern)
        (p : MusicalPattern) :
  p ∈ patterns ->
  p ∈ _resolve_overlaps patterns \/
  exists q, q ∈ _resolve_overlaps patterns /\ overlap p q /\
            (confidence p <= confidence q)%Q.
Proof.
  intros Hp. destruct (resolve_overlaps_inv patterns) as [used H].
  destruct H as (_ & _ & Hmax & _). cbn [fst] in Hmax.
  apply Hmax. now apply elem_of_sort_desc.
Qed.

(** The order of the result.  [_resolve_overlaps] returns patterns of
    its input, the highest confidence first. *)
Theorem resolve_overlaps_sorted (patterns : list MusicalPattern) :
  StronglySorted by_confidence (_resolve_overlaps patterns) /\
  Forall (fun q => q ∈ patterns) (_resolve_overlaps patterns).
Proof.
  destruct (resolve_overlaps_inv patterns) as [used H].
  destruct H as (_ & Hsub & _ & Hsort). cbn [fst] in *. split; [exact Hsort|].
  apply Forall_forall. intros q Hq. apply elem_of_sort_desc. now apply Hsub.
Qed.

Lemma resolve_overlaps_maximal_witness :
  let p1 := mkPattern "scale_up" 0 2 0.8 "Pattern 1" [] in
  let p2 := mkPattern "sequence" 1 3 0.7 "Pattern 2" [] in
  p2 ∈ _resolve_overlaps [p1; p2] \/
  exists q, q ∈ _resolve_overlaps [p1; p2] /\ overlap p2 q /\
            (confidence p2 <= confidence q)%Q.
Proof.
  apply (resolve_overlaps_maximal
           [mkPattern "scale_up" 0 2 0.8 "Pattern 1" [];
            mkPattern "sequence" 1 3 0.7 "Pattern 2" []]
           (mkPattern "sequence" 1 3 0.7 "Pattern 2" [])).
  right. left.
Defined.

(** *** What the detectors look at *)

Section Relative.
Variable f : SMTNote -> SMTNote.
Variable k : Z.
Hypothesis f_pitch : forall n, pitch (f n) = pitch n + k.

Lemma len_map {A B} (g : A -> B) (l : list A) : Py.len (map g l) = Py.len l.
Proof. unfold Py.len. now rewrite length_map. Qed.

Lemma slice_map {A B} (g : A -> B) (l : list A) (i j : Z) :
  Py.slice (map g l) i j = map g (Py.slice l i j).
Proof.
  unfold Py.slice. cbv zeta. rewrite len_map.
  now rewrite skipn_map, firstn_map.
Qed.

Lemma item_map {A B} (g : A -> B) (l : list A) (i : Z) :
  item (map g l) i = g <$> item l i.
Proof.
  unfold item. rewrite len_map.
  change (map g l) with (g <$> l).
  destruct (i <? 0); apply list_lookup_fmap.
Qed.

Lemma intervals_of_shift (l : list Z) :
  intervals_of (map (fun x => x + k) l) = intervals_of l.
Proof.
  induction l as [|a [|b l] IH]; [reflexivity..|].
  change (intervals_of (map (fun x => x + k) (a :: b :: l)))
    with ((b + k - (a + k)) :: intervals_of (map (fun x => x + k) (b :: l))).
  rewrite IH. cbn [intervals_of]. f_equal. lia.
Qed.

Lemma pitches_map (l : list SMTNote) :
  map pitch (map f l) = map (fun x => x + k) (map pitch l).
Proof.
  rewrite !map_map. apply map_ext. intros n. apply f_pitch.
Qed.

Lemma intervals_of_map (l : list SMTNote) :
  intervals_of (map pitch (map f l)) = intervals_of (map pitch l).
Proof. rewrite pitches_map. apply intervals_of_shift. Qed.

Lemma classify_chord_type_shift (l : list Z) :
  _classify_chord_type (map (fun x => x + k) l) = _classify_chord_type l.
Proof.
  destruct l as [|p0 l]; [reflexivity|].
  unfold _classify_chord_type. cbn [map].
  replace (Py.len ((p0 + k) :: map (fun x => x + k) l)) with (Py.len (p0 :: l))
    by (unfold Py.len; cbn [length]; now rewrite length_map).
  rewrite map_map.
  rewrite (map_ext (fun x => (x + k - (p0 + k)) mod 12)
                   (fun p => (p - p0) mod 12)) by (intros a; f_equal; lia).
  replace (p0 + k - (p0 + k)) with (p0 - p0) by lia.
  reflexivity.
Qed.

Lemma analyze_scale_relative (seg : list SMTNote) (s : Z) :
  _analyze_scale_pattern (map f seg) s
  = Spec.on_notes f <$> _analyze_scale_pattern seg s.
Proof.
  unfold _analyze_scale_pattern. rewrite len_map, intervals_of_map.
  destruct (Py.len seg <? 3); [reflexivity|]. cbv zeta.
  destruct (Py.Qleb 0.8 _); reflexivity.
Qed.

Lemma analyze_arpeggio_relative (seg : list SMTNote) (s : Z) :
  _analyze_arpeggio_pattern (map f seg) s
  = Spec.on_notes f <$> _analyze_arpeggio_pattern seg s.
Proof.
  unfold _analyze_arpeggio_pattern.
  rewrite len_map, intervals_of_map, pitches_map, classify_chord_type_shift.
  destruct (Py.len seg <? 3); [reflexivity|]. cbv zeta.
  destruct (Py.Qleb 0.6 _); reflexivity.
Qed.

Lemma window_loop_relative
      (analyze : list SMTNote -> Z -> option MusicalPattern)
      (ns : list SMTNote) (start : Z) (lengths : list Z) :
  (forall seg s, analyze (map f seg) s = Spec.on_notes f <$> analyze seg s) ->
  window_loop analyze (map f ns) start lengths
  = map (Spec.on_notes f) (window_loop analyze ns start lengths).
Proof.
  intros Ha. induction lengths as [|len rest IH]; [reflexivity|].
  cbn [window_loop]. rewrite len_map.
  destruct (Py.len ns <? start + len); [reflexivity|]. cbv zeta.
  rewrite slice_map, Ha, IH, map_app. f_equal.
  destruct (analyze (Py.slice ns start (start + len)) start) as [p|];
    [|reflexivity].
  cbn [fmap option_fmap option_map Spec.on_notes confidence].
  destruct (Py.Qleb 0.6 (confidence p)); reflexivity.
Qed.

Lemma concat_windows_relative
      (analyze : list SMTNote -> Z -> option MusicalPattern)
      (ns : list SMTNote) (lengths starts : list Z) :
  (forall seg s, analyze (map f seg) s = Spec.on_notes f <$> analyze seg s) ->
  concat (map (fun start => window_loop analyze (map f ns) start lengths) starts)
  = map (Spec.on_notes f)
        (concat (map (fun start => window_loop analyze ns start lengths) starts)).
Proof.
  intros Ha. rewrite concat_map, map_map. f_equal.
  apply map_ext. intros start. now apply window_loop_relative.
Qed.

Lemma detect_scales_relative cfg (ns : list SMTNote) :
  _detect_scales cfg (map f ns) = map (Spec.on_notes f) (_detect_scales cfg ns).
Proof.
  unfold _detect_scales. rewrite len_map.
  apply concat_windows_relative, analyze_scale_relative.
Qed.

Lemma detect_arpeggios_relative cfg (ns : list SMTNote) :
  _detect_arpeggios cfg (map f ns)
  = map (Spec.on_notes f) (_detect_arpeggios cfg ns).
Proof.
  unfold _detect_arpeggios. rewrite len_map.
  apply concat_windows_relative, analyze_arpeggio_relative.
Qed.

Lemma repetition_loop_relative (fuel : nat) (ns : list SMTNote)
      (ps : Z) (iv : list Z) (r pos : Z) :
  repetition_loop fuel (map f ns) ps iv r pos = repetition_loop fuel ns ps iv r pos.
Proof.
  revert r pos. induction fuel as [|fuel IH]; intros r pos;
    cbn [repetition_loop]; rewrite len_map, slice_map, intervals_of_map;
    [reflexivity|].
  now rewrite IH.
Qed.

Lemma find_sequence_pattern_relative cfg (ns : list SMTNote) (start ps : Z) :
  _find_sequence_pattern cfg (map f ns) start ps
  = fmap (M := option) (Spec.on_notes f) <$> _find_sequence_pattern cfg ns start ps.
Proof.
  unfold _find_sequence_pattern. rewrite len_map.
  destruct (Py.len ns <? start + ps * 2); [reflexivity|]. cbv zeta.
  rewrite slice_map, intervals_of_map, length_map, repetition_loop_relative.
  destruct (repetition_loop _ ns ps _ 1 (start + ps)) as [[r pos]|];
    [|reflexivity].
  cbn [mbind option_bind].
  destruct (default 2 (sequence_min_repetitions cfg) <=? r); [|reflexivity].
  rewrite slice_map. reflexivity.
Qed.

Lemma mapM_fmap {A B C} (h : A -> option B) (g : B -> C) (l : list A) :
  mapM (fun x => g <$> h x) l = map g <$> mapM h l.
Proof.
  induction l as [|x l IH]; [reflexivity|].
  cbn [mapM]. rewrite IH.
  destruct (h x); [|reflexivity]. cbn.
  destruct (mapM h l); reflexivity.
Qed.

Lemma omap_id_fmap {A B} (g : A -> B) (l : list (option A)) :
  omap id (map (fmap (M := option) g) l) = map g (omap id l).
Proof.
  induction l as [|[a|] l IH]; [reflexivity|..]; cbn; now rewrite IH.
Qed.

Lemma detect_sequences_relative cfg (ns : list SMTNote) :
  _detect_sequences cfg (map f ns)
  = map (Spec.on_notes f) <$> _detect_sequences cfg ns.
Proof.
  unfold _detect_sequences. cbv zeta.
  rewrite (mapM_ext
    (fun pattern_size =>
       mapM (fun start => _find_sequence_pattern cfg (map f ns) start pattern_size)
            (Py.range 0 (Py.len (map f ns) - pattern_size * 2)))
    (fun pattern_size =>
       map (fmap (M := option) (Spec.on_notes f)) <$>
         mapM (fun start => _find_sequence_pattern cfg ns start pattern_size)
              (Py.range 0 (Py.len ns - pattern_size * 2)))).
  2:{ intros ps. rewrite len_map, <- mapM_fmap.
      apply mapM_ext. intros start. apply find_sequence_pattern_relative. }
  rewrite mapM_fmap.
  destruct (mapM _ (Py.range 2 (4 + 1))) as [found|]; [|reflexivity].
  cbn [fmap option_fmap option_map mbind option_bind]. f_equal.
  rewrite <- concat_map. apply omap_id_fmap.
Qed.

Lemma leap_at_relative (ns : list SMTNote) (i : Z) :
  leap_at (map f ns) i = map (Spec.on_notes f) <$> leap_at ns i.
Proof.
  unfold leap_at. rewrite !item_map.
  destruct (item ns i) as [n0|]; [|reflexivity].
  destruct (item ns (i + 1)) as [n1|]; [|reflexivity].
  destruct (item ns (i + 2)) as [n2|]; [|reflexivity].
  cbn [fmap option_fmap option_map mbind option_bind]. cbv zeta.
  rewrite !f_pitch, slice_map.
  replace (pitch n1 + k - (pitch n0 + k)) with (pitch n1 - pitch n0) by lia.
  replace (pitch n2 + k - (pitch n1 + k)) with (pitch n2 - pitch n1) by lia.
  replace (pitch n0 + k <? pitch n1 + k) with (pitch n0 <? pitch n1)
    by (destruct (Z.ltb_spec (pitch n0) (pitch n1));
        destruct (Z.ltb_spec (pitch n0 + k) (pitch n1 + k)); lia || reflexivity).
  destruct ((4 <? _) && _); reflexivity.
Qed.

Lemma detect_intervals_relative (ns : list SMTNote) :
  _detect_intervals (map f ns) = map (Spec.on_notes f) <$> _detect_intervals ns.
Proof.
  unfold _detect_intervals. rewrite len_map.
  destruct (Py.len ns <? 3); [reflexivity|].
  rewrite (mapM_ext (leap_at (map f ns))
                    (fun i => map (Spec.on_notes f) <$> leap_at ns i))
    by apply leap_at_relative.
  rewrite mapM_fmap.
  destruct (mapM (leap_at ns) _) as [found|]; [|reflexivity].
  cbn [fmap option_fmap option_map mbind option_bind].
  now rewrite concat_map.
Qed.

Lemma filter_confidence_relative (c : Q) (l : list MusicalPattern) :
  filter (fun p => Py.Qleb c (confidence p) = true) (map (Spec.on_notes f) l)
  = map (Spec.on_notes f) (filter (fun p => Py.Qleb c (confidence p) = true) l).
Proof.
  induction l as [|p l IH]; [reflexivity|]. cbn [map].
  destruct (Py.Qleb c (confidence p)) eqn:E.
  - rewrite !filter_cons_True by exact E. cbn [map]. now rewrite IH.
  - rewrite !filter_cons_False by (cbn [Spec.on_notes confidence]; congruence).
    exact IH.
Qed.

Lemma insert_desc_relative (p : MusicalPattern) (l : list MusicalPattern) :
  insert_desc (Spec.on_notes f p) (map (Spec.on_notes f) l)
  = map (Spec.on_notes f) (insert_desc p l).
Proof.
  induction l as [|q l IH]; [reflexivity|].
  cbn [map insert_desc Spec.on_notes confidence].
  destruct (Py.Qltb (confidence p) (confidence q)); [|reflexivity].
  cbn [map]. f_equal. exact IH.
Qed.

Lemma sort_desc_relative (l : list MusicalPattern) :
  sort_desc (map (Spec.on_notes f) l) = map (Spec.on_notes f) (sort_desc l).
Proof.
  induction l as [|p l IH]; [reflexivity|].
  unfold sort_desc in *. cbn [map foldr]. rewrite IH.
  apply insert_desc_relative.
Qed.

Lemma resolve_loop_relative (l resolved : list MusicalPattern) (used : gset Z) :
  foldl resolve_step (map (Spec.on_notes f) resolved, used)
        (map (Spec.on_notes f) l)
  = (map (Spec.on_notes f) (fst (foldl resolve_step (resolved, used) l)),
     snd (foldl resolve_step (resolved, used) l)).
Proof.
  revert resolved used. induction l as [|p l IH]; intros resolved used;
    [reflexivity|].
  cbn [map foldl]. unfold resolve_step at 2 4 6.
  change (pattern_indices (Spec.on_notes f p)) with (pattern_indices p).
  destruct (bool_decide (pattern_indices p ∩ used = ∅)).
  - change (map (Spec.on_notes f) resolved ++ [Spec.on_notes f p])
      with (map (Spec.on_notes f) resolved ++ map (Spec.on_notes f) [p]).
    rewrite <- map_app. apply IH.
  - apply IH.
Qed.

Lemma resolve_overlaps_relative (l : list MusicalPattern) :
  _resolve_overlaps (map (Spec.on_notes f) l)
  = map (Spec.on_notes f) (_resolve_overlaps l).
Proof.
  destruct l as [|p l]; [reflexivity|].
  unfold _resolve_overlaps.
  change (map (Spec.on_notes f) (p :: l))
    with (Spec.on_notes f p :: map (Spec.on_notes f) l) at 1.
  cbv iota.
  change (Spec.on_notes f p :: map (Spec.on_notes f) l)
    with (map (Spec.on_notes f) (p :: l)).
  rewrite sort_desc_relative.
  change (@nil MusicalPattern) with (map (Spec.on_notes f) []) at 1.
  now rewrite resolve_loop_relative.
Qed.

Lemma detect_patterns_map cfg (ns : list SMTNote) :
  detect_patterns cfg (map f ns)
  = map (Spec.on_notes f) <$> detect_patterns cfg ns.
Proof.
  unfold detect_patterns. rewrite len_map.
  destruct (Py.len ns <? _); [reflexivity|].
  rewrite detect_sequences_relative, detect_intervals_relative,
    detect_scales_relative, detect_arpeggios_relative.
  destruct (_detect_sequences cfg ns) as [sequences|]; [|reflexivity].
  destruct (_detect_intervals ns) as [leaps|]; [|reflexivity].
  cbn [fmap option_fmap option_map mbind option_bind]. f_equal.
  rewrite <- !map_app, filter_confidence_relative.
  apply resolve_overlaps_relative.
Qed.

End Relative.

(** The detectors look at pitch differences only.  When every note is
    replaced by a note whose pitch is moved by the same [k] semitones
    (its times, velocity and names may change in any way), detection
    raises or returns alike, and returns the same patterns: the types,
    index ranges, confidences and descriptions are unchanged, and the
    notes carried by each pattern are the replaced notes. *)
Theorem detect_patterns_relative (f : SMTNote -> SMTNote) (k : Z) cfg
        (ns : list SMTNote) :
  (forall n, pitch (f n) = pitch n + k) ->
  detect_patterns cfg (map f ns)
  = map (Spec.on_notes f) <$> detect_patterns cfg ns.
Proof.
  intros Hf. now apply (detect_patterns_map f k).
Qed.

Lemma detect_patterns_relative_witness :
  detect_patterns _default_config
    (map (Spec.transpose 12)
         [mkNote 60 0.0 1.0 65 "C4" "quarter" "mf";
          mkNote 62 1.0 2.0 65 "D4" "quarter" "mf";
          mkNote 64 2.0 3.0 65 "E4" "quarter" "mf";
          mkNote 65 3.0 4.0 65 "F4" "quarter" "mf";
          mkNote 67 4.0 5.0 65 "G4" "quarter" "mf"])
  = map (Spec.on_notes (Spec.transpose 12)) <$>
      detect_patterns _default_config
        [mkNote 60 0.0 1.0 65 "C4" "quarter" "mf";
         mkNote 62 1.0 2.0 65 "D4" "quarter" "mf";
         mkNote 64 2.0 3.0 65 "E4" "quarter" "mf";
         mkNote 65 3.0 4.0 65 "F4" "quarter" "mf";
         mkNote 67 4.0 5.0 65 "G4" "quarter" "mf"].
Proof.
  apply (detect_patterns_relative (Spec.transpose 12) 12).
  intros n. reflexivity.
Defined.

(** *** Pattern tokens *)

Lemma get_pattern_tokens_map (l : list MusicalPattern) :
  get_pattern_tokens l
  = map (fun p => ("PATTERN_" +:+ Py.upper (pattern_type p))%string) l.
Proof.
  unfold get_pattern_tokens.
  apply (VocabProps.foldl_snoc_map
           (fun p => ("PATTERN_" +:+ Py.upper (pattern_type p))%string) l []).
Qed.

(** The ten pattern types in the default vocabulary, by evaluation. *)
Lemma default_ids_evaluated :
  (let v := Vocabulary.new None in
   forallb (fun t =>
              bool_decide
                (Vocabulary.encode_token v ("PATTERN_" +:+ Py.upper t)
                 = Some (default 4 (Py.assoc t default_pattern_ids)))
              && bool_decide
                   (Vocabulary.decode_token v
                      (default 4 (Py.assoc t default_pattern_ids))
                    = match Py.assoc t default_pattern_ids with
                      | Some _ => ("PATTERN_" +:+ Py.upper t)%string
                      | None => "[UNK]"%string
                      end))
           pattern_types) = true.
Proof. vm_compute. reflexivity. Qed.

Lemma default_ids_of_pattern_types :
  Forall (fun t =>
            Vocabulary.encode_token (Vocabulary.new None)
                                    ("PATTERN_" +:+ Py.upper t)
            = Some (default 4 (Py.assoc t default_pattern_ids)) /\
            Vocabulary.decode_token (Vocabulary.new None)
                                    (default 4 (Py.assoc t default_pattern_ids))
            = match Py.assoc t default_pattern_ids with
              | Some _ => ("PATTERN_" +:+ Py.upper t)%string
              | None => "[UNK]"%string
              end)
         pattern_types.
Proof.
  pose proof default_ids_evaluated as H. cbv zeta in H.
  rewrite forallb_forall in H.
  apply Forall_forall. intros t Ht. apply list_elem_of_In in Ht.
  specialize (H t Ht). apply andb_prop in H as [H1 H2].
  apply bool_decide_eq_true in H1, H2. now split.
Qed.

Lemma mapM_map_Some {A B C} (h : B -> option C) (t : A -> B) (g : A -> C)
      (l : list A) :
  Forall (fun x => h (t x) = Some (g x)) l -> mapM h (map t l) = Some (map g l).
Proof.
  induction 1 as [|x l Hx _ IH]; [reflexivity|].
  cbn [mapM map]. rewrite Hx, IH. reflexivity.
Qed.

(** Pattern tokens and the default vocabulary.  The tokens
    [get_pattern_tokens] makes for the patterns [detect_patterns]
    returns are [PATTERN_] followed by the upper-case type, one per
    pattern.  The default vocabulary has an id for four of the ten
    types only ([scale_up], [scale_down], [arpeggio_major],
    [arpeggio_minor]); the token of any other detected pattern
    (diminished, augmented and unknown arpeggios, sequences, leaps) is
    encoded as 4 and decoded as [[UNK]]. *)
Theorem pattern_tokens_default_ids cfg (ns : list SMTNote)
        (out : list MusicalPattern) :
  detect_patterns cfg ns = Some out ->
  let ids := map (fun p => default 4 (Py.assoc (pattern_type p) default_pattern_ids))
                 out in
  Vocabulary.encode_tokens (Vocabulary.new None) (get_pattern_tokens out)
  = Some ids /\
  Vocabulary.decode_tokens (Vocabulary.new None) ids
  = map (fun p => match Py.assoc (pattern_type p) default_pattern_ids with
                  | Some _ => ("PATTERN_" +:+ Py.upper (pattern_type p))%string
                  | None => "[UNK]"%string
                  end) out.
Proof.
  intros Hd ids.
  assert (Ht : Forall (fun p => pattern_type p ∈ pattern_types) out).
  { apply Forall_forall. intros p Hp.
    now destruct (detect_patterns_origin cfg ns out p Hd Hp) as [_ [_ [_ H]]]. }
  pose proof default_ids_of_pattern_types as Hids.
  rewrite Forall_forall in Hids.
  split.
  - rewrite get_pattern_tokens_map. unfold Vocabulary.encode_tokens, ids.
    apply mapM_map_Some.
    apply (Forall_impl _ _ _ Ht). intros p Hp.
    now destruct (Hids _ Hp).
  - unfold Vocabulary.decode_tokens, ids. rewrite map_map.
    apply Forall_fmap_ext_1.
    apply (Forall_impl _ _ _ Ht). intros p Hp.
    now destruct (Hids _ Hp).
Qed.

Lemma pattern_tokens_default_ids_witness :
  exists out,
    detect_patterns _default_config
      (map (fun k => mkNote k 0.0 0.5 80 "" "eighth" "mf") [60; 62; 64; 65; 67])
    = Some out /\
    Vocabulary.encode_tokens (Vocabulary.new None) (get_pattern_tokens out)
    = Some (map (fun p => default 4 (Py.assoc (pattern_type p) default_pattern_ids))
                out).
Proof.
  destruct scale_example_detected as (p & rest & E).
  exists (p :: rest). split; [exact E|].
  apply (pattern_tokens_default_ids _default_config _ (p :: rest) E).
Defined.

End DetectorProps.
